(** * perfection: perfect hashing by first fit decreasing

    A shallow embedding of [perfection.py] (Python 2) and the proofs of its
    specified properties.

    Layout of the development:
    - [Py]: the parts of the Python runtime the module relies on (exceptions,
      list indexing with negative indices, floor division, [min]/[max],
      comparison of tuples and lists);
    - [heapq]: the standard library's binary heap on a list;
    - [OrderedDict]: the ordered key collection used for the free columns;
    - the functions of [perfection.py], in the order of the source;
    - the theorems. *)

From Stdlib Require Import ZArith Lia Ascii.
From stdpp Require Import base decidable option list gmap fin_maps sorting strings.

#[local] Open Scope Z_scope.

(** ** The Python runtime *)

Module Py.

(** The exceptions that the modelled code can raise. *)
Inductive exn : Set :=
| ValueError
| IndexError
| KeyError
| ZeroDivisionError
| TypeError
| AssertionError
| UnboundLocalError
| OverflowError.

#[global] Instance exn_eq_dec : EqDecision exn.
Proof. solve_decision. Defined.

(** A computation either returns a value or raises. *)
Inductive res (A : Type) : Type :=
| Ok (a : A)
| Raise (e : exn).
#[global] Arguments Ok {A} a.
#[global] Arguments Raise {A} e.

#[global] Instance res_ret : MRet res := @Ok.
#[global] Instance res_bind : MBind res := fun A B f m =>
  match m with
  | Ok a => f a
  | Raise e => Raise e
  end.

Definition is_Ok {A} (m : res A) : Prop := exists a, m = Ok a.

(** [assert c] *)
Definition py_assert (c : bool) : res unit :=
  if c then Ok tt else Raise AssertionError.

(** A left-to-right loop over a list that threads a state and stops at the
    first exception: [for a in l: s = f(s, a)]. *)
Fixpoint foldM {A S : Type} (f : S -> A -> res S) (s : S) (l : list A) : res S :=
  match l with
  | [] => Ok s
  | a :: l' => s' ← f s a; foldM f s' l'
  end.

(** [tuple(f(a) for a in l)] where [f] may raise. *)
Fixpoint mapM {A B : Type} (f : A -> res B) (l : list A) : res (list B) :=
  match l with
  | [] => Ok []
  | a :: l' => b ← f a; bs ← mapM f l'; Ok (b :: bs)
  end.

(** Position designated by the index [i] in a sequence of length [n]:
    [0 <= i < n] counts from the left, [-n <= i < 0] from the right, anything
    else is out of range. *)
Definition norm_index (n : nat) (i : Z) : option nat :=
  if decide (0 <= i < Z.of_nat n) then Some (Z.to_nat i)
  else if decide (- Z.of_nat n <= i < 0) then Some (Z.to_nat (Z.of_nat n + i))
  else None.

(** [l[i]] *)
Definition getitem {A} (l : list A) (i : Z) : res A :=
  match norm_index (length l) i with
  | Some k => match l !! k with Some a => Ok a | None => Raise IndexError end
  | None => Raise IndexError
  end.

(** [l[i] = a] *)
Definition setitem {A} (l : list A) (i : Z) (a : A) : res (list A) :=
  match norm_index (length l) i with
  | Some k => Ok (<[k := a]> l)
  | None => Raise IndexError
  end.

(** [l[:stop]] *)
Definition slice_to {A} (l : list A) (stop : Z) : list A :=
  if decide (stop < 0) then take (Z.to_nat (Z.of_nat (length l) + stop)) l
  else take (Z.to_nat stop) l.

(** [a % b] and [a // b] on integers ([a / b] on Python 2 ints): the
    remainder has the sign of the divisor, as [Z.modulo] and [Z.div]. *)
Definition mod_ (a b : Z) : res Z :=
  if decide (b = 0) then Raise ZeroDivisionError else Ok (a mod b).
Definition floordiv (a b : Z) : res Z :=
  if decide (b = 0) then Raise ZeroDivisionError else Ok (a / b).

(** [min(l)] and [max(l)]; both raise [ValueError] on an empty sequence. *)
Definition min_ (l : list Z) : res Z :=
  match l with
  | [] => Raise ValueError
  | a :: l' => Ok (foldl Z.min a l')
  end.
Definition max_ (l : list Z) : res Z :=
  match l with
  | [] => Raise ValueError
  | a :: l' => Ok (foldl Z.max a l')
  end.

(** [len(l)] *)
Definition len {A} (l : list A) : Z := Z.of_nat (length l).

(** [float(m)], the conversion that [math.sqrt] applies to an integer
    argument: the double nearest to [m], a tie going to the even significand
    of 53 bits; [OverflowError] when that is beyond the largest double.  The
    value of the double is an integer. *)
Definition float_of_int (m : Z) : res Z :=
  let a := Z.abs m in
  let shift := Z.log2 a - 52 in
  if decide (shift <= 0) then Ok m
  else
    let q := Z.shiftr a shift in
    let rest := a - Z.shiftl q shift in
    let half := Z.shiftl 1 (shift - 1) in
    let q := if decide (half < rest \/ (rest = half /\ Z.odd q = true)) then q + 1 else q in
    let x := Z.shiftl q shift in
    if decide (2 ^ 1024 <= x) then Raise OverflowError else Ok (Z.sgn m * x).

(** [math.sqrt(x)] on a double [x] whose value is an integer: [ValueError]
    on a negative argument, else the double nearest to the square root,
    returned as [(r, e)] for the value [r * 2^e], with a significand [r] of
    53 bits.  With [n = x / 4^e], the root of [n] lies between [s] and
    [s + 1] for [s = Z.sqrt n], and above their midpoint when
    [n - s*s > s]. *)
Definition math_sqrt (x : Z) : res (Z * Z) :=
  if decide (x < 0) then Raise ValueError
  else if decide (x = 0) then Ok (0, 0)
  else
    let e := Z.log2 x / 2 - 52 in
    let n := Z.shiftl x (- 2 * e) in
    let s := Z.sqrt n in
    Ok (if decide (s < n - s * s) then s + 1 else s, e).

(** [int(math.ceil(y))] on the double [y = r * 2^e]. *)
Definition int_ceil (y : Z * Z) : Z :=
  let '(r, e) := y in
  if decide (0 <= e) then r * 2 ^ e else - ((- r) / 2 ^ (- e)).

(** [int(math.ceil(math.sqrt(m)))], in double precision as the source
    computes it. *)
Definition ceil_sqrt (m : Z) : res Z :=
  x ← float_of_int m;
  y ← math_sqrt x;
  Ok (int_ceil y).

(** [<] on the values the module compares: integers, tuples and lists.
    Tuples and lists are compared on their first differing component. *)
Class PyLt (A : Type) := py_lt : A -> A -> bool.
#[global] Hint Mode PyLt ! : typeclass_instances.

#[global] Instance Z_lt : PyLt Z := Z.ltb.

#[global] Instance pair_lt {A B} `{EqDecision A} `{PyLt A} `{PyLt B} : PyLt (A * B) :=
  fun p q => if decide (p.1 = q.1) then py_lt p.2 q.2 else py_lt p.1 q.1.

Fixpoint list_lt {A} `{EqDecision A} `{PyLt A} (l k : list A) : bool :=
  match l, k with
  | [], [] => false
  | [], _ :: _ => true
  | _ :: _, [] => false
  | a :: l', b :: k' => if decide (a = b) then list_lt l' k' else py_lt a b
  end.
#[global] Instance list_Lt {A} `{EqDecision A} `{PyLt A} : PyLt (list A) := list_lt.

End Py.

Import Py.

(** ** [heapq] *)

(** The binary min-heap of the standard library, stored in a list: the
    children of position [k] are at [2k+1] and [2k+2].  The functions follow
    [heapq.py]; an in-place update returns the new list. *)
Module heapq.
Section heapq.
Context {A : Type} `{PyLt A}.

(** The [while pos > startpos] loop of [_siftdown].  [pos] decreases at each
    turn, so [pos] turns are always enough and the loop has exited when the
    fuel is spent. *)
Fixpoint siftdown_loop (fuel : nat) (heap : list A) (startpos pos : nat)
    (newitem : A) : list A :=
  match fuel with
  | O => <[pos := newitem]> heap
  | S fuel' =>
      if decide (startpos < pos)%nat then
        let parentpos := ((pos - 1) / 2)%nat in
        match heap !! parentpos with
        | Some parent =>
            if py_lt newitem parent
            then siftdown_loop fuel' (<[pos := parent]> heap) startpos parentpos newitem
            else <[pos := newitem]> heap
        | None => <[pos := newitem]> heap
        end
      else <[pos := newitem]> heap
  end.

Definition siftdown (heap : list A) (startpos pos : nat) : list A :=
  match heap !! pos with
  | Some newitem => siftdown_loop pos heap startpos pos newitem
  | None => heap
  end.

(** The [while childpos < endpos] loop of [_siftup]: the smaller child moves
    up until a leaf is reached; returns the list and the position of the
    leaf.  [pos] increases at each turn and stays below [endpos]. *)
Fixpoint siftup_loop (fuel : nat) (heap : list A) (pos : nat) : list A * nat :=
  match fuel with
  | O => (heap, pos)
  | S fuel' =>
      let childpos := (2 * pos + 1)%nat in
      if decide (childpos < length heap)%nat then
        let rightpos := (childpos + 1)%nat in
        let childpos :=
          match heap !! childpos, heap !! rightpos with
          | Some c, Some r => if negb (py_lt c r) then rightpos else childpos
          | _, _ => childpos
          end in
        match heap !! childpos with
        | Some c => siftup_loop fuel' (<[pos := c]> heap) childpos
        | None => (heap, pos)
        end
      else (heap, pos)
  end.

Definition siftup (heap : list A) (pos : nat) : list A :=
  match heap !! pos with
  | Some newitem =>
      let '(heap', pos') := siftup_loop (length heap) heap pos in
      siftdown (<[pos' := newitem]> heap') pos pos'
  | None => heap
  end.

(** [heappush(heap, item)] *)
Definition heappush (heap : list A) (item : A) : list A :=
  siftdown (heap ++ [item]) 0 (length heap).

(** [heappop(heap)]: the returned item and the heap that is left. *)
Definition heappop (heap : list A) : res (A * list A) :=
  match last heap with
  | None => Raise IndexError
  | Some lastelt =>
      match take (length heap - 1) heap with
      | [] => Ok (lastelt, [])
      | returnitem :: rest => Ok (returnitem, siftup (lastelt :: rest) 0)
      end
  end.

(** [heapify(x)] *)
Definition heapify (x : list A) : list A :=
  foldl siftup x (reverse (seq 0 (length x / 2))).

End heapq.
End heapq.

(** ** [collections.OrderedDict] *)

(** [arrange_rows] keeps the free columns as the keys of an ordered
    dictionary whose values are all [True]: only the keys and their order
    matter.  Deleting a key keeps the others in their order. *)
Module OrderedDict.

(** [OrderedDict((x, True) for x in xrange(n))] *)
Definition from_xrange (n : Z) : list Z := seqZ 0 n.

(** [k in d] *)
Definition contains (d : list Z) (k : Z) : bool := bool_decide (k ∈ d).

(** [del d[k]] *)
Definition delitem (d : list Z) (k : Z) : res (list Z) :=
  if decide (k ∈ d) then Ok (filter (fun c => c ≠ k) d) else Raise KeyError.

End OrderedDict.

(** ** [perfection.py] *)

(** A row of the square, as it sits in the priority queue:
    [(t - |row|, y, [(xpos_1, item_1), ...])]. *)
Abbreviation row_entry := (Z * Z * list (Z * Z))%type.

(** [choose_best_t(items)] *)
Definition choose_best_t (items : list Z) : res Z :=
  m ← max_ items;
  minimum_allowable ← ceil_sqrt m;
  if decide (minimum_allowable ^ 2 < len items)
  then Ok (len items)
  else Ok minimum_allowable.

(** The body of the [for item in items] loop of [place_items_in_square]. *)
Definition place_item_in_square (t : Z) (rows : list row_entry) (item : Z)
    : res (list row_entry) :=
  x ← mod_ item t;
  y ← floordiv item t;
  '(inverse_length, _, row_contents) ← getitem rows y;
  let row_contents := heapq.heappush row_contents (x, item) in
  setitem rows y (inverse_length - 1, y, row_contents).

(** [place_items_in_square(items, t)] *)
Definition place_items_in_square (items : list Z) (t : Z) : res (list row_entry) :=
  let rows := (fun y => (t, y, [])) <$> seqZ 0 t in
  rows ← foldM (place_item_in_square t) rows items;
  _ ← py_assert (forallb (fun '(inv_len, _, row) => bool_decide (inv_len = t - len row)) rows);
  let rows := heapq.heapify rows in
  Ok (filter (fun row : row_entry => row.2 ≠ []) rows).

(** [check_columns_fit(unoccupied_columns, row, offset, row_length)] *)
Fixpoint check_columns_fit (unoccupied_columns : list Z) (row : list (Z * Z))
    (offset row_length : Z) : res bool :=
  match row with
  | [] => Ok true
  | (index, item) :: row' =>
      adjusted_index ← mod_ (index + offset) row_length;
      if negb (OrderedDict.contains unoccupied_columns adjusted_index)
      then Ok false
      else check_columns_fit unoccupied_columns row' offset row_length
  end.

(** The [for free_col in unoccupied_columns] loop of [find_first_fit], over
    the columns [cols] that are still to be tried. *)
Fixpoint find_first_fit_loop (cols unoccupied_columns : list Z)
    (row : list (Z * Z)) (row_length : Z) : res Z :=
  match cols with
  | [] => Raise ValueError
  | free_col :: cols' =>
      '(first_item_x, _) ← getitem row 0;
      let offset := free_col - first_item_x in
      fits ← check_columns_fit unoccupied_columns row offset row_length;
      if fits : bool then Ok offset
      else find_first_fit_loop cols' unoccupied_columns row row_length
  end.

(** [find_first_fit(unoccupied_columns, row, row_length)] *)
Definition find_first_fit (unoccupied_columns : list Z) (row : list (Z * Z))
    (row_length : Z) : res Z :=
  find_first_fit_loop unoccupied_columns unoccupied_columns row row_length.

(** The scan of [trim_nones_from_right]:
    [for i, item in enumerate(reversed(xs)): if item is not None: break].
    Returns the value of [i] after the loop, if it was ever bound. *)
Fixpoint trim_scan {A} (rev_xs : list (option A)) (i : nat) (bound : option nat)
    : option nat :=
  match rev_xs with
  | [] => bound
  | item :: rest =>
      if bool_decide (item ≠ None) then Some i
      else trim_scan rest (S i) (Some i)
  end.

(** [trim_nones_from_right(xs)]: returns [xs[:-i]]. *)
Definition trim_nones_from_right {A} (xs : list (option A)) : res (list (option A)) :=
  match trim_scan (reverse xs) 0 None with
  | None => Raise UnboundLocalError
  | Some i => Ok (slice_to xs (- Z.of_nat i))
  end.

(** The state of the [while row_queue] loop of [arrange_rows]. *)
Record packer : Type := Packer {
  unoccupied_columns : list Z;
  result : list (option Z);
  displacements : list (option Z)
}.

(** The body of [for x, item in row] in [arrange_rows]. *)
Definition place_item (offset : Z) (st : list (option Z) * list Z) (cell : Z * Z)
    : res (list (option Z) * list Z) :=
  let '(result, unoccupied_columns) := st in
  let '(x, item) := cell in
  let actual_x := x + offset in
  result ← setitem result actual_x (Some item);
  unoccupied_columns ← OrderedDict.delitem unoccupied_columns actual_x;
  Ok (result, unoccupied_columns).

(** The body of the [while row_queue] loop, for the row just popped. *)
Definition pack_row (max_columns : Z) (st : packer) (popped : row_entry) : res packer :=
  let '(_inverse_length, y, row) := popped in
  offset ← find_first_fit (unoccupied_columns st) row max_columns;
  '(first_item_x, _) ← getitem row 0;
  displacements ← setitem (displacements st) y (Some offset);
  '(result, unoccupied_columns) ←
    foldM (place_item offset) (result st, unoccupied_columns st) row;
  Ok (Packer unoccupied_columns result displacements).

(** The [while row_queue] loop.  [heappop] shortens the queue by one, so the
    loop runs once per queued row: [arrange_rows] gives it the length of the
    queue as fuel, and the queue is empty when the fuel is spent. *)
Fixpoint arrange_loop (fuel : nat) (max_columns : Z) (row_queue : list row_entry)
    (st : packer) : res packer :=
  match fuel with
  | O => Ok st
  | S fuel' =>
      match row_queue with
      | [] => Ok st
      | _ =>
          '(popped, row_queue) ← heapq.heappop row_queue;
          st ← pack_row max_columns st popped;
          arrange_loop fuel' max_columns row_queue st
      end
  end.

(** [arrange_rows(row_queue, t)] *)
Definition arrange_rows (row_queue : list row_entry) (t : Z)
    : res (list (option Z) * list (option Z)) :=
  let max_columns := t ^ 2 in
  let init :=
    {| unoccupied_columns := OrderedDict.from_xrange max_columns;
       result := replicate (Z.to_nat max_columns) None;
       displacements := replicate (Z.to_nat t) None |} in
  st ← arrange_loop (length row_queue) max_columns row_queue init;
  trimmed ← trim_nones_from_right (result st);
  Ok (trimmed, displacements st).

(** [HashInfo = collections.namedtuple('HashInfo', 't slots r offset to_int')] *)
Record HashInfo (K : Type) : Type := mkHashInfo {
  info_t : Z;
  info_slots : list (option K);
  info_r : list (option Z);
  info_offset : Z;
  info_to_int : option (K -> Z)
}.
Arguments mkHashInfo {K}.
Arguments info_t {K}.
Arguments info_slots {K}.
Arguments info_r {K}.
Arguments info_offset {K}.
Arguments info_to_int {K}.

Section Hash.

(** The type of the original keys, and the function that [__identity] is on
    them: how a key is read as an integer when no [to_int] is given (on
    integer keys, [K := Z] and [identity := id]). *)
Context {K : Type} (identity : K -> Z).

(** The order in which a Python 2 [dict] or [frozenset] yields its elements
    is that of its hash table, which depends on the elements and on the
    order in which they were inserted; the model leaves it open:
    [set_iter l] is the order in which the dict or set is iterated that was
    filled by inserting the elements [l], each once, in this order. *)
Context (set_iter : list Z -> list Z).

(** The integers in the order in which the dict comprehension inserts them:
    an integer enters the dict where it first occurs; with a later key of
    the same integer the comprehension replaces the value in place. *)
Definition insertion_order (ints : list Z) : list Z :=
  foldl (fun inserted z => if decide (z ∈ inserted) then inserted else inserted ++ [z])
    [] ints.

(** [{to_int(original): original for original in keys}]: a later key
    replaces an earlier one with the same integer. *)
Definition key_to_original_of (to_int : K -> Z) (keys : list K) : gmap Z K :=
  foldl (fun m original => <[to_int original := original]> m) ∅ keys.

(** [key_to_original[item - offset] if item is not None else None] *)
Definition slot_of (key_to_original : gmap Z K) (offset : Z) (item : option Z)
    : res (option K) :=
  match item with
  | Some item =>
      match key_to_original !! (item - offset) with
      | Some original => Ok (Some original)
      | None => Raise KeyError
      end
  | None => Ok None
  end.

(** [hash_parameters(keys, minimize=True, to_int=None)] *)
Definition hash_parameters (keys : list K) (minimize : bool)
    (to_int : option (K -> Z)) : res (HashInfo K) :=
  let to_int' := default identity to_int in
  let key_to_original := key_to_original_of to_int' keys in
  let items := set_iter (insertion_order (to_int' <$> keys)) in
  '(offset, items) ←
    (if minimize then
       m ← min_ items;
       let offset := 0 - m in
       Ok (offset, set_iter ((fun x => x + offset) <$> items))
     else Ok (0, items));
  t ← choose_best_t items;
  m ← max_ items;
  _ ← py_assert (bool_decide (t * t >= m) && bool_decide (t * t >= len items));
  row_queue ← place_items_in_square items t;
  '(final_row, displacement_vector) ← arrange_rows row_queue t;
  slots ← mapM (slot_of key_to_original offset) final_row;
  Ok (mkHashInfo t slots displacement_vector offset to_int).

(** The closure [perfect_hash] that [make_hash] returns, over the
    parameters it captured: [x + r[y]].  Adding the unfilled entry [None] of
    [r] to an integer raises [TypeError]. *)
Definition perfect_hash (params : HashInfo K) (x : K) : res Z :=
  let t := info_t params in
  let r := info_r params in
  let offset := info_offset params in
  let to_int := default identity (info_to_int params) in
  let val := to_int x + offset in
  x ← mod_ val t;
  y ← floordiv val t;
  ry ← getitem r y;
  match ry with
  | Some d => Ok (x + d)
  | None => Raise TypeError
  end.

(** [make_hash(keys, **kwargs)] *)
Definition make_hash (keys : list K) (minimize : bool) (to_int : option (K -> Z))
    : res (K -> res Z) :=
  params ← hash_parameters keys minimize to_int;
  Ok (perfect_hash params).

End Hash.

(** The iteration order used to run the functions on concrete keys:
    ascending, as CPython 2 iterates a set of small non-negative integers. *)
Definition ascending (l : list Z) : list Z := merge_sort Z.le l.

(** ** [make_dict] *)

Section MakeDict.

(** The original keys, compared with [!=], and the values of the mapping. *)
Context {K V : Type} `{EqDecision K} (identity : K -> Z).

(** What the closures of [make_dict] capture of [hash_func]: the parameters
    of the hash ([hash_func(key)] is [perfect_hash params key],
    [hash_func.slots] is [info_slots params] and [hash_func.length] its
    length). *)
Context (params : HashInfo K).

(** [index_or_key_error(key)] *)
Definition index_or_key_error (key : K) : res Z :=
  index ← perfect_hash identity params key;
  slot ← getitem (info_slots params) index;
  if bool_decide (slot ≠ Some key) then Raise KeyError else Ok index.

(** [self._arr = [None] * hash_func.length] *)
Definition dict_empty : list (option (K * V)) :=
  replicate (length (info_slots params)) None.

(** [__getitem__] *)
Definition dict_getitem (_arr : list (option (K * V))) (key : K) : res V :=
  index ← index_or_key_error key;
  entry ← getitem _arr index;
  match entry with
  | None => Raise KeyError
  | Some entry => Ok entry.2
  end.

(** [__setitem__] *)
Definition dict_setitem (_arr : list (option (K * V))) (key : K) (value : V)
    : res (list (option (K * V))) :=
  index ← index_or_key_error key;
  setitem _arr index (Some (key, value)).

(** [__delitem__] *)
Definition dict_delitem (_arr : list (option (K * V))) (key : K)
    : res (list (option (K * V))) :=
  index ← index_or_key_error key;
  entry ← getitem _arr index;
  match entry with
  | None => Raise KeyError
  | Some _ => setitem _arr index None
  end.

(** [__iter__]: [(pair[0] for pair in self._arr if pair is not None)] *)
Definition dict_iter (_arr : list (option (K * V))) : list K :=
  omap (fun entry : option (K * V) => fst <$> entry) _arr.

(** [__len__]: [sum(1 for _ in self)] *)
Definition dict_len (_arr : list (option (K * V))) : Z := len (dict_iter _arr).

(** [__init__] on a sequence of pairs: [MutableMapping.update] stores them
    one after the other with [self[key] = value]. *)
Definition dict_init (pairs : list (K * V)) : res (list (option (K * V))) :=
  foldM (fun _arr '(key, value) => dict_setitem _arr key value) dict_empty pairs.

(** A dictionary array in which every pair sits where the hash of its key
    points. *)
Definition dict_wf (_arr : list (option (K * V))) : Prop :=
  length _arr = length (info_slots params) /\
  forall (n : nat) key value, _arr !! n = Some (Some (key, value)) ->
    exists index, index_or_key_error key = Ok index /\
      norm_index (length _arr) index = Some n.

End MakeDict.

(** The class that [make_dict] returns, as the methods it is built from. *)
Record dict_class (K V : Type) : Type := DictClass {
  cls_init : list (K * V) -> res (list (option (K * V)));
  cls_getitem : list (option (K * V)) -> K -> res V;
  cls_setitem : list (option (K * V)) -> K -> V -> res (list (option (K * V)));
  cls_delitem : list (option (K * V)) -> K -> res (list (option (K * V)));
  cls_iter : list (option (K * V)) -> list K;
  cls_len : list (option (K * V)) -> Z
}.
Arguments DictClass {K V}.
Arguments cls_init {K V}.
Arguments cls_getitem {K V}.
Arguments cls_setitem {K V}.
Arguments cls_delitem {K V}.
Arguments cls_iter {K V}.
Arguments cls_len {K V}.

(** [make_dict(name, keys, **kwargs)]; [name] only shows in [__repr__] and
    [__doc__]. *)
Definition make_dict {K V : Type} `{EqDecision K} (identity : K -> Z)
    (set_iter : list Z -> list Z) (keys : list K) (minimize : bool)
    (to_int : option (K -> Z)) : res (dict_class K V) :=
  params ← hash_parameters identity set_iter keys minimize to_int;
  Ok {| cls_init := dict_init identity params;
        cls_getitem := dict_getitem identity params;
        cls_setitem := dict_setitem identity params;
        cls_delitem := dict_delitem identity params;
        cls_iter := dict_iter;
        cls_len := dict_len |}.

(** [ord] on the characters of a [str]. *)
Definition ord (c : ascii) : Z := Z.of_nat (nat_of_ascii c).

(** ** Notions used in the statements *)

(** The rows of a queue in the order in which the [while row_queue] loop of
    [arrange_rows] pops them. *)
Fixpoint drain (fuel : nat) (row_queue : list row_entry) : list row_entry :=
  match fuel with
  | O => []
  | S fuel' =>
      match heapq.heappop row_queue with
      | Ok (popped, row_queue') => popped :: drain fuel' row_queue'
      | Raise _ => []
      end
  end.

Definition pop_order (row_queue : list row_entry) : list row_entry :=
  drain (length row_queue) row_queue.

(** The position that the row index [y] of a queue entry designates in a
    sequence of [t] elements ([rows] in [place_items_in_square],
    [displacements] in [arrange_rows], [r] in [perfect_hash]). *)
Definition row_index (t : Z) (row : row_entry) : option nat :=
  norm_index (Z.to_nat t) row.1.2.

(** The shape of the state of the Row Packer for a table parameter [t]:
    the working vector has [t^2] cells, the displacement vector [t] entries,
    and the free columns are columns of the working vector. *)
Definition packer_ok (t : Z) (st : packer) : Prop :=
  length (result st) = Z.to_nat (t ^ 2) /\
  length (displacements st) = Z.to_nat t /\
  forall c, c ∈ unoccupied_columns st -> 0 <= c < t ^ 2.

(** The row has been packed: its displacement [d] is recorded at its row
    index and each of its items sits in the working vector at [x + d], a
    column that is no longer free. *)
Definition row_packed (t : Z) (st : packer) (row : row_entry) : Prop :=
  exists (j : nat) (d : Z),
    row_index t row = Some j /\
    displacements st !! j = Some (Some d) /\
    forall x item, (x, item) ∈ row.2 ->
      0 <= x + d /\
      result st !! Z.to_nat (x + d) = Some (Some item) /\
      x + d ∉ unoccupied_columns st.

(** Every entry of [rows] carries a [y] that designates its own position
    among the [t] rows. *)
Definition rows_wf (t : Z) (rows : list row_entry) : Prop :=
  length rows = Z.to_nat t /\
  forall k row, rows !! k = Some row -> row_index t row = Some k.

(** The item has been put in the square: it is in the row that its [y]
    designates, with its [x]. *)
Definition item_in_square (t : Z) (rows : list row_entry) (item : Z) : Prop :=
  exists (j : nat) (row : row_entry),
    norm_index (Z.to_nat t) (item / t) = Some j /\
    row_index t row = Some j /\
    row ∈ rows /\
    (item mod t, item) ∈ row.2.


(** The item has its cell: the displacement [d] of the row that its [y]
    designates is filled, and the working vector holds the item at
    [x + d]. *)
Definition item_packed (t : Z) (st : packer) (item : Z) : Prop :=
  t ≠ 0 /\
  exists (j : nat) (d : Z),
    norm_index (Z.to_nat t) (item / t) = Some j /\
    displacements st !! j = Some (Some d) /\
    0 <= item mod t + d /\
    result st !! Z.to_nat (item mod t + d) = Some (Some item).


(** The cells of a row are items of [items], each with its own [x], in the
    row that its [y] designates. *)
Definition row_sound (t : Z) (items : list Z) (row : row_entry) : Prop :=
  forall x item, (x, item) ∈ row.2 ->
    item ∈ items /\ x = item mod t /\
    norm_index (Z.to_nat t) (item / t) = row_index t row.

(** The cells of the working vector that are assigned hold items of packed
    rows of [rows], each at [x + d] for the displacement [d] of its row. *)
Definition result_sound (t : Z) (rows : list row_entry) (st : packer) : Prop :=
  forall (c : nat) (item : Z), result st !! c = Some (Some item) ->
    exists row (j : nat) (d x : Z),
      row ∈ rows /\ row_index t row = Some j /\
      displacements st !! j = Some (Some d) /\
      (x, item) ∈ row.2 /\ Z.of_nat c = x + d.


(** The rows of [place_items_in_square] keep their keys: [t - |row|]. *)
Definition rows_keyed (t : Z) (rows : list row_entry) : Prop :=
  length rows = Z.to_nat t /\
  Forall (fun row : row_entry => row.1.1 = t - len row.2) rows.

(** The integer ceiling of the exact square root: the least natural number
    whose square reaches [m]. *)
Definition exact_ceil_sqrt (m : Z) : Z :=
  let s := Z.sqrt m in if decide (s * s = m) then s else s + 1.

(** The parameters of the docstring of [hash_parameters]:
    [hash_parameters([1, 5, 7])]. *)
Definition example_info : HashInfo Z :=
  {| info_t := 3; info_slots := [Some 1; Some 5; Some 7];
     info_r := [Some 0; Some 0; Some 2]; info_offset := -1; info_to_int := None |}.


(** [a <= b] for the comparison of [heapq]: [not b < a]. *)
Definition py_le {A} `{PyLt A} (a b : A) : Prop := py_lt b a = false.

(** The heap invariant of [heapq]: [heap[(i - 1) // 2] <= heap[i]] for every
    position [i] but the root. *)
Definition is_heap {A} `{PyLt A} (heap : list A) : Prop :=
  forall (i : nat) (p c : A),
    (0 < i)%nat -> heap !! ((i - 1) / 2)%nat = Some p -> heap !! i = Some c ->
    py_le p c.


(** The state of the loop of [_siftdown]: the heap invariant holds on every
    edge but the one above [pos]; [newitem] is not above the value left at
    [pos], and the children of [pos] are not below its parent. *)
Definition sifting {A} `{PyLt A} (heap : list A) (pos : nat) (newitem : A) : Prop :=
  (forall i p c, (0 < i)%nat -> i ≠ pos ->
     heap !! ((i - 1) / 2)%nat = Some p -> heap !! i = Some c -> py_le p c) /\
  (forall v, heap !! pos = Some v -> py_le newitem v) /\
  (forall i g c, (0 < pos)%nat -> (0 < i)%nat -> ((i - 1) / 2)%nat = pos ->
     heap !! ((pos - 1) / 2)%nat = Some g -> heap !! i = Some c -> py_le g c).

(** A queued row that the Row Packer can place: its row index designates
    one of the [t] rows, its cells have distinct [x], none below that of
    the first cell and all in the square. *)
Definition row_ok (t : Z) (row : row_entry) : Prop :=
  is_Some (row_index t row) /\
  NoDup (row.2).*1 /\
  exists first_item_x first_item rest,
    row.2 = (first_item_x, first_item) :: rest /\
    0 <= first_item_x /\
    forall x, x ∈ (row.2).*1 -> first_item_x <= x < t.

(** The state of the Row Packer after [j] rows: the free columns are in
    ascending order, and every column from [j * t] on is free. *)
Definition packing (t : Z) (j : nat) (st : packer) : Prop :=
  packer_ok t st /\
  StronglySorted Z.lt (unoccupied_columns st) /\
  forall c, Z.of_nat j * t <= c < t ^ 2 -> c ∈ unoccupied_columns st.


(** A queue that [arrange_rows] can pack: rows with distinct row indices,
    each of which can be placed. *)
Definition queue_ok (t : Z) (row_queue : list row_entry) : Prop :=
  NoDup (row_index t <$> row_queue) /\ Forall (row_ok t) row_queue.


(** * Properties *)

(** ** The doctests of the module *)

(** The examples of the docstrings, run on the model. *)

Example doctest_hash_parameters_no_minimize :
  hash_parameters id ascending [1; 5; 7] false None
  = Ok {| info_t := 3; info_slots := [Some 1; Some 5; Some 7];
          info_r := [Some (-1); Some (-1); Some 1]; info_offset := 0;
          info_to_int := None |}.
Proof. vm_compute; reflexivity. Qed.

Example doctest_hash_parameters :
  hash_parameters id ascending [1; 5; 7] true None
  = Ok {| info_t := 3; info_slots := [Some 1; Some 5; Some 7];
          info_r := [Some 0; Some 0; Some 2]; info_offset := -1;
          info_to_int := None |}.
Proof. vm_compute; reflexivity. Qed.

Example doctest_hash_parameters_slots :
  (hash_parameters id ascending
     [0; 3; 4; 7; 10; 13; 15; 18; 19; 21; 22; 24; 26; 29; 30; 34] true None
   ≫= fun phash => Ok (info_slots phash))
  = Ok (Some <$> [18; 19; 0; 21; 22; 3; 4; 24; 7; 26; 30; 10; 29; 13; 34; 15]).
Proof. vm_compute; reflexivity. Qed.

(** ['+-<>[].,'] with [to_int=ord]; the slots are
    [('+', ',', '-', '.', '<', '[', '>', ']')]. *)
Example doctest_module :
  (hash_parameters id ascending [43; 45; 60; 62; 91; 93; 46; 44] true None
   ≫= fun phash => Ok (info_slots phash))
  = Ok (Some <$> [43; 44; 45; 46; 60; 91; 62; 93]).
Proof. vm_compute; reflexivity. Qed.

Example doctest_place_items_in_square_4 :
  place_items_in_square [1; 5; 7] 4 = Ok [(2, 1, [(1, 5); (3, 7)]); (3, 0, [(1, 1)])].
Proof. vm_compute; reflexivity. Qed.

Example doctest_place_items_in_square_3 :
  place_items_in_square [1; 5; 7] 3
  = Ok [(2, 0, [(1, 1)]); (2, 1, [(2, 5)]); (2, 2, [(1, 7)])].
Proof. vm_compute; reflexivity. Qed.

Example doctest_arrange_rows_4 :
  arrange_rows [(2, 1, [(0, 1); (1, 5)]); (3, 3, [(1, 7)])] 4
  = Ok ([Some 1; Some 5; Some 7], [None; Some 0; None; Some 1]).
Proof. vm_compute; reflexivity. Qed.

Example doctest_arrange_rows_3 :
  arrange_rows [(1, 1, [(0, 1); (2, 7)]); (2, 2, [(1, 5)])] 3
  = Ok ([Some 1; Some 5; Some 7], [None; Some 0; Some 0]).
Proof. vm_compute; reflexivity. Qed.

Example doctest_check_columns_fit :
  check_columns_fit [0; 1; 2; 3] [(0, 1); (2, 1)] 0 4 = Ok true /\
  check_columns_fit [0; 2; 3] [(2, 1); (3, 1)] 0 4 = Ok true /\
  check_columns_fit [] [(2, 1); (3, 1)] 0 4 = Ok false /\
  check_columns_fit [0] [(2, 1)] 2 4 = Ok true /\
  check_columns_fit [0] [(3, 1)] 2 4 = Ok false.
Proof. repeat split. Qed.

Example doctest_trim_nones_from_right :
  trim_nones_from_right [Some 1; Some 2; None; Some 4; None; Some 5; None; None]
  = Ok [Some 1; Some 2; None; Some 4; None; Some 5].
Proof. reflexivity. Qed.

Example doctest_make_hash :
  (make_hash id ascending
     [0; 3; 4; 7; 10; 13; 15; 18; 19; 21; 22; 24; 26; 29; 30; 34] true None
   ≫= fun hf => hf 19) = Ok 1.
Proof. vm_compute; reflexivity. Qed.

(** ** The exception monad *)

Lemma bind_Ok {A B} (m : res A) (f : A -> res B) (b : B) :
  m ≫= f = Ok b -> exists a, m = Ok a /\ f a = Ok b.
Proof. destruct m as [a|e]; simpl; [eauto | discriminate]. Qed.

Lemma py_assert_Ok (c : bool) (u : unit) : py_assert c = Ok u -> c = true.
Proof. destruct c; [reflexivity | discriminate]. Qed.

(** Inverts the hypotheses [_ = Ok _] on a sequence of binds into one
    hypothesis per statement. *)
Ltac inv_res :=
  repeat match goal with
  | H : Ok _ = Ok _ |- _ => injection H as H; try subst
  | H : Raise _ = Ok _ |- _ => discriminate H
  | H : mret _ = Ok _ |- _ => change (@mret res _ _) with (@Ok) in H
  | H : (_ ≫= _) = Ok _ |- _ =>
      let a := fresh "a" in let Ha := fresh "Hstep" in
      apply bind_Ok in H as (a & Ha & H); simpl in H
  | H : (let '(_, _) := ?p in _) = Ok _ |- _ => destruct p; simpl in H
  end.

Lemma foldM_app {A S} (f : S -> A -> res S) (s : S) (l1 l2 : list A) :
  foldM f s (l1 ++ l2) = foldM f s l1 ≫= fun s' => foldM f s' l2.
Proof.
  revert s; induction l1 as [|a l1 IH]; intros s; simpl; [reflexivity|].
  destruct (f s a); simpl; auto.
Qed.

(** An invariant of the loop state holds at the end of a loop that ends
    normally. *)
Lemma foldM_invariant {A S} (I : S -> Prop) (f : S -> A -> res S) (l : list A) :
  (forall s a s', a ∈ l -> I s -> f s a = Ok s' -> I s') ->
  forall s s', I s -> foldM f s l = Ok s' -> I s'.
Proof.
  induction l as [|a l IH]; intros Hf s s' Hs Hrun; simpl in Hrun.
  - by inv_res.
  - inv_res. eapply IH; [| |exact Hrun].
    + intros s1 b s2 Hb. apply Hf. by right.
    + eapply Hf; [by left|exact Hs|exact Hstep].
Qed.

Lemma mapM_Ok {A B} (f : A -> res B) (l : list A) (k : list B) :
  mapM f l = Ok k ->
  length k = length l /\
  forall i a, l !! i = Some a -> exists b, k !! i = Some b /\ f a = Ok b.
Proof.
  revert k; induction l as [|a l IH]; intros k Hk; simpl in Hk; inv_res.
  - split; [done|]. intros i a Hi. by rewrite lookup_nil in Hi.
  - destruct (IH _ Hstep0) as [Hlen Hnth]. split; [simpl; lia|].
    intros [|i] a' Hi; simpl in *.
    + inv_res. injection Hi as ->. eauto.
    + eauto.
Qed.

(** ** The slot vector of a construction *)

Lemma mapM_Ok_inv {A B} (f : A -> res B) (l : list A) (k : list B) (i : nat) (b : B) :
  mapM f l = Ok k -> k !! i = Some b -> exists a, l !! i = Some a /\ f a = Ok b.
Proof.
  intros [Hlen Hnth]%mapM_Ok Hb.
  destruct (l !! i) as [a|] eqn:Ha.
  - destruct (Hnth _ _ Ha) as (b' & Hb' & Hf). exists a. split; [done|]. congruence.
  - apply lookup_ge_None in Ha. apply lookup_lt_Some in Hb. lia.
Qed.

(** ** List indexing *)

Lemma norm_index_lt (n : nat) (i : Z) (k : nat) :
  norm_index n i = Some k -> (k < n)%nat.
Proof. unfold norm_index. repeat case_decide; intros; simplify_eq; lia. Qed.

Lemma norm_index_nonneg (n : nat) (i : Z) :
  0 <= i < Z.of_nat n -> norm_index n i = Some (Z.to_nat i).
Proof. intros. unfold norm_index. by rewrite decide_True. Qed.

Lemma getitem_Ok {A} (l : list A) (i : Z) (a : A) :
  getitem l i = Ok a <-> exists k, norm_index (length l) i = Some k /\ l !! k = Some a.
Proof.
  unfold getitem. split.
  - destruct (norm_index _ _) as [k|]; [|discriminate].
    destruct (l !! k) eqn:E; [|discriminate]. intros; simplify_eq. eauto.
  - intros (k & -> & ->). reflexivity.
Qed.

Lemma setitem_Ok {A} (l l' : list A) (i : Z) (a : A) :
  setitem l i a = Ok l' <-> exists k, norm_index (length l) i = Some k /\ l' = <[k := a]> l.
Proof.
  unfold setitem. split.
  - destruct (norm_index _ _) as [k|]; [|discriminate]. intros; simplify_eq. eauto.
  - intros (k & -> & ->). reflexivity.
Qed.

(** ** [heapq]: the heap operations rearrange the list *)

Section heapq_perm.
Context {A : Type} `{PyLt A}.
Implicit Types heap : list A.

Lemma insert_cons_perm heap (j : nat) (a b : A) :
  heap !! j = Some b -> b :: <[j := a]> heap ≡ₚ a :: heap.
Proof.
  revert j; induction heap as [|x heap IH]; intros [|j] Hj; simplify_eq/=.
  - apply perm_swap.
  - rewrite perm_swap, (IH _ Hj). apply perm_swap.
Qed.

(** Exchanging the contents of two positions. *)
Lemma insert_swap_perm heap (i j : nat) (a b : A) :
  heap !! i = Some a -> heap !! j = Some b ->
  <[i := b]> (<[j := a]> heap) ≡ₚ heap.
Proof.
  revert i j; induction heap as [|x heap IH]; intros [|i] [|j] Hi Hj; simplify_eq/=.
  - reflexivity.
  - by apply insert_cons_perm.
  - by apply insert_cons_perm.
  - f_equiv. by apply IH.
Qed.

Lemma siftdown_loop_perm fuel heap startpos pos newitem :
  (pos < length heap)%nat ->
  heapq.siftdown_loop fuel heap startpos pos newitem ≡ₚ <[pos := newitem]> heap.
Proof.
  revert heap pos; induction fuel as [|fuel IH]; intros heap pos Hpos;
    cbn [heapq.siftdown_loop]; [reflexivity|].
  case_decide as Hlt; [|reflexivity].
  destruct (heap !! ((pos - 1) / 2)%nat) as [parent|] eqn:Hparent; [|reflexivity].
  destruct (py_lt newitem parent); [|reflexivity].
  assert (((pos - 1) / 2) < pos)%nat as Hpp.
  { apply Nat.Div0.div_lt_upper_bound; lia. }
  rewrite IH by (rewrite length_insert; lia).
  rewrite <- (list_insert_insert_eq heap pos parent newitem).
  apply insert_swap_perm.
  - rewrite list_lookup_insert_ne by lia. done.
  - by apply list_lookup_insert_eq.
Qed.

Lemma siftdown_perm heap startpos pos : heapq.siftdown heap startpos pos ≡ₚ heap.
Proof.
  unfold heapq.siftdown. destruct (heap !! pos) as [newitem|] eqn:Hpos; [|reflexivity].
  rewrite siftdown_loop_perm by (by eapply lookup_lt_Some).
  by rewrite list_insert_id.
Qed.

Lemma siftup_loop_perm fuel heap pos heap' pos' newitem :
  (pos < length heap)%nat ->
  heapq.siftup_loop fuel heap pos = (heap', pos') ->
  (pos' < length heap')%nat /\ <[pos' := newitem]> heap' ≡ₚ <[pos := newitem]> heap.
Proof.
  revert heap pos; induction fuel as [|fuel IH]; intros heap pos Hpos;
    cbn [heapq.siftup_loop].
  { intros [= <- <-]. done. }
  case_decide as Hchild; [|intros [= <- <-]; done].
  set (childpos := match heap !! (2 * pos + 1)%nat, heap !! (2 * pos + 1 + 1)%nat with
                   | Some c, Some r => if negb (py_lt c r) then (2 * pos + 1 + 1)%nat
                                       else (2 * pos + 1)%nat
                   | _, _ => (2 * pos + 1)%nat
                   end).
  assert (pos < childpos)%nat as Hgt.
  { unfold childpos. repeat case_match; lia. }
  destruct (heap !! childpos) as [c|] eqn:Hc; [|intros [= <- <-]; done].
  intros Hloop. apply IH in Hloop as [Hlen Hperm].
  2:{ rewrite length_insert. by eapply lookup_lt_Some. }
  split; [done|]. rewrite Hperm.
  rewrite <- (list_insert_insert_eq heap pos c newitem).
  apply insert_swap_perm.
  - rewrite list_lookup_insert_ne by lia. done.
  - by apply list_lookup_insert_eq.
Qed.

Lemma siftup_perm heap pos : heapq.siftup heap pos ≡ₚ heap.
Proof.
  unfold heapq.siftup. destruct (heap !! pos) as [newitem|] eqn:Hpos; [|reflexivity].
  destruct (heapq.siftup_loop _ _ _) as [heap' pos'] eqn:Hloop.
  eapply (siftup_loop_perm _ _ _ _ _ newitem) in Hloop as [Hlen Hperm];
    [|by eapply lookup_lt_Some].
  rewrite siftdown_perm, Hperm. by rewrite list_insert_id.
Qed.

Lemma heappush_perm heap item : heapq.heappush heap item ≡ₚ item :: heap.
Proof.
  unfold heapq.heappush. rewrite siftdown_perm. by rewrite Permutation_app_comm.
Qed.

Lemma heappop_Ok heap item heap' :
  heapq.heappop heap = Ok (item, heap') -> heap ≡ₚ item :: heap'.
Proof.
  unfold heapq.heappop. destruct (last heap) as [lastelt|] eqn:Hlast; [|discriminate].
  apply last_Some in Hlast as [front ->].
  rewrite length_app; simpl. replace (length front + 1 - 1)%nat with (length front) by lia.
  rewrite take_app_length. destruct front as [|returnitem rest]; intros; simplify_eq/=.
  - reflexivity.
  - rewrite siftup_perm. f_equiv. symmetry. apply Permutation_cons_append.
Qed.

Lemma heappop_nonempty heap :
  heap ≠ [] -> exists item heap', heapq.heappop heap = Ok (item, heap').
Proof.
  intros Hne. unfold heapq.heappop.
  destruct (last heap) as [lastelt|] eqn:Hlast.
  - destruct (take _ _); eauto.
  - by apply last_None in Hlast.
Qed.

Lemma heapify_perm heap : heapq.heapify heap ≡ₚ heap.
Proof.
  unfold heapq.heapify. generalize (reverse (seq 0 (length heap / 2))).
  intros positions; revert heap; induction positions as [|pos positions IH];
    intros heap; simpl; [reflexivity|].
  by rewrite IH, siftup_perm.
Qed.

End heapq_perm.

(** ** Loops: what each turn establishes stays *)

(** A loop whose turns each establish [P a] for the element [a] they handle,
    and keep [P b] for the elements [b] handled before, establishes [P] for
    every element.  [R b a] is what is known of an element [b] that comes
    before [a] in the list; [I] is an invariant of the state. *)
Lemma foldM_each {A S} (I : S -> Prop) (P : S -> A -> Prop) (R : A -> A -> Prop)
    (f : S -> A -> res S) (l : list A) :
  (forall s a s', I s -> f s a = Ok s' -> I s' /\ P s' a) ->
  (forall s a b s', R b a -> I s -> P s b -> f s a = Ok s' -> P s' b) ->
  ForallOrdPairs R l ->
  forall s s', I s -> foldM f s l = Ok s' ->
  I s' /\ (forall b, P s b -> Forall (R b) l -> P s' b) /\ forall a, a ∈ l -> P s' a.
Proof.
  intros Hest Hkeep. induction 1 as [|a l Ha Hl IH]; intros s s' Hs Hrun; simpl in Hrun.
  - inv_res. split; [done|]. split; [done|]. intros a Ha. by apply elem_of_nil in Ha.
  - inv_res. destruct (Hest _ _ _ Hs Hstep) as [Hs1 Pa].
    destruct (IH _ _ Hs1 Hrun) as (Hs' & Hold & Hnew).
    split; [done|]. split.
    + intros b Pb Hb. apply Forall_cons in Hb as [Hba Hb].
      apply Hold; [|done]. exact (Hkeep s a b a0 Hba Hs Pb Hstep).
    + intros b [->|Hb]%elem_of_cons; [|by apply Hnew]. by apply Hold.
Qed.

Lemma ForallOrdPairs_True {A} (l : list A) : ForallOrdPairs (fun _ _ => True) l.
Proof. induction l; constructor; [by apply Forall_forall|done]. Qed.

(** ** The Grid Placer *)

Section place.
Variable t : Z.

Lemma place_item_in_square_Ok rows item rows' :
  place_item_in_square t rows item = Ok rows' ->
  t ≠ 0 /\
  exists k inverse_length y row_contents,
    norm_index (length rows) (item / t) = Some k /\
    rows !! k = Some (inverse_length, y, row_contents) /\
    rows' = <[k := (inverse_length - 1, item / t,
                    heapq.heappush row_contents (item mod t, item))]> rows.
Proof.
  unfold place_item_in_square, mod_, floordiv. intros Hrun.
  case_decide as Ht; [discriminate|]. simpl in Hrun.
  apply bind_Ok in Hrun as ([[inverse_length y] row_contents] & Hget & Hset).
  apply getitem_Ok in Hget as (k & Hk & Hrow).
  apply setitem_Ok in Hset as (k' & Hk' & ->).
  rewrite Hk in Hk'; injection Hk' as <-.
  split; [done|]. eauto 10.
Qed.

Lemma rows_wf_init : rows_wf t ((fun y => (t, y, [])) <$> seqZ 0 t).
Proof.
  split; [by rewrite length_fmap, length_seqZ|].
  intros k row Hk. rewrite list_lookup_fmap in Hk.
  destruct (seqZ 0 t !! k) as [y|] eqn:Hy; simplify_eq/=.
  apply lookup_seqZ in Hy as [-> Hlt]. unfold row_index; simpl.
  rewrite norm_index_nonneg by lia. f_equal; lia.
Qed.

Lemma place_item_in_square_each rows item rows' :
  rows_wf t rows -> place_item_in_square t rows item = Ok rows' ->
  rows_wf t rows' /\ item_in_square t rows' item.
Proof.
  intros [Hlen Hwf] (Ht & k & inv & y & rc & Hk & Hrow & ->)%place_item_in_square_Ok.
  rewrite Hlen in Hk. pose proof (norm_index_lt _ _ _ Hk) as Hlt.
  split; [split|].
  - by rewrite length_insert.
  - intros k' row Hk'. destruct (decide (k = k')) as [<-|Hne].
    + rewrite list_lookup_insert_eq in Hk' by lia. by simplify_eq.
    + rewrite list_lookup_insert_ne in Hk' by done. by apply Hwf.
  - exists k, (inv - 1, item / t, heapq.heappush rc (item mod t, item)).
    split; [done|]. split; [done|]. split.
    + apply list_elem_of_insert. lia.
    + simpl. rewrite heappush_perm. by left.
Qed.

Lemma place_item_in_square_keep rows item other rows' :
  rows_wf t rows -> item_in_square t rows other ->
  place_item_in_square t rows item = Ok rows' ->
  item_in_square t rows' other.
Proof.
  intros [Hlen Hwf] (j & row & Hj & Hidx & Hin & Hcell)
    (Ht & k & inv & y & rc & Hk & Hrow & ->)%place_item_in_square_Ok.
  apply list_elem_of_lookup in Hin as [j' Hj'].
  pose proof (Hwf _ _ Hj') as Hidx'. rewrite Hidx in Hidx'; injection Hidx' as <-.
  rewrite Hlen in Hk. pose proof (norm_index_lt _ _ _ Hk) as Hlt.
  destruct (decide (k = j)) as [->|Hne].
  - exists j, (inv - 1, item / t, heapq.heappush rc (item mod t, item)).
    rewrite Hrow in Hj'. injection Hj' as <-. simpl in *.
    split; [done|]. split; [done|]. split.
    + apply list_elem_of_insert. lia.
    + rewrite heappush_perm. by right.
  - exists j, row. split; [done|]. split; [done|]. split; [|done].
    apply list_elem_of_lookup. exists j. by rewrite list_lookup_insert_ne.
Qed.

Lemma rows_wf_NoDup rows : rows_wf t rows -> NoDup (row_index t <$> rows).
Proof.
  intros [_ Hwf]. apply NoDup_alt. intros i j o Hi Hj.
  rewrite list_lookup_fmap in Hi, Hj.
  destruct (rows !! i) as [ri|] eqn:Ei, (rows !! j) as [rj|] eqn:Ej; simplify_eq/=.
  apply Hwf in Ei, Ej. congruence.
Qed.

(** What the Grid Placer returns when it returns: every item is in a queued
    row, and the queued rows have distinct row indices in range. *)
Lemma place_items_in_square_Ok items row_queue :
  place_items_in_square items t = Ok row_queue ->
  (forall item, item ∈ items -> t ≠ 0 /\ item_in_square t row_queue item) /\
  NoDup (row_index t <$> row_queue) /\
  (forall row, row ∈ row_queue -> is_Some (row_index t row)).
Proof.
  unfold place_items_in_square. intros Hrun.
  apply bind_Ok in Hrun as (rows & Hloop & Hrun).
  apply bind_Ok in Hrun as (_ & _ & Hrun). injection Hrun as <-.
  eapply (foldM_each (rows_wf t) (item_in_square t) (fun _ _ => True)) in Hloop
    as (Hwf & _ & Hitems);
    [ | intros s a s'; apply place_item_in_square_each
      | intros s a b s' _; apply place_item_in_square_keep
      | apply ForallOrdPairs_True | apply rows_wf_init ].
  split; [|split].
  - intros item Hitem. split.
    + intros ->. destruct (Hitems _ Hitem) as (j & _ & Hj & _).
      apply norm_index_lt in Hj. simpl in Hj. lia.
    + destruct (Hitems _ Hitem) as (j & row & Hj & Hidx & Hin & Hcell).
      exists j, row. split; [done|]. split; [done|]. split; [|done].
      apply list_elem_of_filter. split.
      * intros Hnil. rewrite Hnil in Hcell. by apply elem_of_nil in Hcell.
      * by rewrite heapify_perm.
  - eapply sublist_NoDup; [|apply fmap_sublist, sublist_filter].
    rewrite heapify_perm. by apply rows_wf_NoDup.
  - intros row [_ Hin]%list_elem_of_filter. rewrite heapify_perm in Hin.
    apply list_elem_of_lookup in Hin as [k Hk]. destruct Hwf as [_ Hwf].
    rewrite (Hwf _ _ Hk). eauto.
Qed.

End place.

(** ** The Row Packer *)

Lemma delitem_Ok (d d' : list Z) (k : Z) :
  OrderedDict.delitem d k = Ok d' <-> k ∈ d /\ d' = filter (fun c => c ≠ k) d.
Proof.
  unfold OrderedDict.delitem. case_decide; split; intros; simplify_eq;
    intuition (subst; done || congruence).
Qed.

Lemma square_nonneg (t : Z) : 0 <= t ^ 2.
Proof. rewrite Z.pow_2_r. nia. Qed.

(** The [for x, item in row] loop of [arrange_rows]: it writes each item at
    [x + offset], takes exactly these columns out of the free columns, and
    leaves alone the cells of columns that were not free. *)
Lemma place_item_fold (offset : Z) (row : list (Z * Z)) (N : nat) :
  forall res un res' un',
  foldM (place_item offset) (res, un) row = Ok (res', un') ->
  length res = N -> (forall c, c ∈ un -> 0 <= c < Z.of_nat N) ->
  length res' = N /\
  (forall c, c ∈ un' <-> c ∈ un /\ forall x item, (x, item) ∈ row -> c ≠ x + offset) /\
  (forall k : nat, Z.of_nat k ∉ un -> res' !! k = res !! k) /\
  (forall x item, (x, item) ∈ row ->
     x + offset ∈ un /\ res' !! Z.to_nat (x + offset) = Some (Some item)).
Proof.
  induction row as [|[x item] row IH]; intros res un res' un' Hrun Hlen Hun;
    simpl in Hrun.
  - inv_res. split; [done|]. split; [|split]; [|done|].
    + intros c. split; [|tauto]. intros Hc. split; [done|].
      intros ?? []%elem_of_nil.
    + intros ?? []%elem_of_nil.
  - apply bind_Ok in Hrun as ([res1 un1] & Hstep & Hrun).
    apply bind_Ok in Hstep as (res1' & Hset & Hstep).
    apply bind_Ok in Hstep as (un1' & Hdel & Hstep).
    injection Hstep as -> ->.
    apply delitem_Ok in Hdel as [Hfree ->].
    pose proof (Hun _ Hfree) as Hrange.
    apply setitem_Ok in Hset as (k & Hk & ->).
    rewrite Hlen, norm_index_nonneg in Hk by done. injection Hk as <-.
    apply IH in Hrun as (Hlen' & Hun' & Hstable & Hplaced).
    2:{ by rewrite length_insert. }
    2:{ intros c [_ Hc]%list_elem_of_filter. by apply Hun. }
    split; [done|]. split; [|split].
    + intros c. rewrite Hun', list_elem_of_filter. split.
      * intros [[Hne Hc] Hrow]. split; [done|].
        intros x' item' [[= -> ->]|Hin]%elem_of_cons; [done|by eapply Hrow].
      * intros [Hc Hrow]. split; [split; [|done]|].
        -- eapply Hrow. by left.
        -- intros x' item' Hin. eapply Hrow. by right.
    + intros k Hk. rewrite Hstable.
      * apply list_lookup_insert_ne. intros <-. apply Hk.
        by rewrite Z2Nat.id by lia.
      * rewrite list_elem_of_filter. tauto.
    + intros x' item' [[= -> ->]|Hin]%elem_of_cons.
      * split; [done|]. rewrite Hstable.
        -- apply list_lookup_insert_eq. lia.
        -- rewrite Z2Nat.id by lia. rewrite list_elem_of_filter. tauto.
      * destruct (Hplaced _ _ Hin) as [[_ Hc]%list_elem_of_filter Hcell]. done.
Qed.

Lemma pack_row_Ok (max_columns : Z) (st st' : packer) (inverse_length y : Z)
    (row : list (Z * Z)) :
  pack_row max_columns st (inverse_length, y, row) = Ok st' ->
  exists offset,
    find_first_fit (unoccupied_columns st) row max_columns = Ok offset /\
    setitem (displacements st) y (Some offset) = Ok (displacements st') /\
    foldM (place_item offset) (result st, unoccupied_columns st) row
      = Ok (result st', unoccupied_columns st').
Proof.
  unfold pack_row. intros Hrun.
  apply bind_Ok in Hrun as (offset & Hfit & Hrun).
  apply bind_Ok in Hrun as ([first_item_x first_item] & _ & Hrun).
  apply bind_Ok in Hrun as (displacements' & Hset & Hrun).
  apply bind_Ok in Hrun as ([result' unoccupied'] & Hfold & Hrun).
  injection Hrun as <-. simpl. eauto.
Qed.

Section pack.
Variable t : Z.

Lemma packer_ok_init :
  packer_ok t {| unoccupied_columns := OrderedDict.from_xrange (t ^ 2);
                 result := replicate (Z.to_nat (t ^ 2)) None;
                 displacements := replicate (Z.to_nat t) None |}.
Proof.
  split; [|split]; simpl.
  - apply length_replicate.
  - apply length_replicate.
  - intros c Hc. apply elem_of_seqZ in Hc. lia.
Qed.

Lemma pack_row_each (st st' : packer) (row : row_entry) :
  packer_ok t st -> pack_row (t ^ 2) st row = Ok st' ->
  packer_ok t st' /\ row_packed t st' row.
Proof.
  destruct row as [[inverse_length y] row].
  intros (Hres & Hdisp & Hun) (d & _ & Hset & Hfold)%pack_row_Ok.
  pose proof (square_nonneg t) as Hsq.
  apply setitem_Ok in Hset as (j & Hj & Hset).
  eapply place_item_fold in Hfold as (Hres' & Hun' & _ & Hplaced);
    [|exact Hres|intros c Hc; rewrite Z2Nat.id by done; by apply Hun].
  split; [split; [|split]|].
  - done.
  - by rewrite Hset, length_insert.
  - intros c [Hc _]%Hun'. by apply Hun.
  - exists j, d. unfold row_index; simpl. rewrite <- Hdisp. split; [done|]. split.
    + rewrite Hset. apply list_lookup_insert_eq. by eapply norm_index_lt.
    + intros x item Hin. destruct (Hplaced _ _ Hin) as [Hfree Hcell].
      split; [apply Hun in Hfree; lia|]. split; [done|].
      rewrite Hun'. intros [_ Hne]. by eapply Hne.
Qed.

Lemma pack_row_keep (st st' : packer) (row other : row_entry) :
  row_index t other ≠ row_index t row ->
  packer_ok t st -> row_packed t st other ->
  pack_row (t ^ 2) st row = Ok st' ->
  row_packed t st' other.
Proof.
  destruct row as [[inverse_length y] row].
  intros Hne (Hres & Hdisp & Hun) (j & d & Hj & Hd & Hcells)
    (d' & _ & Hset & Hfold)%pack_row_Ok.
  pose proof (square_nonneg t) as Hsq.
  apply setitem_Ok in Hset as (j' & Hj' & Hset).
  eapply place_item_fold in Hfold as (Hres' & Hun' & Hstable & _);
    [|exact Hres|intros c Hc; rewrite Z2Nat.id by done; by apply Hun].
  exists j, d. split; [done|]. split.
  - rewrite Hset, list_lookup_insert_ne; [done|].
    intros ->. apply Hne. rewrite Hj. unfold row_index; simpl. by rewrite <- Hdisp.
  - intros x item Hin. destruct (Hcells _ _ Hin) as (Hpos & Hcell & Hocc).
    split; [done|]. split.
    + rewrite Hstable; [done|]. by rewrite Z2Nat.id.
    + rewrite Hun'. tauto.
Qed.

End pack.

(** The [while row_queue] loop handles the rows of the queue one after the
    other, in the order [pop_order]. *)
Lemma arrange_loop_drain (max_columns : Z) (fuel : nat) :
  forall row_queue st, length row_queue = fuel ->
  arrange_loop fuel max_columns row_queue st
  = foldM (pack_row max_columns) st (drain fuel row_queue).
Proof.
  induction fuel as [|fuel IH]; intros row_queue st Hlen; simpl; [done|].
  destruct row_queue as [|row row_queue]; [done|].
  destruct (heappop_nonempty (row :: row_queue)) as (popped & rest & Hpop); [done|].
  rewrite Hpop. simpl. destruct (pack_row _ _ _) as [st1|e]; simpl; [|done].
  apply IH. apply heappop_Ok in Hpop.
  rewrite Hpop in Hlen. simpl in Hlen. lia.
Qed.

Lemma drain_perm (fuel : nat) :
  forall row_queue, length row_queue = fuel -> drain fuel row_queue ≡ₚ row_queue.
Proof.
  induction fuel as [|fuel IH]; intros row_queue Hlen; simpl.
  - by destruct row_queue.
  - destruct (heappop_nonempty row_queue) as (popped & rest & Hpop).
    { by destruct row_queue. }
    rewrite Hpop. pose proof (heappop_Ok _ _ _ Hpop) as Hperm.
    rewrite Hperm. f_equiv. apply IH.
    rewrite Hperm in Hlen. simpl in Hlen. lia.
Qed.

Lemma pop_order_perm (row_queue : list row_entry) : pop_order row_queue ≡ₚ row_queue.
Proof. by apply drain_perm. Qed.

Lemma NoDup_fmap_ForallOrdPairs {A B} (f : A -> B) (l : list A) :
  NoDup (f <$> l) -> ForallOrdPairs (fun b a => f b ≠ f a) l.
Proof.
  induction l as [|a l IH]; simpl; intros Hnd; [constructor|].
  apply NoDup_cons in Hnd as [Ha Hnd]. constructor; [|by apply IH].
  apply Forall_forall. intros b Hb Heq. apply Ha. rewrite Heq.
  by apply list_elem_of_fmap_2.
Qed.

(** What the Row Packer returns when it returns, for a queue of rows with
    distinct row indices: every row is packed in the state that the loop
    ends in. *)
Lemma arrange_rows_Ok (row_queue : list row_entry) (t : Z) final_row displacement_vector :
  arrange_rows row_queue t = Ok (final_row, displacement_vector) ->
  NoDup (row_index t <$> row_queue) ->
  exists st,
    packer_ok t st /\
    displacements st = displacement_vector /\
    trim_nones_from_right (result st) = Ok final_row /\
    forall row, row ∈ row_queue -> row_packed t st row.
Proof.
  unfold arrange_rows. intros Hrun Hnd.
  apply bind_Ok in Hrun as (st & Hloop & Hrun).
  apply bind_Ok in Hrun as (trimmed & Htrim & Hrun). injection Hrun as -> <-.
  rewrite arrange_loop_drain in Hloop by done.
  eapply (foldM_each (packer_ok t) (row_packed t)
            (fun b a => row_index t b ≠ row_index t a)) in Hloop
    as (Hok & _ & Hrows);
    [ | intros s a s'; apply pack_row_each
      | intros s a b s'; apply pack_row_keep
      | apply NoDup_fmap_ForallOrdPairs; by rewrite drain_perm
      | apply packer_ok_init ].
  exists st. split; [done|]. split; [done|]. split; [done|].
  intros row Hrow. apply Hrows. fold (pop_order row_queue). by rewrite pop_order_perm.
Qed.

(** ** The Output Trimmer *)

Section trim.
Context {A : Type}.
Implicit Types xs : list (option A).

(** The cells that the scan has passed before the value it ends with are
    all empty. *)
Lemma trim_scan_passed (rev_xs : list (option A)) (i0 : nat) (bound : option nat) (i : nat) :
  trim_scan rev_xs i0 bound = Some i ->
  (forall b, bound = Some b -> (b < i0)%nat) ->
  forall j, (i0 <= j < i)%nat -> rev_xs !! (j - i0)%nat = Some None.
Proof.
  revert i0 bound; induction rev_xs as [|item rest IH]; intros i0 bound Hscan Hbound j Hj;
    simpl in Hscan.
  - apply Hbound in Hscan. lia.
  - case_bool_decide as Hitem.
    + injection Hscan as <-. lia.
    + subst item.
      destruct (decide (j = i0)) as [->|Hne].
      * by rewrite Nat.sub_diag.
      * replace (j - i0)%nat with (S (j - S i0)) by lia. simpl.
        eapply IH; [exact Hscan| |lia]. intros b [= <-]. lia.
Qed.

Lemma trim_nones_from_right_length xs ys :
  trim_nones_from_right xs = Ok ys -> (length ys <= length xs)%nat.
Proof.
  unfold trim_nones_from_right, slice_to. destruct (trim_scan _ _ _); [|discriminate].
  intros [= <-]. case_decide; rewrite length_take; lia.
Qed.

(** When the trimmed vector is not empty, it has every assigned cell of the
    working vector, at the same index. *)
Lemma trim_nones_from_right_lookup xs ys (c : nat) (v : A) :
  trim_nones_from_right xs = Ok ys -> ys ≠ [] ->
  xs !! c = Some (Some v) -> ys !! c = Some (Some v).
Proof.
  unfold trim_nones_from_right, slice_to.
  destruct (trim_scan _ _ _) as [i|] eqn:Hscan; [|discriminate].
  intros [= <-] Hne Hc. case_decide as Hi.
  2:{ replace (Z.to_nat (- Z.of_nat i)) with 0%nat in Hne by lia. by rewrite take_0 in Hne. }
  pose proof (lookup_lt_Some _ _ _ Hc) as Hlt.
  rewrite lookup_take_lt; [done|].
  destruct (decide (c < Z.to_nat (Z.of_nat (length xs) + - Z.of_nat i))%nat) as [|Hge];
    [done|exfalso].
  pose proof (trim_scan_passed _ _ _ _ Hscan) as Hpassed.
  specialize (Hpassed ltac:(intros ? [=]) (length xs - S c)%nat ltac:(lia)).
  rewrite Nat.sub_0_r, reverse_lookup in Hpassed by lia.
  replace (length xs - S (length xs - S c))%nat with c in Hpassed by lia.
  congruence.
Qed.

(** The cells of the trimmed vector are cells of the working vector. *)
Lemma trim_nones_from_right_prefix xs ys (c : nat) (o : option A) :
  trim_nones_from_right xs = Ok ys -> ys !! c = Some o -> xs !! c = Some o.
Proof.
  unfold trim_nones_from_right, slice_to. destruct (trim_scan _ _ _); [|discriminate].
  intros [= <-]. case_decide; intros [? _]%lookup_take_Some; done.
Qed.

End trim.

(** ** The Table-Size Chooser *)

Lemma max__Ok (items : list Z) (m : Z) :
  max_ items = Ok m -> m ∈ items /\ forall x, x ∈ items -> x <= m.
Proof.
  destruct items as [|a items]; simpl; [discriminate|]. intros [= <-].
  revert a; induction items as [|b items IH]; intros a; simpl.
  - split; [by left|]. by intros x ->%list_elem_of_singleton.
  - destruct (IH (Z.max a b)) as [Hin Hmax]. split.
    + apply elem_of_cons in Hin as [Heq|Hin]; [|by do 2 right].
      rewrite Heq. destruct (Z.max_spec a b) as [[_ ->]|[_ ->]];
        [right; by left|by left].
    + intros x Hx. assert (x <= Z.max a b \/ x ∈ items) as [Hle|Hin'].
      { apply elem_of_cons in Hx as [->|Hx]; [left; lia|].
        apply elem_of_cons in Hx as [->|Hx]; [left; lia|by right]. }
      * etrans; [exact Hle|]. apply Hmax. by left.
      * apply Hmax. by right.
Qed.

Lemma min__Ok (items : list Z) (m : Z) :
  min_ items = Ok m -> m ∈ items /\ forall x, x ∈ items -> m <= x.
Proof.
  destruct items as [|a items]; simpl; [discriminate|]. intros [= <-].
  revert a; induction items as [|b items IH]; intros a; simpl.
  - split; [by left|]. by intros x ->%list_elem_of_singleton.
  - destruct (IH (Z.min a b)) as [Hin Hmin]. split.
    + apply elem_of_cons in Hin as [Heq|Hin]; [|by do 2 right].
      rewrite Heq. destruct (Z.min_spec a b) as [[_ ->]|[_ ->]];
        [by left|right; by left].
    + intros x Hx. assert (Z.min a b <= x \/ x ∈ items) as [Hle|Hin'].
      { apply elem_of_cons in Hx as [->|Hx]; [left; lia|].
        apply elem_of_cons in Hx as [->|Hx]; [left; lia|by right]. }
      * etrans; [|exact Hle]. apply Hmin. by left.
      * apply Hmin. by right.
Qed.

Lemma exact_ceil_sqrt_spec (m : Z) :
  0 <= m ->
  0 <= exact_ceil_sqrt m /\ m <= exact_ceil_sqrt m * exact_ceil_sqrt m /\
  forall s', 0 <= s' -> m <= s' * s' -> exact_ceil_sqrt m <= s'.
Proof.
  intros Hm. unfold exact_ceil_sqrt.
  pose proof (Z.sqrt_spec m ltac:(lia)) as Hspec. cbv zeta in Hspec.
  pose proof (Z.sqrt_nonneg m) as Hnn. unfold Z.succ in Hspec.
  split; [case_decide; lia|]. split; [case_decide; lia|].
  intros s' Hs' Hreach.
  case_decide as Hsq;
    match goal with |- ?bound <= _ => destruct (Z.le_gt_cases bound s') as [|Hgt] end;
    [done|exfalso|done|exfalso].
  - assert (s' * s' < Z.sqrt m * Z.sqrt m) by (apply Z.mul_lt_mono_nonneg; lia). lia.
  - assert (s' * s' <= Z.sqrt m * Z.sqrt m) by (apply Z.mul_le_mono_nonneg; lia). lia.
Qed.

Lemma float_of_int_small (m : Z) : Z.abs m < 2 ^ 53 -> float_of_int m = Ok m.
Proof.
  intros Hm. unfold float_of_int. cbv zeta. rewrite decide_True; [done|].
  destruct (decide (Z.abs m = 0)) as [->|Hne]; [done|].
  assert (Z.log2 (Z.abs m) < 53); [|lia].
  apply Z.log2_lt_pow2; lia.
Qed.

(** Up to [2^52] the double-precision computation gives the integer ceiling
    of the exact square root. *)
Lemma ceil_sqrt_exact (m : Z) :
  0 <= m <= 2 ^ 52 -> ceil_sqrt m = Ok (exact_ceil_sqrt m).
Proof.
  intros Hm. unfold ceil_sqrt. rewrite float_of_int_small by lia. cbn [mbind res_bind].
  destruct (decide (m = 2 ^ 52)) as [->|Htop]; [vm_compute; reflexivity|].
  unfold math_sqrt. rewrite decide_False by lia.
  destruct (decide (m = 0)) as [->|Hpos]; [vm_compute; reflexivity|].
  cbv zeta. cbn [mbind res_bind]. f_equal. unfold int_ceil.
  set (h := Z.log2 m / 2).
  pose proof (Z.log2_spec m ltac:(lia)) as [Hlow Hhigh].
  assert (0 <= Z.log2 m < 52) as HL.
  { split; [apply Z.log2_nonneg|]. apply Z.log2_lt_pow2; lia. }
  assert (0 <= h <= 25) as Hh.
  { unfold h. split; [apply Z.div_pos; lia|].
    apply Z.lt_succ_r, Z.div_lt_upper_bound; lia. }
  assert (Z.log2 m < 2 * h + 2) as HLh.
  { unfold h. pose proof (Z.mod_pos_bound (Z.log2 m) 2 ltac:(lia)).
    pose proof (Z.div_mod (Z.log2 m) 2 ltac:(lia)). lia. }
  rewrite decide_False by lia.
  replace (- (h - 52)) with (52 - h) by lia.
  rewrite Z.shiftl_mul_pow2 by lia.
  replace (-2 * (h - 52)) with ((52 - h) + (52 - h)) by lia.
  rewrite Z.pow_add_r by lia.
  set (d := 2 ^ (52 - h)). set (n := m * (d * d)).
  assert (0 < 2 ^ h) as HH by (apply Z.pow_pos_nonneg; lia).
  assert (4 * 2 ^ h <= d) as Hd.
  { unfold d. change 4 with (2 ^ 2). rewrite <- Z.pow_add_r by lia.
    apply Z.pow_le_mono_r; lia. }
  assert (m < 4 * (2 ^ h * 2 ^ h)) as Hmh.
  { eapply Z.lt_le_trans; [exact Hhigh|].
    change 4 with (2 ^ 2). rewrite <- !Z.pow_add_r by lia.
    apply Z.pow_le_mono_r; lia. }
  destruct (exact_ceil_sqrt_spec m ltac:(lia)) as (Hc0 & Hreach & Hleast).
  set (c := exact_ceil_sqrt m) in *.
  assert (1 <= c) as Hc1 by nia.
  assert ((c - 1) * (c - 1) < m) as Hbelow.
  { destruct (Z.lt_ge_cases ((c - 1) * (c - 1)) m) as [|Hge]; [done|].
    specialize (Hleast (c - 1) ltac:(lia) ltac:(lia)). lia. }
  assert (c <= 2 * 2 ^ h) as Hc by nia.
  assert (0 <= n) as Hn by (unfold n; nia).
  pose proof (Z.sqrt_spec n Hn) as Hs. cbv zeta in Hs. unfold Z.succ in Hs.
  pose proof (Z.sqrt_nonneg n) as Hs0.
  set (s := Z.sqrt n) in *.
  assert ((c - 1) * d < s) as Hlower.
  { assert (((c - 1) * d + 1) * ((c - 1) * d + 1) <= n) as Hsq by (unfold n; nia).
    destruct (Z.lt_ge_cases ((c - 1) * d) s) as [|Hge]; [done|].
    assert ((s + 1) * (s + 1) <= ((c - 1) * d + 1) * ((c - 1) * d + 1))
      by (apply Z.mul_le_mono_nonneg; lia).
    lia. }
  assert (s <= c * d) as Hupper.
  { destruct (Z.le_gt_cases s (c * d)) as [|Hgt]; [done|].
    assert ((c * d + 1) * (c * d + 1) <= s * s) by (apply Z.mul_le_mono_nonneg; nia).
    assert (n <= (c * d) * (c * d)) by (unfold n; nia). lia. }
  set (r := if decide (s < n - s * s) then s + 1 else s).
  assert ((c - 1) * d < r <= c * d) as Hr.
  { unfold r. case_decide as Hround; [|lia]. split; [lia|].
    destruct (decide (s = c * d)) as [Heq|Hne]; [|lia].
    assert (n <= (c * d) * (c * d)) by (unfold n; nia). rewrite Heq in Hround. lia. }
  assert (- r / d = - c); [|lia].
  symmetry. apply (Z.div_unique_pos _ _ _ (c * d - r)); lia.
Qed.

Lemma float_of_int_sign (m x : Z) : float_of_int m = Ok x -> m < 0 -> x < 0.
Proof.
  unfold float_of_int. cbv zeta. case_decide as Hshift; [by intros [= <-]|].
  case_decide; [discriminate|]. intros [= <-] Hm.
  match goal with |- Z.sgn m * Z.shiftl _ ?k < 0 => set (k' := k) in * end.
  match goal with |- Z.sgn m * Z.shiftl ?q _ < 0 => set (q' := q) end.
  assert (0 < Z.shiftr (Z.abs m) k') as Hq.
  { rewrite Z.shiftr_div_pow2 by lia. apply Z.div_str_pos.
    split; [apply Z.pow_pos_nonneg; lia|].
    etrans; [|apply (Z.log2_spec (Z.abs m)); lia].
    apply Z.pow_le_mono_r; lia. }
  assert (0 < q') by (unfold q'; case_decide; lia).
  assert (0 < Z.shiftl q' k').
  { rewrite Z.shiftl_mul_pow2 by lia. apply Z.mul_pos_pos; [done|].
    apply Z.pow_pos_nonneg; lia. }
  rewrite Z.sgn_neg by done. lia.
Qed.

Lemma int_ceil_nonneg (r e : Z) : 0 <= r -> 0 <= int_ceil (r, e).
Proof.
  intros Hr. unfold int_ceil. case_decide.
  - apply Z.mul_nonneg_nonneg; [done|]. apply Z.pow_nonneg; lia.
  - assert (- r / 2 ^ (- e) <= 0); [|lia].
    apply Z.div_le_upper_bound; [apply Z.pow_pos_nonneg; lia|lia].
Qed.

(** Whatever the precision, what [ceil_sqrt] returns is a natural number,
    and only for an argument that is not negative. *)
Lemma ceil_sqrt_nonneg (m s : Z) : ceil_sqrt m = Ok s -> 0 <= m /\ 0 <= s.
Proof.
  unfold ceil_sqrt. intros Hrun.
  apply bind_Ok in Hrun as (x & Hx & Hrun).
  apply bind_Ok in Hrun as ([r e] & Hy & Hrun). injection Hrun as <-.
  unfold math_sqrt in Hy. case_decide as Hneg; [discriminate|].
  split.
  - destruct (Z.lt_ge_cases m 0) as [Hm|]; [|done].
    pose proof (float_of_int_sign _ _ Hx Hm). lia.
  - apply int_ceil_nonneg. case_decide; simplify_eq; [done|].
    pose proof (Z.sqrt_nonneg (Z.shiftl x (-2 * (Z.log2 x / 2 - 52)))).
    case_decide; lia.
Qed.

(** On a negative argument [ceil_sqrt] raises: [ValueError] from
    [math.sqrt], unless the argument is beyond the doubles. *)
Lemma ceil_sqrt_negative (m : Z) :
  m < 0 ->
  exists e, ceil_sqrt m = Raise e /\
    (e = ValueError \/ (e = OverflowError /\ m <= - 2 ^ 1023)).
Proof.
  intros Hm. unfold ceil_sqrt.
  destruct (float_of_int m) as [x|e] eqn:Hx.
  - pose proof (float_of_int_sign _ _ Hx Hm). cbn [mbind res_bind].
    unfold math_sqrt. rewrite decide_True by done. eauto.
  - exists e. split; [done|]. right.
    unfold float_of_int in Hx. cbv zeta in Hx.
    case_decide as Hshift; [discriminate|].
    case_decide as Hbig; [|discriminate]. injection Hx as <-. split; [done|].
    destruct (Z.le_gt_cases m (- 2 ^ 1023)) as [|Hsmall]; [done|exfalso].
    set (a := Z.abs m) in *. set (k := Z.log2 a - 52) in *.
    assert (0 < a < 2 ^ 1023) as Ha by (unfold a; lia).
    pose proof (Z.log2_spec a ltac:(lia)) as [Hlow Hhigh].
    assert (Z.log2 a < 1023) as HL by (apply Z.log2_lt_pow2; lia).
    assert (0 < 2 ^ k) as Hk by (apply Z.pow_pos_nonneg; lia).
    assert (2 ^ Z.succ (Z.log2 a) = 2 ^ 53 * 2 ^ k) as Hsplit.
    { rewrite <- Z.pow_add_r by lia. f_equal. lia. }
    assert (Z.shiftr a k < 2 ^ 53) as Hq.
    { rewrite Z.shiftr_div_pow2 by lia. apply Z.div_lt_upper_bound; [done|]. lia. }
    revert Hbig. rewrite Z.shiftl_mul_pow2 by lia.
    match goal with |- context [?q * 2 ^ k] => set (q' := q) end.
    assert (q' <= 2 ^ 53) as Hq' by (unfold q'; case_decide; lia).
    assert (q' * 2 ^ k <= 2 ^ 53 * 2 ^ k) by (apply Z.mul_le_mono_nonneg_r; lia).
    assert (2 ^ Z.succ (Z.log2 a) <= 2 ^ 1023) by (apply Z.pow_le_mono_r; lia).
    assert (2 ^ 1023 < 2 ^ 1024) by (apply Z.pow_lt_mono_r; lia).
    lia.
Qed.

(** Up to [2^52], [ceil_sqrt m] is the least natural number whose square
    reaches [m]. *)
Lemma ceil_sqrt_Ok (m s : Z) :
  m <= 2 ^ 52 ->
  ceil_sqrt m = Ok s <->
  0 <= m /\ 0 <= s /\ m <= s * s /\ forall s', 0 <= s' -> m <= s' * s' -> s <= s'.
Proof.
  intros Hbound. split.
  - intros Hs. pose proof (ceil_sqrt_nonneg _ _ Hs) as [Hm _].
    rewrite ceil_sqrt_exact in Hs by lia. injection Hs as <-.
    split; [done|]. by apply exact_ceil_sqrt_spec.
  - intros (Hm & Hs & Hreach & Hleast). rewrite ceil_sqrt_exact by lia. f_equal.
    destruct (exact_ceil_sqrt_spec m Hm) as (Hc & Hcreach & Hcleast).
    apply Z.le_antisymm; [by apply Hcleast|by apply Hleast].
Qed.

Lemma choose_best_t_nonneg (items : list Z) (t : Z) :
  choose_best_t items = Ok t -> 0 <= t.
Proof.
  unfold choose_best_t. intros Hrun.
  apply bind_Ok in Hrun as (m & _ & Hrun).
  apply bind_Ok in Hrun as (s & [_ Hs]%ceil_sqrt_nonneg & Hrun).
  case_decide; injection Hrun as <-; unfold len; lia.
Qed.

(** ** The Parameter Assembler and the evaluation function *)

Section key_to_original.
Context {K : Type} (to_int : K -> Z).
Implicit Types (keys : list K) (m : gmap Z K).

Abbreviation remember m original := (<[to_int original := original]> m).

Lemma key_to_original_from m keys z original :
  foldl (fun m original => remember m original) m keys !! z = Some original ->
  (original ∈ keys /\ to_int original = z) \/ m !! z = Some original.
Proof.
  revert m; induction keys as [|k keys IH]; intros m; simpl; [by right|].
  intros [[Hin Hz]|Hm]%IH.
  - left. split; [by right|done].
  - apply lookup_insert_Some in Hm as [[<- <-]|[_ Hm]]; [left|by right].
    split; [by left|done].
Qed.

Lemma key_to_original_has m keys k :
  k ∈ keys \/ is_Some (m !! to_int k) ->
  is_Some (foldl (fun m original => remember m original) m keys !! to_int k).
Proof.
  revert m; induction keys as [|k' keys IH]; intros m; simpl.
  - intros [[]%elem_of_nil|Hm]. done.
  - intros [[->|Hin]%elem_of_cons|Hm]; apply IH.
    + right. rewrite lookup_insert_eq. eauto.
    + by left.
    + right. rewrite lookup_insert_is_Some. destruct (decide (to_int k' = to_int k)); eauto.
Qed.

(** An entry of the dictionary is a key of the sequence, under its
    integer. *)
Lemma key_to_original_lookup keys z original :
  key_to_original_of to_int keys !! z = Some original ->
  original ∈ keys /\ to_int original = z.
Proof. intros [|Hm]%key_to_original_from; [done|]. by rewrite lookup_empty in Hm. Qed.

(** Where [to_int] is injective on the keys, each key is the entry of its
    integer. *)
Lemma key_to_original_inj keys k :
  (forall k1 k2, k1 ∈ keys -> k2 ∈ keys -> to_int k1 = to_int k2 -> k1 = k2) ->
  k ∈ keys -> key_to_original_of to_int keys !! to_int k = Some k.
Proof.
  intros Hinj Hk.
  destruct (key_to_original_has ∅ keys k) as [original Horiginal]; [by left|].
  pose proof Horiginal as [Hin Heq]%key_to_original_lookup.
  unfold key_to_original_of. rewrite Horiginal. f_equal. by apply Hinj.
Qed.

(** The entry of an integer is the last key of the sequence with that
    integer. *)
Lemma key_to_original_last m keys z original :
  z ∈ to_int <$> keys ->
  foldl (fun m original => remember m original) m keys !! z = Some original ->
  original ∈ keys.
Proof.
  revert m; induction keys as [|k keys IH]; intros m; simpl.
  - intros []%elem_of_nil.
  - intros Hin Hlookup. destruct (decide (z ∈ to_int <$> keys)) as [Hlater|Hnot].
    + right. by eapply IH.
    + apply elem_of_cons in Hin as [->|]; [|done].
      apply key_to_original_from in Hlookup as [[Hin _]|Hm]; [by right|].
      rewrite lookup_insert_eq in Hm. injection Hm as <-. by left.
Qed.

(** A key whose integer is that of a later key leaves no trace. *)
Lemma key_to_original_shadowed m keys k' :
  to_int k' ∈ to_int <$> keys ->
  foldl (fun m original => remember m original) (remember m k') keys
  = foldl (fun m original => remember m original) m keys.
Proof.
  revert m; induction keys as [|k keys IH]; intros m; simpl.
  - intros []%elem_of_nil.
  - intros Hin. destruct (decide (to_int k = to_int k')) as [Heq|Hne].
    + by rewrite Heq, insert_insert_eq.
    + apply elem_of_cons in Hin as [Heq|Hin]; [congruence|].
      rewrite insert_insert_ne by done. by apply IH.
Qed.

End key_to_original.

(** ** The order of the insertions *)

Lemma insertion_order_from (inserted ints : list Z) :
  NoDup inserted ->
  let l := foldl (fun inserted z => if decide (z ∈ inserted) then inserted else inserted ++ [z])
             inserted ints in
  NoDup l /\ forall z, z ∈ l <-> z ∈ inserted \/ z ∈ ints.
Proof.
  revert inserted. induction ints as [|z ints IH]; intros inserted Hnd; cbn [foldl].
  - split; [done|]. intros z. rewrite elem_of_nil. tauto.
  - case_decide as Hz.
    + destruct (IH inserted Hnd) as [Hnd' Hin]. split; [done|].
      intros z'. rewrite Hin, elem_of_cons. split; [tauto|].
      intros [|[->|]]; tauto.
    + destruct (IH (inserted ++ [z])) as [Hnd' Hin].
      { apply NoDup_app. split; [done|]. split; [|apply NoDup_singleton].
        intros x Hx ->%list_elem_of_singleton. done. }
      split; [done|]. intros z'.
      rewrite Hin, elem_of_app, list_elem_of_singleton, elem_of_cons. tauto.
Qed.

Lemma NoDup_insertion_order (ints : list Z) : NoDup (insertion_order ints).
Proof. apply (insertion_order_from [] ints), NoDup_nil_2. Qed.

Lemma elem_of_insertion_order (ints : list Z) (z : Z) :
  z ∈ insertion_order ints <-> z ∈ ints.
Proof.
  destruct (insertion_order_from [] ints NoDup_nil_2) as [_ Hin].
  unfold insertion_order. rewrite Hin, elem_of_nil. tauto.
Qed.

(** Each integer of the sequence is inserted once. *)
Lemma insertion_order_perm (ints : list Z) : insertion_order ints ≡ₚ remove_dups ints.
Proof.
  apply NoDup_Permutation; [apply NoDup_insertion_order|apply NoDup_remove_dups|].
  intros z. by rewrite elem_of_insertion_order, elem_of_remove_dups.
Qed.

Section hash_props.
Context {K : Type} (identity : K -> Z) (set_iter : list Z -> list Z).

(** Iterating over a set yields each of its elements once. *)
Hypothesis set_iter_perm : forall l, set_iter l ≡ₚ l.

Implicit Types (keys : list K) (info : HashInfo K) (to_int : option (K -> Z)).

(** The steps of a construction that succeeds. *)
Lemma hash_parameters_inv keys minimize to_int info :
  hash_parameters identity set_iter keys minimize to_int = Ok info ->
  exists items row_queue final_row,
    items = (let items0 :=
               set_iter (insertion_order (default identity to_int <$> keys)) in
             if minimize then set_iter ((fun x => x + info_offset info) <$> items0)
             else items0) /\
    (minimize = false -> info_offset info = 0) /\
    choose_best_t items = Ok (info_t info) /\
    place_items_in_square items (info_t info) = Ok row_queue /\
    arrange_rows row_queue (info_t info) = Ok (final_row, info_r info) /\
    mapM (slot_of (key_to_original_of (default identity to_int) keys) (info_offset info))
      final_row = Ok (info_slots info) /\
    info_to_int info = to_int.
Proof.
  unfold hash_parameters. intros Hrun.
  apply bind_Ok in Hrun as ([offset items] & Hoffset & Hrun).
  apply bind_Ok in Hrun as (t & Ht & Hrun).
  apply bind_Ok in Hrun as (m & _ & Hrun).
  apply bind_Ok in Hrun as (_ & _ & Hrun).
  apply bind_Ok in Hrun as (row_queue & Hplace & Hrun).
  apply bind_Ok in Hrun as ([final_row displacement_vector] & Harrange & Hrun).
  apply bind_Ok in Hrun as (slots & Hslots & Hrun).
  injection Hrun as <-. simpl.
  exists items, row_queue, final_row. split; [|split; [|done]].
  - destruct minimize.
    + apply bind_Ok in Hoffset as (least & _ & Hoffset). by injection Hoffset as <- <-.
    + by injection Hoffset as <- <-.
  - intros ->. by injection Hoffset as <- _.
Qed.

(** The integer of every key, shifted by the offset, is one of the items
    that are placed. *)
Lemma hash_parameters_items keys minimize to_int offset k :
  (minimize = false -> offset = 0) -> k ∈ keys ->
  default identity to_int k + offset ∈
    (let items0 :=
       set_iter (insertion_order (default identity to_int <$> keys)) in
     if minimize then set_iter ((fun x => x + offset) <$> items0) else items0).
Proof.
  intros Hoffset Hk. cbv zeta.
  assert (default identity to_int k ∈
          set_iter (insertion_order (default identity to_int <$> keys)))
    as Hitem.
  { rewrite set_iter_perm. apply elem_of_insertion_order. by apply list_elem_of_fmap_2. }
  destruct minimize.
  - rewrite set_iter_perm. by apply (list_elem_of_fmap_2 (fun x => x + offset)).
  - rewrite Hoffset by done. by rewrite Z.add_0_r.
Qed.

(** The core of the construction: when it succeeds, the state that the Row
    Packer ended in has a cell of its own for the integer of every key. *)
Lemma hash_parameters_cells keys minimize to_int info :
  hash_parameters identity set_iter keys minimize to_int = Ok info ->
  exists st final_row,
    packer_ok (info_t info) st /\
    displacements st = info_r info /\
    trim_nones_from_right (result st) = Ok final_row /\
    mapM (slot_of (key_to_original_of (default identity to_int) keys) (info_offset info))
      final_row = Ok (info_slots info) /\
    info_to_int info = to_int /\
    forall k, k ∈ keys ->
      item_packed (info_t info) st (default identity to_int k + info_offset info).
Proof.
  intros (items & row_queue & final_row & -> & Hoffset & _ & Hplace & Harrange & Hslots &
          Hto_int)%hash_parameters_inv.
  pose proof (fun k => hash_parameters_items keys minimize to_int _ k Hoffset) as Hitems.
  apply place_items_in_square_Ok in Hplace as (Hsquare & Hnd & _).
  apply arrange_rows_Ok in Harrange as (st & Hok & Hdisp & Htrim & Hpacked); [|done].
  exists st, final_row. do 5 (split; [done|]).
  intros k Hk. destruct (Hsquare _ (Hitems _ Hk)) as (Ht & j & row & Hj & Hrow & Hin & Hcell).
  destruct (Hpacked _ Hin) as (j' & d & Hrow' & Hd & Hcells).
  rewrite Hrow in Hrow'. injection Hrow' as <-.
  destruct (Hcells _ _ Hcell) as (Hpos & Hres & _).
  split; [done|]. exists j, d. done.
Qed.

(** The evaluation function on an integer that has its cell: it returns the
    index of that cell. *)
Lemma perfect_hash_packed info st k :
  packer_ok (info_t info) st -> displacements st = info_r info ->
  item_packed (info_t info) st (default identity (info_to_int info) k + info_offset info) ->
  exists i,
    perfect_hash identity info k = Ok i /\ 0 <= i < info_t info ^ 2 /\
    result st !! Z.to_nat i
    = Some (Some (default identity (info_to_int info) k + info_offset info)).
Proof.
  intros (Hres & Hdisp & _) Hr (Ht & j & d & Hj & Hd & Hpos & Hcell).
  unfold perfect_hash, mod_, floordiv. rewrite !decide_False by done. simpl.
  unfold getitem. rewrite <- Hr, Hdisp, Hj, Hd. simpl.
  eexists. split; [done|]. split; [|done].
  apply lookup_lt_Some in Hcell. rewrite Hres in Hcell.
  pose proof (square_nonneg (info_t info)). lia.
Qed.

(** Every key of a successful construction has a cell of the working vector
    that the evaluation function finds. *)
Lemma hash_parameters_key_cell keys minimize to_int info :
  hash_parameters identity set_iter keys minimize to_int = Ok info ->
  exists st final_row,
    trim_nones_from_right (result st) = Ok final_row /\
    mapM (slot_of (key_to_original_of (default identity to_int) keys) (info_offset info))
      final_row = Ok (info_slots info) /\
    forall k, k ∈ keys ->
      exists i, perfect_hash identity info k = Ok i /\ 0 <= i < info_t info ^ 2 /\
        result st !! Z.to_nat i
        = Some (Some (default identity to_int k + info_offset info)).
Proof.
  intros (st & final_row & Hok & Hdisp & Htrim & Hslots & Hto_int & Hcells)
    %hash_parameters_cells.
  exists st, final_row. do 2 (split; [done|]).
  intros k Hk. rewrite <- Hto_int. apply perfect_hash_packed; [done..|].
  rewrite Hto_int. by apply Hcells.
Qed.

(** ** The specified properties of a construction *)

(** C1, amended.  For every key sequence on which construction succeeds with
    a slot vector that is not empty, and on whose keys [to_int] is
    injective, evaluating the built hash function on a key [k] of the
    sequence and indexing the slot vector at the result yields [k]:
    [info.slots[evaluate(info, k)] == k]. *)
Theorem round_trip keys minimize to_int info k :
  hash_parameters identity set_iter keys minimize to_int = Ok info ->
  (forall k1 k2, k1 ∈ keys -> k2 ∈ keys ->
     default identity to_int k1 = default identity to_int k2 -> k1 = k2) ->
  info_slots info ≠ [] ->
  k ∈ keys ->
  exists i, perfect_hash identity info k = Ok i /\ getitem (info_slots info) i = Ok (Some k).
Proof.
  intros (st & final_row & Htrim & Hslots & Hcells)%hash_parameters_key_cell Hinj Hne Hk.
  destruct (Hcells _ Hk) as (i & Heval & Hi & Hcell).
  exists i. split; [done|].
  apply mapM_Ok in Hslots as [Hlen Hslots].
  eapply trim_nones_from_right_lookup in Hcell; [|exact Htrim|].
  2:{ intros ->. by destruct (info_slots info). }
  destruct (Hslots _ _ Hcell) as (slot & Hslot & Horiginal).
  apply getitem_Ok. exists (Z.to_nat i). split.
  - apply norm_index_nonneg. apply lookup_lt_Some in Hslot. lia.
  - rewrite Hslot. f_equal. simpl in Horiginal.
    replace (default identity to_int k + info_offset info - info_offset info)
      with (default identity to_int k) in Horiginal by lia.
    rewrite key_to_original_inj in Horiginal by done. by injection Horiginal.
Qed.

(** C2, amended.  For every key sequence on which construction succeeds,
    the built evaluation function separates the keys that [to_int] separates:
    for all keys [k1], [k2] of the sequence with
    [to_int(k1) ≠ to_int(k2)], [evaluate(info, k1) ≠ evaluate(info, k2)]. *)
Theorem perfect_hash_injective keys minimize to_int info k1 k2 :
  hash_parameters identity set_iter keys minimize to_int = Ok info ->
  k1 ∈ keys -> k2 ∈ keys ->
  default identity to_int k1 ≠ default identity to_int k2 ->
  exists i1 i2,
    perfect_hash identity info k1 = Ok i1 /\ perfect_hash identity info k2 = Ok i2 /\ i1 ≠ i2.
Proof.
  intros (st & final_row & _ & _ & Hcells)%hash_parameters_key_cell Hk1 Hk2 Hne.
  destruct (Hcells _ Hk1) as (i1 & Heval1 & _ & Hcell1).
  destruct (Hcells _ Hk2) as (i2 & Heval2 & _ & Hcell2).
  exists i1, i2. do 2 (split; [done|]).
  intros ->. rewrite Hcell1 in Hcell2. injection Hcell2 as Heq. lia.
Qed.

(** C9, amended.  For every [HashInfo] produced by a successful build and
    every key of the construction sequence, the evaluation function returns
    an integer index, which is an index of the working vector of [t^2]
    cells; it does not fail on these keys. *)
Theorem perfect_hash_on_keys keys minimize to_int info k :
  hash_parameters identity set_iter keys minimize to_int = Ok info ->
  k ∈ keys ->
  exists i, perfect_hash identity info k = Ok i /\ 0 <= i < info_t info ^ 2.
Proof.
  intros (st & final_row & _ & _ & Hcells)%hash_parameters_key_cell Hk.
  destruct (Hcells _ Hk) as (i & Heval & Hi & _). eauto.
Qed.

(** C10.  For every key sequence on which [hash_parameters] succeeds, the
    returned record has [len(r) == t] and [len(slots) <= t*t]. *)
Theorem hash_parameters_sizes keys minimize to_int info :
  hash_parameters identity set_iter keys minimize to_int = Ok info ->
  len (info_r info) = info_t info /\
  len (info_slots info) <= info_t info * info_t info.
Proof.
  intros (items & row_queue & final_row & _ & _ & Ht & Hplace & Harrange & Hslots & _)
    %hash_parameters_inv.
  apply choose_best_t_nonneg in Ht.
  apply place_items_in_square_Ok in Hplace as (_ & Hnd & _).
  apply arrange_rows_Ok in Harrange as (st & (Hres & Hdisp & _) & <- & Htrim & _); [|done].
  apply trim_nones_from_right_length in Htrim.
  apply mapM_Ok in Hslots as [Hlen _].
  pose proof (square_nonneg (info_t info)) as Hsq. rewrite Z.pow_2_r in *.
  unfold len. split; lia.
Qed.

(** C8, amended.  Construction fails, with [ValueError], when the input key
    sequence is empty.  It does not fail because [to_int] is not injective
    over the keys: a key whose integer is also that of a later, different
    key is dropped.  It gets no slot, and construction returns what it
    returns on the sequence without that key whenever the dict of the
    integers iterates in the same order for the two sequences.  The outcome
    is either a [HashInfo] or an exception, never a partial result. *)
Theorem hash_parameters_invalid_key_set minimize to_int :
  hash_parameters identity set_iter [] minimize to_int = Raise ValueError /\
  forall before k after,
    default identity to_int k ∈ default identity to_int <$> after ->
    (k ∉ after -> forall info,
       hash_parameters identity set_iter (before ++ k :: after) minimize to_int = Ok info ->
       Some k ∉ info_slots info) /\
    (set_iter (insertion_order (default identity to_int <$> (before ++ k :: after)))
     = set_iter (insertion_order (default identity to_int <$> (before ++ after))) ->
     hash_parameters identity set_iter (before ++ k :: after) minimize to_int
     = hash_parameters identity set_iter (before ++ after) minimize to_int).
Proof.
  split.
  - unfold hash_parameters, insertion_order. simpl.
    pose proof (set_iter_perm []) as ->%Permutation_nil_r.
    by destruct minimize.
  - intros before k after Hlater. split.
    + intros Hk info
        (items & row_queue & final_row & _ & _ & _ & _ & _ & Hslots & _)%hash_parameters_inv
        [n Hn]%list_elem_of_lookup.
      destruct (mapM_Ok_inv _ _ _ _ _ Hslots Hn) as ([item|] & _ & Hslot); [|discriminate].
      simpl in Hslot.
      destruct (key_to_original_of (default identity to_int) (before ++ k :: after)
                  !! (item - info_offset info)) as [original|] eqn:Hlookup; [|discriminate].
      injection Hslot as ->.
      pose proof Hlookup as [_ Hitem]%key_to_original_lookup.
      unfold key_to_original_of in Hlookup. rewrite foldl_app in Hlookup.
      cbn [foldl] in Hlookup.
      apply key_to_original_last in Hlookup; [done|]. by rewrite <- Hitem.
    + intros Horder. unfold hash_parameters. cbv zeta. rewrite Horder.
      replace (key_to_original_of (default identity to_int) (before ++ k :: after))
        with (key_to_original_of (default identity to_int) (before ++ after)); [done|].
      unfold key_to_original_of. rewrite !foldl_app. cbn [foldl].
      by rewrite key_to_original_shadowed.
Qed.

End hash_props.

(** ** The specified properties of the components *)

(** C6.  When the Row Packer places a popped row with its chosen
    displacement [d], every item [(x, item)] of the row is stored in the
    output vector at index [(x + d) mod (t*t)], and exactly those columns
    are taken out of the free columns. *)
Theorem pack_row_places (t : Z) (st st' : packer) (inverse_length y : Z)
    (row : list (Z * Z)) :
  packer_ok t st ->
  pack_row (t ^ 2) st (inverse_length, y, row) = Ok st' ->
  exists d,
    find_first_fit (unoccupied_columns st) row (t ^ 2) = Ok d /\
    getitem (displacements st') y = Ok (Some d) /\
    (forall x item, (x, item) ∈ row ->
       getitem (result st') ((x + d) mod (t ^ 2)) = Ok (Some item)) /\
    (forall c, c ∈ unoccupied_columns st' <->
       c ∈ unoccupied_columns st /\
       forall x item, (x, item) ∈ row -> c ≠ (x + d) mod (t ^ 2)).
Proof.
  intros (Hres & Hdisp & Hun) Hrun.
  pose proof Hrun as (d & Hfit & Hset & Hfold)%pack_row_Ok.
  pose proof (square_nonneg t) as Hsq.
  apply setitem_Ok in Hset as (j & Hj & Hset).
  eapply place_item_fold in Hfold as (Hres' & Hun' & _ & Hplaced);
    [|exact Hres|intros c Hc; rewrite Z2Nat.id by done; by apply Hun].
  assert (forall x item, (x, item) ∈ row -> (x + d) mod (t ^ 2) = x + d) as Hmod.
  { intros x item [Hfree _]%Hplaced. apply Z.mod_small. by apply Hun. }
  exists d. split; [done|]. split; [|split].
  - apply getitem_Ok. exists j. rewrite Hset, length_insert. split; [done|].
    apply list_lookup_insert_eq. by eapply norm_index_lt.
  - intros x item Hin. rewrite (Hmod _ _ Hin).
    destruct (Hplaced _ _ Hin) as [Hfree%Hun Hcell].
    apply getitem_Ok. exists (Z.to_nat (x + d)). split; [|done].
    apply norm_index_nonneg. lia.
  - intros c. rewrite Hun'. split; intros [Hc Hrow]; (split; [done|]);
      intros x item Hin; [rewrite (Hmod _ _ Hin)|rewrite <- (Hmod _ _ Hin)];
      by eapply Hrow.
Qed.

(** C7, amended.  For every non-empty set of shifted integer keys whose
    maximum is between [0] and [2^52], the Table-Size Chooser returns the
    smallest natural number [t] such that [t*t >= max(key)], except that
    when that minimal [t] satisfies [t*t < |keys|] it returns [|keys|]
    instead.  When the maximum is negative it fails: [math.sqrt] raises
    [ValueError]. *)
Theorem choose_best_t_spec (items : list Z) :
  items ≠ [] ->
  exists m,
    max_ items = Ok m /\ m ∈ items /\ (forall x, x ∈ items -> x <= m) /\
    (- 2 ^ 1023 < m < 0 -> choose_best_t items = Raise ValueError) /\
    (0 <= m <= 2 ^ 52 ->
     exists s,
       0 <= s /\ m <= s * s /\ (forall s', 0 <= s' -> m <= s' * s' -> s <= s') /\
       choose_best_t items = Ok (if decide (s * s < len items) then len items else s)).
Proof.
  intros Hne. destruct (max_ items) as [m|e] eqn:Hmax.
  2:{ by destruct items. }
  exists m. pose proof (max__Ok _ _ Hmax) as [Hin Hle].
  do 3 (split; [done|]). unfold choose_best_t. rewrite Hmax. cbn [mbind res_bind]. split.
  - intros [Hlow Hneg].
    destruct (ceil_sqrt_negative m Hneg) as (e & -> & [->|[_ Hbig]]); [done|lia].
  - intros Hpos. rewrite ceil_sqrt_exact by done.
    destruct (exact_ceil_sqrt_spec m ltac:(lia)) as (Hs0 & Hreach & Hleast).
    exists (exact_ceil_sqrt m). do 3 (split; [done|]). cbn [mbind res_bind].
    rewrite Z.pow_2_r. by case_decide.
Qed.

(** C3, the defect.  [trim_nones_from_right] returns the empty list for
    every vector whose last cell is assigned: the scan stops at [i = 0] and
    [xs[:-0]] is [xs[:0]].  So the build on the keys [0, 1, 2, 3], whose
    working vector is full, returns no slot at all. *)
Theorem trim_nones_from_right_assigned_last :
  (forall (xs : list (option Z)) (x : Z),
     trim_nones_from_right (xs ++ [Some x]) = Ok []) /\
  hash_parameters id ascending [0; 1; 2; 3] true None
  = Ok {| info_t := 2; info_slots := []; info_r := [Some 0; Some 2];
          info_offset := 0; info_to_int := None |}.
Proof.
  split; [|vm_compute; reflexivity].
  intros xs x. unfold trim_nones_from_right. rewrite reverse_snoc. reflexivity.
Qed.

(** C4, the defect.  On the shifted keys [0, 4] the Table-Size Chooser
    returns [t = 2], with [t*t >= max]; the key [4] falls in row
    [y = 4 // 2 = 2], which is not one of the [t] rows, and the Grid Placer
    raises [IndexError]. *)
Theorem place_items_in_square_row_out_of_range :
  choose_best_t [0; 4] = Ok 2 /\
  floordiv 4 2 = Ok 2 /\
  place_items_in_square [0; 4] 2 = Raise IndexError /\
  hash_parameters id ascending [0; 4] true None = Raise IndexError.
Proof. repeat split; vm_compute; reflexivity. Qed.

(** C5, the defect.  On the keys [0, 8, 9, 16, 17, 24, 40, 41, 48, 56]
    ([t = 8]) the queue that [place_items_in_square] returns is the heap
    with the empty rows filtered out, which is not a heap any more: the
    loop of [arrange_rows] pops row 0, of one item, before row 5, of two
    items.  Entries are shown as [(t - |row|, y)]. *)
Theorem pop_order_not_decreasing :
  choose_best_t [0; 8; 9; 16; 17; 24; 40; 41; 48; 56] = Ok 8 /\
  (place_items_in_square [0; 8; 9; 16; 17; 24; 40; 41; 48; 56] 8 ≫= fun row_queue =>
     Ok ((fun row : row_entry => (row.1.1, row.1.2)) <$> pop_order row_queue))
  = Ok [(6, 1); (6, 2); (7, 0); (6, 5); (7, 3); (7, 6); (7, 7)].
Proof. split; vm_compute; reflexivity. Qed.

(** ** The properties at concrete keys *)

Lemma ascending_perm (l : list Z) : ascending l ≡ₚ l.
Proof. apply merge_sort_Permutation. Qed.

Lemma round_trip_witness :
  exists i,
    perfect_hash id
      {| info_t := 3; info_slots := [Some 1; Some 5; Some 7];
         info_r := [Some 0; Some 0; Some 2]; info_offset := -1;
         info_to_int := None |} 5 = Ok i /\
    getitem [Some 1; Some 5; Some 7] i = Ok (Some 5).
Proof.
  apply (round_trip id ascending ascending_perm [1; 5; 7] true None).
  - vm_compute; reflexivity.
  - intros k1 k2 _ _ Heq. exact Heq.
  - discriminate.
  - apply (bool_decide_unpack _). vm_compute. exact I.
Defined.

Lemma round_trip_counterexample :
  exists info,
    hash_parameters id ascending [2; -2; 5] true (Some Z.abs) = Ok info /\
    2 ∈ [2; -2; 5] /\
    perfect_hash id info 2 = Ok 0 /\
    getitem (info_slots info) 0 = Ok (Some (-2)) /\
    Some (-2) ≠ Some 2.
Proof.
  eexists. split; [vm_compute; reflexivity|].
  split; [by left|]. split; [vm_compute; reflexivity|].
  split; [vm_compute; reflexivity|discriminate].
Qed.

Lemma perfect_hash_injective_witness :
  exists i1 i2,
    perfect_hash id
      {| info_t := 3; info_slots := [Some 1; Some 5; Some 7];
         info_r := [Some 0; Some 0; Some 2]; info_offset := -1;
         info_to_int := None |} 1 = Ok i1 /\
    perfect_hash id
      {| info_t := 3; info_slots := [Some 1; Some 5; Some 7];
         info_r := [Some 0; Some 0; Some 2]; info_offset := -1;
         info_to_int := None |} 7 = Ok i2 /\
    i1 ≠ i2.
Proof.
  apply (perfect_hash_injective id ascending ascending_perm [1; 5; 7] true None).
  - vm_compute; reflexivity.
  - apply (bool_decide_unpack _). vm_compute. exact I.
  - apply (bool_decide_unpack _). vm_compute. exact I.
  - simpl. lia.
Defined.

Lemma perfect_hash_injective_counterexample :
  exists info,
    hash_parameters id ascending [2; -2; 5] true (Some Z.abs) = Ok info /\
    2 ∈ [2; -2; 5] /\ -2 ∈ [2; -2; 5] /\ 2 ≠ -2 /\
    perfect_hash id info 2 = Ok 0 /\
    perfect_hash id info (-2) = Ok 0.
Proof.
  eexists. split; [vm_compute; reflexivity|].
  split; [by left|]. split; [right; by left|]. split; [discriminate|].
  split; vm_compute; reflexivity.
Qed.

Lemma perfect_hash_on_keys_witness :
  exists i,
    perfect_hash id
      {| info_t := 3; info_slots := [Some 1; Some 5; Some 7];
         info_r := [Some (-1); Some (-1); Some 1]; info_offset := 0;
         info_to_int := None |} 7 = Ok i /\
    0 <= i < 3 ^ 2.
Proof.
  apply (perfect_hash_on_keys id ascending ascending_perm [1; 5; 7] false None).
  - vm_compute; reflexivity.
  - apply (bool_decide_unpack _). vm_compute. exact I.
Defined.

Lemma perfect_hash_counterexample :
  exists info info',
    hash_parameters id ascending [1; 5; 7] true None = Ok info /\
    perfect_hash id info 100 = Raise IndexError /\
    hash_parameters id ascending [43; 45; 60; 62; 91; 93; 46; 44] true None = Ok info' /\
    perfect_hash id info' 51 = Raise TypeError.
Proof.
  do 2 eexists.
  split; [vm_compute; reflexivity|]. split; [vm_compute; reflexivity|].
  split; [vm_compute; reflexivity|]. vm_compute; reflexivity.
Qed.

Lemma hash_parameters_sizes_witness :
  len [Some 0; Some 0; Some 2] = 3 /\
  len [Some 1; Some 5; Some 7] <= 3 * 3.
Proof.
  apply (hash_parameters_sizes id ascending [1; 5; 7] true None
           {| info_t := 3; info_slots := [Some 1; Some 5; Some 7];
              info_r := [Some 0; Some 0; Some 2]; info_offset := -1;
              info_to_int := None |}).
  vm_compute; reflexivity.
Defined.

Lemma hash_parameters_invalid_key_set_witness :
  hash_parameters id ascending [] true (Some Z.abs) = Raise ValueError /\
  (Some 2 ∉ [Some (-2); Some 5]) /\
  hash_parameters id ascending [2; -2; 5] true (Some Z.abs)
  = hash_parameters id ascending [-2; 5] true (Some Z.abs).
Proof.
  destruct (hash_parameters_invalid_key_set id ascending ascending_perm true (Some Z.abs))
    as [Hempty Hshadow].
  split; [exact Hempty|].
  destruct (Hshadow [] 2 [-2; 5]) as [Hslot Hsame].
  { apply (bool_decide_unpack _). vm_compute. exact I. }
  split.
  - apply (Hslot ltac:(apply (bool_decide_unpack _); vm_compute; exact I)
             {| info_t := 2; info_slots := [Some (-2); Some 5];
                info_r := [Some 0; Some 0]; info_offset := -2;
                info_to_int := Some Z.abs |}).
    vm_compute; reflexivity.
  - apply Hsame. vm_compute; reflexivity.
Defined.

Lemma hash_parameters_invalid_key_set_counterexample :
  Z.abs 2 = Z.abs (-2) /\ 2 ≠ -2 /\ 2 ∈ [2; -2; 5] /\ -2 ∈ [2; -2; 5] /\
  hash_parameters id ascending [2; -2; 5] true (Some Z.abs)
  = Ok {| info_t := 2; info_slots := [Some (-2); Some 5];
          info_r := [Some 0; Some 0]; info_offset := -2;
          info_to_int := Some Z.abs |}.
Proof.
  split; [reflexivity|]. split; [discriminate|].
  split; [by left|]. split; [right; by left|]. vm_compute; reflexivity.
Qed.

Lemma choose_best_t_spec_witness :
  exists m,
    max_ [1; 5; 7] = Ok m /\ m ∈ [1; 5; 7] /\ (forall x, x ∈ [1; 5; 7] -> x <= m) /\
    (- 2 ^ 1023 < m < 0 -> choose_best_t [1; 5; 7] = Raise ValueError) /\
    (0 <= m <= 2 ^ 52 ->
     exists s,
       0 <= s /\ m <= s * s /\ (forall s', 0 <= s' -> m <= s' * s' -> s <= s') /\
       choose_best_t [1; 5; 7]
       = Ok (if decide (s * s < len [1; 5; 7]) then len [1; 5; 7] else s)).
Proof. apply (choose_best_t_spec [1; 5; 7]). discriminate. Defined.

(** Beyond [2^52] the square root in double precision can fall short of the
    largest key: the root of [2^52 + 1] rounds to [2^26], and the assertion
    of [hash_parameters] fails.  Beyond the doubles [math.sqrt] raises
    [OverflowError]. *)
Example choose_best_t_double_precision :
  choose_best_t [2 ^ 52 + 1] = Ok (2 ^ 26) /\
  2 ^ 26 * 2 ^ 26 < 2 ^ 52 + 1 /\
  hash_parameters id ascending [0; 2 ^ 52 + 1] true None = Raise AssertionError /\
  choose_best_t [10 ^ 400] = Raise OverflowError.
Proof. repeat split; vm_compute; reflexivity. Qed.

Lemma choose_best_t_counterexample :
  [-1] ≠ [] /\ choose_best_t [-1] = Raise ValueError /\
  hash_parameters id ascending [-1] false None = Raise ValueError.
Proof. split; [discriminate|]. split; vm_compute; reflexivity. Qed.

Lemma pack_row_places_witness :
  exists d,
    find_first_fit [2; 3; 4; 5; 6; 7; 8; 9; 10; 11; 12; 13; 14; 15] [(1, 7)] (4 ^ 2) = Ok d /\
    getitem [None; Some 0; None; Some 1] 3 = Ok (Some d) /\
    (forall x item, (x, item) ∈ [(1, 7)] ->
       getitem ([Some 1; Some 5; Some 7] ++ replicate 13 None) ((x + d) mod (4 ^ 2))
       = Ok (Some item)) /\
    (forall c, c ∈ [3; 4; 5; 6; 7; 8; 9; 10; 11; 12; 13; 14; 15] <->
       c ∈ [2; 3; 4; 5; 6; 7; 8; 9; 10; 11; 12; 13; 14; 15] /\
       forall x item, (x, item) ∈ [(1, 7)] -> c ≠ (x + d) mod (4 ^ 2)).
Proof.
  apply (pack_row_places 4
           {| unoccupied_columns := [2; 3; 4; 5; 6; 7; 8; 9; 10; 11; 12; 13; 14; 15];
              result := [Some 1; Some 5] ++ replicate 14 None;
              displacements := [None; Some 0; None; None] |}
           {| unoccupied_columns := [3; 4; 5; 6; 7; 8; 9; 10; 11; 12; 13; 14; 15];
              result := [Some 1; Some 5; Some 7] ++ replicate 13 None;
              displacements := [None; Some 0; None; Some 1] |}
           3 3 [(1, 7)]).
  - split; [reflexivity|]. split; [reflexivity|]. simpl.
    intros c Hc.
    repeat (apply elem_of_cons in Hc as [->|Hc]; [lia|]). by apply elem_of_nil in Hc.
  - vm_compute; reflexivity.
Defined.

(** * Further properties *)

(** ** The dictionary of [make_dict] *)

Section dict_props.
Context {K V : Type} `{EqDecision K} (identity : K -> Z) (params : HashInfo K).
Implicit Types (_arr : list (option (K * V))) (key : K) (value : V).

Lemma index_or_key_error_Ok key index :
  index_or_key_error identity params key = Ok index <->
  perfect_hash identity params key = Ok index /\
  getitem (info_slots params) index = Ok (Some key).
Proof.
  unfold index_or_key_error. split.
  - intros Hrun. apply bind_Ok in Hrun as (i & Hhash & Hrun).
    apply bind_Ok in Hrun as (slot & Hslot & Hrun).
    case_bool_decide as Hne; [discriminate|]. injection Hrun as <-.
    by subst slot.
  - intros [-> Hslot]. simpl. rewrite Hslot. simpl.
    by rewrite bool_decide_eq_false_2 by (intros Hne; by apply Hne).
Qed.

(** The position of the array that an accepted key designates holds that
    key in the slot vector. *)
Lemma index_or_key_error_slot _arr key index :
  length _arr = length (info_slots params) ->
  index_or_key_error identity params key = Ok index ->
  exists n, norm_index (length _arr) index = Some n /\
    info_slots params !! n = Some (Some key).
Proof.
  intros Hlen [_ (n & Hn & Hslot)%getitem_Ok]%index_or_key_error_Ok.
  exists n. by rewrite Hlen.
Qed.

Lemma dict_setitem_Ok _arr key value _arr' :
  dict_setitem identity params _arr key value = Ok _arr' <->
  exists index n,
    index_or_key_error identity params key = Ok index /\
    norm_index (length _arr) index = Some n /\
    _arr' = <[n := Some (key, value)]> _arr.
Proof.
  unfold dict_setitem. split.
  - intros Hrun. apply bind_Ok in Hrun as (index & Hindex & Hset).
    apply setitem_Ok in Hset as (n & Hn & ->). eauto.
  - intros (index & n & -> & Hn & ->). simpl. apply setitem_Ok. eauto.
Qed.

Lemma dict_getitem_Ok _arr key value :
  dict_getitem identity params _arr key = Ok value <->
  exists index n key',
    index_or_key_error identity params key = Ok index /\
    norm_index (length _arr) index = Some n /\
    _arr !! n = Some (Some (key', value)).
Proof.
  unfold dict_getitem. split.
  - intros Hrun. apply bind_Ok in Hrun as (index & Hindex & Hrun).
    apply bind_Ok in Hrun as (entry & (n & Hn & Hentry)%getitem_Ok & Hrun).
    destruct entry as [[key' value']|]; [|discriminate]. injection Hrun as <-.
    eauto 10.
  - intros (index & n & key' & -> & Hn & Hentry). simpl.
    unfold getitem. by rewrite Hn, Hentry.
Qed.

Lemma dict_delitem_Ok _arr key _arr' :
  dict_delitem identity params _arr key = Ok _arr' <->
  exists index n entry,
    index_or_key_error identity params key = Ok index /\
    norm_index (length _arr) index = Some n /\
    _arr !! n = Some (Some entry) /\
    _arr' = <[n := None]> _arr.
Proof.
  unfold dict_delitem. split.
  - intros Hrun. apply bind_Ok in Hrun as (index & Hindex & Hrun).
    apply bind_Ok in Hrun as (entry & (n & Hn & Hentry)%getitem_Ok & Hrun).
    destruct entry as [entry|]; [|discriminate].
    apply setitem_Ok in Hrun as (n' & Hn' & ->).
    rewrite Hn in Hn'. injection Hn' as <-. eauto 10.
  - intros (index & n & entry & -> & Hn & Hentry & ->). simpl.
    unfold getitem. rewrite Hn, Hentry. simpl. apply setitem_Ok. eauto.
Qed.

(** X1.  [d[key] = value] followed by [d[key]] returns [value]. *)
Theorem dict_setitem_getitem _arr key value _arr' :
  dict_setitem identity params _arr key value = Ok _arr' ->
  dict_getitem identity params _arr' key = Ok value.
Proof.
  intros (index & n & Hindex & Hn & ->)%dict_setitem_Ok.
  apply dict_getitem_Ok. exists index, n, key.
  rewrite length_insert. do 2 (split; [done|]).
  apply list_lookup_insert_eq. by eapply norm_index_lt.
Qed.

(** X2.  [d[key] = value] leaves the lookup of every other key as it was,
    its value or its exception. *)
Theorem dict_setitem_getitem_other _arr key value _arr' other :
  length _arr = length (info_slots params) ->
  dict_setitem identity params _arr key value = Ok _arr' ->
  other ≠ key ->
  dict_getitem identity params _arr' other = dict_getitem identity params _arr other.
Proof.
  intros Hlen (index & n & Hindex & Hn & ->)%dict_setitem_Ok Hne.
  unfold dict_getitem.
  destruct (index_or_key_error identity params other) as [index'|e] eqn:Hother;
    [simpl|done].
  destruct (index_or_key_error_slot _ _ _ Hlen Hindex) as (n1 & Hn1 & Hslot).
  destruct (index_or_key_error_slot _ _ _ Hlen Hother) as (n2 & Hn2 & Hslot').
  unfold getitem. rewrite length_insert, Hn2.
  rewrite list_lookup_insert_ne; [done|].
  intros <-. rewrite Hn in Hn1. injection Hn1 as <-. congruence.
Qed.

(** X3.  [del d[key]] is possible exactly when [d[key]] can be read, and
    fails with the same exception when it cannot; after it, [d[key]] raises
    [KeyError]. *)
Theorem dict_delitem_getitem _arr key :
  match dict_delitem identity params _arr key with
  | Ok _arr' =>
      is_Ok (dict_getitem identity params _arr key) /\
      dict_getitem identity params _arr' key = Raise KeyError
  | Raise e => dict_getitem identity params _arr key = Raise e
  end.
Proof.
  destruct (dict_delitem identity params _arr key) as [_arr'|e] eqn:Hdel.
  - apply dict_delitem_Ok in Hdel as (index & n & [key' value] & Hindex & Hn & Hentry & ->).
    split.
    + exists value. apply dict_getitem_Ok. eauto 10.
    + unfold dict_getitem, getitem. rewrite Hindex. simpl.
      rewrite length_insert, Hn, list_lookup_insert_eq by (by eapply norm_index_lt).
      done.
  - unfold dict_delitem, dict_getitem in *.
    destruct (index_or_key_error identity params key) as [index|e']; simpl in *;
      [|by injection Hdel as ->].
    destruct (getitem _arr index) as [[entry|]|e'] eqn:Hentry; simpl in *;
      [|by injection Hdel as ->..].
    apply getitem_Ok in Hentry as (n & Hn & _). unfold setitem in Hdel.
    by rewrite Hn in Hdel.
Qed.

(** X4.  [del d[key]] leaves the lookup of every other key as it was. *)
Theorem dict_delitem_getitem_other _arr key _arr' other :
  length _arr = length (info_slots params) ->
  dict_delitem identity params _arr key = Ok _arr' ->
  other ≠ key ->
  dict_getitem identity params _arr' other = dict_getitem identity params _arr other.
Proof.
  intros Hlen (index & n & entry & Hindex & Hn & _ & ->)%dict_delitem_Ok Hne.
  unfold dict_getitem.
  destruct (index_or_key_error identity params other) as [index'|e] eqn:Hother;
    [simpl|done].
  destruct (index_or_key_error_slot _ _ _ Hlen Hindex) as (n1 & Hn1 & Hslot).
  destruct (index_or_key_error_slot _ _ _ Hlen Hother) as (n2 & Hn2 & Hslot').
  unfold getitem. rewrite length_insert, Hn2.
  rewrite list_lookup_insert_ne; [done|].
  intros <-. rewrite Hn in Hn1. injection Hn1 as <-. congruence.
Qed.

(** The array of a dictionary stays well formed. *)
Lemma dict_wf_empty : dict_wf identity params (dict_empty params : list (option (K * V))).
Proof.
  split; [apply length_replicate|].
  intros n key value [Hentry _]%lookup_replicate. discriminate.
Qed.

Lemma dict_wf_setitem _arr key value _arr' :
  dict_wf identity params _arr ->
  dict_setitem identity params _arr key value = Ok _arr' ->
  dict_wf identity params _arr'.
Proof.
  intros [Hlen Hwf] (index & n & Hindex & Hn & ->)%dict_setitem_Ok.
  split; [by rewrite length_insert|]. rewrite length_insert.
  intros n' key' value' Hentry. destruct (decide (n = n')) as [<-|Hne].
  - rewrite list_lookup_insert_eq in Hentry by (by eapply norm_index_lt).
    injection Hentry as <- <-. eauto.
  - rewrite list_lookup_insert_ne in Hentry by done. eauto.
Qed.

Lemma dict_wf_delitem _arr key _arr' :
  dict_wf identity params _arr ->
  dict_delitem identity params _arr key = Ok _arr' ->
  dict_wf identity params _arr'.
Proof.
  intros [Hlen Hwf] (index & n & entry & Hindex & Hn & _ & ->)%dict_delitem_Ok.
  split; [by rewrite length_insert|]. rewrite length_insert.
  intros n' key' value' Hentry. destruct (decide (n = n')) as [<-|Hne].
  - rewrite list_lookup_insert_eq in Hentry by (by eapply norm_index_lt). discriminate.
  - rewrite list_lookup_insert_ne in Hentry by done. eauto.
Qed.

Lemma dict_wf_init pairs _arr :
  dict_init identity params pairs = Ok _arr -> dict_wf identity params _arr.
Proof.
  unfold dict_init.
  apply (foldM_invariant (dict_wf identity params)); [|apply dict_wf_empty].
  intros s [key value] s' _ Hs Hset. by eapply dict_wf_setitem.
Qed.

Lemma elem_of_dict_iter _arr key :
  key ∈ dict_iter _arr <-> exists n value, _arr !! n = Some (Some (key, value)).
Proof.
  unfold dict_iter. rewrite list_elem_of_omap. split.
  - intros ([[key' value]|] & Hin & Hkey); simplify_eq/=.
    apply list_elem_of_lookup in Hin as [n Hn]. eauto.
  - intros (n & value & Hn). exists (Some (key, value)). split; [|done].
    by eapply list_elem_of_lookup_2.
Qed.

(** X5.  Iterating over a dictionary yields exactly the keys that can be
    read in it. *)
Theorem dict_iter_getitem _arr key :
  dict_wf identity params _arr ->
  key ∈ dict_iter _arr <-> is_Ok (dict_getitem identity params _arr key).
Proof.
  intros [Hlen Hwf]. rewrite elem_of_dict_iter. split.
  - intros (n & value & Hentry). destruct (Hwf _ _ _ Hentry) as (index & Hindex & Hn).
    exists value. apply dict_getitem_Ok. eauto 10.
  - intros (value & (index & n & key' & Hindex & Hn & Hentry)%dict_getitem_Ok).
    exists n, value. destruct (Hwf _ _ _ Hentry) as (index' & Hindex' & Hn').
    destruct (index_or_key_error_slot _ _ _ Hlen Hindex) as (n1 & Hn1 & Hslot).
    destruct (index_or_key_error_slot _ _ _ Hlen Hindex') as (n2 & Hn2 & Hslot').
    assert (key' = key) as -> by congruence. done.
Qed.

End dict_props.

(** The doctest of [make_dict]: the dictionary over ['+-<>[],.'] with
    [to_int=ord], built from [('+', 1), ('-', 2)]; then [d[','] = 3],
    [del d['+']], [del d['.']] (which raises [KeyError]) and [len(d)]. *)
Example doctest_make_dict :
  (MyDict ← make_dict (fun _ => 0) ascending
             ["+"; "-"; "<"; ">"; "["; "]"; ","; "."]%char true (Some ord);
   d ← cls_init MyDict [("+"%char, 1); ("-"%char, 2)];
   d ← cls_setitem MyDict d ","%char 3;
   let shown := omap id d in
   d ← cls_delitem MyDict d "+"%char;
   Ok (shown, cls_delitem MyDict d "."%char, cls_len MyDict d))
  = Ok ([("+"%char, 1); (","%char, 3); ("-"%char, 2)], Raise KeyError, 2).
Proof. vm_compute; reflexivity. Qed.

(** ** The Grid Placer and the Row Packer put nothing else *)

Section sound.
Variable t : Z.

Lemma place_item_in_square_sound (items : list Z) rows item rows' :
  item ∈ items ->
  rows_wf t rows /\ Forall (row_sound t items) rows ->
  place_item_in_square t rows item = Ok rows' ->
  rows_wf t rows' /\ Forall (row_sound t items) rows'.
Proof.
  intros Hitem [Hwf Hsound] Hstep.
  split; [by eapply place_item_in_square_each|].
  apply place_item_in_square_Ok in Hstep as (Ht & k & inv & y & rc & Hk & Hrow & ->).
  destruct Hwf as [Hlen Hwf]. rewrite Hlen in Hk.
  apply Forall_insert; [done|].
  intros x item' Hcell. simpl in Hcell. rewrite heappush_perm in Hcell.
  unfold row_index; simpl.
  apply elem_of_cons in Hcell as [[= -> ->]|Hcell]; [done|].
  destruct (Forall_lookup_1 _ _ _ _ Hsound Hrow _ _ Hcell) as (Hin & Hx & Hy).
  do 2 (split; [done|]). rewrite Hy, Hk. by apply Hwf.
Qed.

(** What the Grid Placer queues: rows that are not empty, keyed by
    [t - |row|], whose cells are items, each with its [x] and in the row of
    its [y]. *)
Lemma place_items_in_square_sound (items : list Z) row_queue :
  place_items_in_square items t = Ok row_queue ->
  forall row, row ∈ row_queue ->
    row.2 ≠ [] /\ row.1.1 = t - len row.2 /\ row_sound t items row.
Proof.
  unfold place_items_in_square. intros Hrun.
  apply bind_Ok in Hrun as (rows & Hloop & Hrun).
  apply bind_Ok in Hrun as (_ & Hassert%py_assert_Ok & Hrun). injection Hrun as <-.
  eapply (foldM_invariant (fun rows => rows_wf t rows /\ Forall (row_sound t items) rows))
    in Hloop as [_ Hsound].
  2:{ intros s a s' Ha. by apply place_item_in_square_sound. }
  2:{ split; [apply rows_wf_init|]. apply Forall_forall.
      intros row (y & -> & _)%list_elem_of_fmap x item Hcell. by apply elem_of_nil in Hcell. }
  intros row [Hne Hrow]%list_elem_of_filter. rewrite heapify_perm in Hrow.
  split; [done|]. split; [|by eapply Forall_forall in Hsound].
  apply Is_true_true_2, forallb_True in Hassert.
  eapply Forall_forall in Hassert; [|exact Hrow].
  destruct row as [[inv_len y] row]. simpl. by apply bool_decide_unpack in Hassert.
Qed.

(** The [for x, item in row] loop writes nothing but the items of the row,
    each at [x + offset]. *)
Lemma place_item_fold_written (offset : Z) (row : list (Z * Z)) (N : nat) :
  forall res un res' un',
  foldM (place_item offset) (res, un) row = Ok (res', un') ->
  length res = N -> (forall c, c ∈ un -> 0 <= c < Z.of_nat N) ->
  forall k : nat,
    res' !! k = res !! k \/
    exists x item, (x, item) ∈ row /\ Z.of_nat k = x + offset /\
      res' !! k = Some (Some item).
Proof.
  intros res un res' un' Hrun Hlen Hun k.
  assert ((exists x item, (x, item) ∈ row /\ Z.of_nat k = x + offset) \/
          ~ (exists x item, (x, item) ∈ row /\ Z.of_nat k = x + offset))
    as [(x & item & Hin & Hk)|Hno].
  { destruct (decide (Exists (fun cell : Z * Z => Z.of_nat k = cell.1 + offset) row))
      as [([x item] & Hin & Hk)%Exists_exists|Hno]; [left; eauto|right].
    intros (x & item & Hin & Hk). apply Hno, Exists_exists. by exists (x, item). }
  - right. exists x, item. do 2 (split; [done|]).
    eapply place_item_fold in Hrun as (_ & _ & _ & Hplaced); [|done..].
    destruct (Hplaced _ _ Hin) as [_ Hcell]. by rewrite <- Hk, Nat2Z.id in Hcell.
  - left. revert res un Hrun Hlen Hun.
    induction row as [|[x item] row IH]; intros res un Hrun Hlen Hun; simpl in Hrun.
    + by inv_res.
    + apply bind_Ok in Hrun as ([res1 un1] & Hstep & Hrun).
      apply bind_Ok in Hstep as (res1' & Hset & Hstep).
      apply bind_Ok in Hstep as (un1' & Hdel & Hstep). injection Hstep as -> ->.
      apply delitem_Ok in Hdel as [Hfree ->]. pose proof (Hun _ Hfree) as Hrange.
      apply setitem_Ok in Hset as (n & Hn & ->).
      rewrite Hlen, norm_index_nonneg in Hn by done. injection Hn as <-.
      rewrite (IH ltac:(intros (x' & item' & Hin & Hk); apply Hno; exists x', item';
                          split; [by right|done]) _ _ Hrun).
      * apply list_lookup_insert_ne. intros <-. apply Hno. exists x, item.
        split; [by left|]. lia.
      * by rewrite length_insert.
      * intros c [_ Hc]%list_elem_of_filter. by apply Hun.
Qed.

Lemma pack_row_sound (rows : list row_entry) (st st' : packer) (row : row_entry) :
  Forall (fun other => row_index t other ≠ row_index t row) rows ->
  packer_ok t st -> result_sound t rows st ->
  pack_row (t ^ 2) st row = Ok st' ->
  result_sound t (rows ++ [row]) st'.
Proof.
  destruct row as [[inverse_length y] row].
  intros Hdistinct (Hres & Hdisp & Hun) Hsound (d & _ & Hset & Hfold)%pack_row_Ok.
  pose proof (square_nonneg t) as Hsq.
  apply setitem_Ok in Hset as (j & Hj & Hset). rewrite Hdisp in Hj.
  intros c item Hc.
  destruct (place_item_fold_written _ _ _ _ _ _ _ Hfold Hres
              ltac:(intros c' Hc'; rewrite Z2Nat.id by done; by apply Hun) c)
    as [Hsame|(x & item' & Hin & Hk & Hcell)].
  - rewrite Hsame in Hc. destruct (Hsound _ _ Hc) as (other & j' & d' & x & Hother & Hj' & Hd' & Hin & Hk).
    exists other, j', d', x. split; [apply elem_of_app; by left|]. split; [done|].
    split; [|done]. rewrite Hset, list_lookup_insert_ne; [done|].
    intros ->. eapply Forall_forall in Hdistinct; [|exact Hother].
    apply Hdistinct. by rewrite Hj'.
  - rewrite Hcell in Hc. injection Hc as ->.
    exists (inverse_length, y, row), j, d, x.
    split; [apply elem_of_app; right; by left|]. split; [done|]. split; [|done].
    rewrite Hset. apply list_lookup_insert_eq. rewrite Hdisp. by eapply norm_index_lt.
Qed.

Lemma pack_rows_sound (rows : list row_entry) :
  forall done st st',
  NoDup (row_index t <$> done ++ rows) ->
  packer_ok t st -> result_sound t done st ->
  foldM (pack_row (t ^ 2)) st rows = Ok st' ->
  packer_ok t st' /\ result_sound t (done ++ rows) st'.
Proof.
  induction rows as [|row rows IH]; intros done st st' Hnd Hok Hsound Hrun;
    simpl in Hrun.
  - inv_res. by rewrite app_nil_r.
  - apply bind_Ok in Hrun as (st1 & Hstep & Hrun).
    assert (done ++ row :: rows = (done ++ [row]) ++ rows) as Hassoc
      by (by rewrite <- app_assoc).
    rewrite Hassoc in Hnd |- *.
    eapply IH; [done| |eapply pack_row_sound|done]; [| |done..].
    + by eapply pack_row_each.
    + rewrite fmap_app in Hnd. apply NoDup_app in Hnd as [Hnd _].
      rewrite fmap_app in Hnd. apply NoDup_app in Hnd as (_ & Hnd & _).
      apply Forall_forall. intros other Hother Heq. eapply Hnd.
      * by apply list_elem_of_fmap_2.
      * rewrite Heq. by left.
Qed.

(** What the Row Packer has written when it returns: the assigned cells of
    the state it ends in hold items of the queued rows, each at [x + d]. *)
Lemma arrange_rows_sound (row_queue : list row_entry) final_row displacement_vector :
  arrange_rows row_queue t = Ok (final_row, displacement_vector) ->
  NoDup (row_index t <$> row_queue) ->
  exists st,
    packer_ok t st /\
    displacements st = displacement_vector /\
    trim_nones_from_right (result st) = Ok final_row /\
    result_sound t row_queue st.
Proof.
  unfold arrange_rows. intros Hrun Hnd.
  apply bind_Ok in Hrun as (st & Hloop & Hrun).
  apply bind_Ok in Hrun as (trimmed & Htrim & Hrun). injection Hrun as -> <-.
  rewrite arrange_loop_drain in Hloop by done.
  exists st. apply (pack_rows_sound _ []) in Hloop as [Hok Hloop].
  - do 3 (split; [done|]). intros c item Hc. destruct (Hloop _ _ Hc) as (row & j & d & x & Hrow & Hrest).
    exists row, j, d, x. split; [|done].
    simpl in Hrow. by rewrite drain_perm in Hrow.
  - simpl. by rewrite drain_perm.
  - apply packer_ok_init.
  - intros c item [Hc _]%lookup_replicate. discriminate.
Qed.

End sound.

Section slot_props.
Context {K : Type} (identity : K -> Z) (set_iter : list Z -> list Z).
Implicit Types (keys : list K) (info : HashInfo K) (to_int : option (K -> Z)).

(** An assigned slot holds a key of the sequence. *)
Lemma hash_parameters_slot_key keys minimize to_int info (n : nat) (k : K) :
  hash_parameters identity set_iter keys minimize to_int = Ok info ->
  info_slots info !! n = Some (Some k) -> k ∈ keys.
Proof.
  intros (items & row_queue & final_row & _ & _ & _ & _ & _ & Hslots & _)
    %hash_parameters_inv Hn.
  destruct (mapM_Ok_inv _ _ _ _ _ Hslots Hn) as ([item|] & _ & Hslot); simpl in Hslot;
    [|discriminate].
  destruct (key_to_original_of _ _ !! _) as [original|] eqn:Horiginal; [|discriminate].
  injection Hslot as ->. by apply key_to_original_lookup in Horiginal as [? _].
Qed.

(** X7.  The slots of a construction that are assigned hold keys of the
    sequence, and each of them is the slot of its key:
    [info.slots[n] == k] implies [evaluate(info, k) == n]. *)
Theorem slots_hold_keys keys minimize to_int info (n : nat) (k : K) :
  hash_parameters identity set_iter keys minimize to_int = Ok info ->
  info_slots info !! n = Some (Some k) ->
  k ∈ keys /\ perfect_hash identity info k = Ok (Z.of_nat n).
Proof.
  intros Hbuild Hn. split; [by eapply hash_parameters_slot_key|].
  apply hash_parameters_inv in Hbuild
    as (items & row_queue & final_row & _ & _ & _ & Hplace & Harrange & Hslots & Hto_int).
  pose proof (place_items_in_square_sound _ _ _ Hplace) as Hsound.
  apply place_items_in_square_Ok in Hplace as (_ & Hnd & _).
  apply arrange_rows_sound in Harrange as (st & (_ & Hdisp & _) & Hr & Htrim & Hresult);
    [|done].
  destruct (mapM_Ok_inv _ _ _ _ _ Hslots Hn) as ([item|] & Hitem & Hslot);
    simpl in Hslot; [|discriminate].
  destruct (key_to_original_of _ _ !! _) as [original|] eqn:Horiginal; [|discriminate].
  injection Hslot as ->. apply key_to_original_lookup in Horiginal as [_ Hint].
  eapply trim_nones_from_right_prefix in Hitem; [|exact Htrim].
  destruct (Hresult _ _ Hitem) as (row & j & d & x & Hrow & Hj & Hd & Hcell & Hc).
  destruct (Hsound _ Hrow) as (_ & _ & Hcells).
  destruct (Hcells _ _ Hcell) as (_ & -> & Hy). rewrite Hj in Hy.
  pose proof (norm_index_lt _ _ _ Hy) as Hlt.
  unfold perfect_hash, mod_, floordiv. rewrite Hto_int.
  replace (default identity to_int k + info_offset info) with item by lia.
  rewrite !decide_False by lia. simpl.
  unfold getitem. rewrite <- Hr, Hdisp, Hy, Hd. simpl. by rewrite Hc.
Qed.

Hypothesis set_iter_perm : forall l, set_iter l ≡ₚ l.

(** When the slot vector is not empty, the index of a key is an index of
    the slot vector, and the slot holds the key that stands for the same
    integer in [key_to_original]. *)
Lemma hash_parameters_key_slot keys minimize to_int info k :
  hash_parameters identity set_iter keys minimize to_int = Ok info ->
  info_slots info ≠ [] -> k ∈ keys ->
  exists i original,
    perfect_hash identity info k = Ok i /\
    0 <= i < len (info_slots info) /\
    info_slots info !! Z.to_nat i = Some (Some original) /\
    key_to_original_of (default identity to_int) keys !! default identity to_int k
    = Some original.
Proof.
  intros (st & final_row & Htrim & Hslots & Hcells)
    %(hash_parameters_key_cell _ _ set_iter_perm) Hne Hk.
  destruct (Hcells _ Hk) as (i & Heval & Hi & Hcell).
  pose proof Hslots as [Hlen Hnth]%mapM_Ok.
  eapply trim_nones_from_right_lookup in Hcell; [|exact Htrim|].
  2:{ intros ->. by destruct (info_slots info). }
  destruct (Hnth _ _ Hcell) as (slot & Hslot & Horiginal). simpl in Horiginal.
  replace (default identity to_int k + info_offset info - info_offset info)
    with (default identity to_int k) in Horiginal by lia.
  destruct (key_to_original_of _ _ !! _) as [original|] eqn:Hlookup; [|discriminate].
  injection Horiginal as <-.
  exists i, original. split; [done|]. split; [|done].
  apply lookup_lt_Some in Hslot. unfold len. lia.
Qed.

(** X6.  Bounds: when construction succeeds with a slot vector that is not
    empty, the index of every key of the sequence is an index of the slot
    vector: [0 <= evaluate(info, k) < len(info.slots)]. *)
Theorem perfect_hash_bounds keys minimize to_int info k :
  hash_parameters identity set_iter keys minimize to_int = Ok info ->
  info_slots info ≠ [] -> k ∈ keys ->
  exists i, perfect_hash identity info k = Ok i /\ 0 <= i < len (info_slots info).
Proof.
  intros Hbuild Hne Hk.
  destruct (hash_parameters_key_slot _ _ _ _ _ Hbuild Hne Hk) as (i & _ & Heval & Hi & _).
  eauto.
Qed.

End slot_props.

(** ** The keys that the dictionary accepts *)

Section dict_keys.
Context {K V : Type} `{EqDecision K} (identity : K -> Z) (set_iter : list Z -> list Z).
Hypothesis set_iter_perm : forall l, set_iter l ≡ₚ l.


End dict_keys.

(** ** The first fit *)

Lemma check_columns_fit_Ok (unoccupied_columns : list Z) (row : list (Z * Z))
    (offset row_length : Z) :
  row_length ≠ 0 ->
  check_columns_fit unoccupied_columns row offset row_length
  = Ok (bool_decide (Forall (fun cell : Z * Z =>
                               (cell.1 + offset) mod row_length ∈ unoccupied_columns) row)).
Proof.
  intros Hlen. induction row as [|[x item] row IH]; simpl; [done|].
  unfold mod_. rewrite decide_False by done. simpl.
  unfold OrderedDict.contains.
  destruct (decide ((x + offset) mod row_length ∈ unoccupied_columns)) as [Hin|Hin].
  - rewrite (bool_decide_eq_true_2 _ Hin). simpl. rewrite IH. f_equal.
    apply bool_decide_ext. rewrite Forall_cons. simpl. tauto.
  - rewrite (bool_decide_eq_false_2 _ Hin). simpl. f_equal. symmetry.
    apply bool_decide_eq_false_2. rewrite Forall_cons. simpl. tauto.
Qed.

(** X9.  [check_columns_fit] returns [True] exactly when every item of the
    row, shifted by the offset and wrapped modulo [row_length], lands on a
    free column. *)
Theorem check_columns_fit_spec (unoccupied_columns : list Z) (row : list (Z * Z))
    (offset row_length : Z) :
  row_length ≠ 0 ->
  exists fits : bool,
    check_columns_fit unoccupied_columns row offset row_length = Ok fits /\
    (fits = true <->
     forall x item, (x, item) ∈ row -> (x + offset) mod row_length ∈ unoccupied_columns).
Proof.
  intros Hlen. eexists. split; [by apply check_columns_fit_Ok|].
  rewrite bool_decide_eq_true, Forall_forall. split.
  - intros Hfits x item Hin. apply (Hfits (x, item) Hin).
  - intros Hfits [x item] Hin. by eapply Hfits.
Qed.

Lemma find_first_fit_loop_spec (cols unoccupied_columns : list Z)
    (first_item_x first_item : Z) (row : list (Z * Z)) (row_length : Z) :
  row_length ≠ 0 ->
  let fits free_col :=
    Forall (fun cell : Z * Z =>
              (cell.1 + (free_col - first_item_x)) mod row_length ∈ unoccupied_columns)
           ((first_item_x, first_item) :: row) in
  match find_first_fit_loop cols unoccupied_columns
          ((first_item_x, first_item) :: row) row_length with
  | Ok offset =>
      exists before free_col after,
        cols = before ++ free_col :: after /\
        offset = free_col - first_item_x /\
        fits free_col /\ Forall (fun c => ~ fits c) before
  | Raise e => e = ValueError /\ Forall (fun c => ~ fits c) cols
  end.
Proof.
  intros Hlen fits. induction cols as [|free_col cols IH].
  - simpl. done.
  - cbn [find_first_fit_loop]. change (getitem ((first_item_x, first_item) :: row) 0)
      with (Ok (A := Z * Z) (first_item_x, first_item)). cbn [mbind res_bind].
    rewrite check_columns_fit_Ok by done. cbn [mbind res_bind].
    case_bool_decide as Hfits.
    + exists [], free_col, cols. done.
    + destruct (find_first_fit_loop cols _ _ _) as [offset|e].
      * destruct IH as (before & c & after & -> & -> & Hc & Hbefore).
        exists (free_col :: before), c, after. split; [done|]. split; [done|].
        split; [done|]. by constructor.
      * destruct IH as [-> Hcols]. split; [done|]. by constructor.
Qed.

(** X10.  [find_first_fit] returns the offset that puts the first item of
    the row on the first free column, in the order of the free columns, at
    which every item of the row lands on a free column; it raises
    [ValueError] when there is no such column. *)
Theorem find_first_fit_spec (unoccupied_columns : list Z)
    (first_item_x first_item : Z) (row : list (Z * Z)) (row_length : Z) :
  row_length ≠ 0 ->
  let fits free_col :=
    forall x item, (x, item) ∈ (first_item_x, first_item) :: row ->
      (x + (free_col - first_item_x)) mod row_length ∈ unoccupied_columns in
  match find_first_fit unoccupied_columns ((first_item_x, first_item) :: row) row_length with
  | Ok offset =>
      exists before free_col after,
        unoccupied_columns = before ++ free_col :: after /\
        offset = free_col - first_item_x /\
        fits free_col /\ forall c, c ∈ before -> ~ fits c
  | Raise e => e = ValueError /\ forall c, c ∈ unoccupied_columns -> ~ fits c
  end.
Proof.
  intros Hlen fits. unfold find_first_fit.
  pose proof (find_first_fit_loop_spec unoccupied_columns unoccupied_columns
                first_item_x first_item row row_length Hlen) as Hspec.
  cbv zeta in Hspec.
  assert (forall c, fits c <->
            Forall (fun cell : Z * Z =>
                      (cell.1 + (c - first_item_x)) mod row_length ∈ unoccupied_columns)
                   ((first_item_x, first_item) :: row)) as Hfits.
  { intros c. rewrite Forall_forall. unfold fits. split.
    - intros Hc [x item] Hin. by eapply Hc.
    - intros Hc x item Hin. apply (Hc (x, item) Hin). }
  destruct (find_first_fit_loop _ _ _ _) as [offset|e].
  - destruct Hspec as (before & c & after & Hsplit & -> & Hc & Hbefore).
    exists before, c, after. do 2 (split; [done|]). split; [by apply Hfits|].
    intros c' Hc'. rewrite Hfits. by eapply Forall_forall in Hbefore.
  - destruct Hspec as [-> Hcols]. split; [done|].
    intros c Hc. rewrite Hfits. by eapply Forall_forall in Hcols.
Qed.

(** ** The Output Trimmer, when there is something to trim *)

Lemma trim_scan_nones {A} (n : nat) (v : A) (rest : list (option A)) (i : nat)
    (bound : option nat) :
  trim_scan (replicate n None ++ Some v :: rest) i bound = Some (i + n)%nat.
Proof.
  revert i bound; induction n as [|n IH]; intros i bound; simpl.
  - f_equal; lia.
  - rewrite IH. f_equal; lia.
Qed.

Lemma reverse_replicate {A} (n : nat) (x : A) : reverse (replicate n x) = replicate n x.
Proof.
  induction n as [|n IH]; [done|]. simpl. rewrite reverse_cons, IH.
  change [x] with (replicate 1 x). rewrite <- replicate_add.
  by replace (n + 1)%nat with (S n) by lia.
Qed.

(** X11.  On a vector that ends with [n >= 1] unassigned cells after an
    assigned one, [trim_nones_from_right] removes these [n] cells and
    nothing else; unassigned cells before the last assigned one stay. *)
Theorem trim_nones_from_right_trailing {A} (xs : list (option A)) (v : A) (n : nat) :
  trim_nones_from_right (xs ++ Some v :: replicate (S n) None) = Ok (xs ++ [Some v]).
Proof.
  unfold trim_nones_from_right.
  rewrite reverse_app, reverse_cons, reverse_replicate, <- app_assoc.
  change ([Some v] ++ reverse xs) with (Some v :: reverse xs).
  rewrite trim_scan_nones. f_equal. unfold slice_to.
  rewrite decide_True by lia. rewrite length_app. simpl. rewrite length_replicate.
  rewrite (cons_middle (Some v)), app_assoc.
  match goal with
  | |- take ?k _ = _ =>
      replace k with (length (xs ++ [Some v])) by (rewrite length_app; simpl; lia)
  end.
  apply take_app_length.
Qed.

Lemma trim_scan_all_none {A} (n : nat) (i : nat) (bound : option nat) :
  trim_scan (replicate (S n) (@None A)) i bound = Some (i + n)%nat.
Proof.
  revert i bound; induction n as [|n IH]; intros i bound.
  - simpl. f_equal; lia.
  - change (replicate (S (S n)) (@None A)) with (None :: replicate (S n) (@None A)).
    cbn [trim_scan]. rewrite bool_decide_eq_false_2 by (intros Hne; by apply Hne).
    rewrite IH. f_equal; lia.
Qed.

(** X12.  The edges of [trim_nones_from_right]: on the empty vector the
    loop variable [i] is never bound and the function raises; on a vector
    of unassigned cells only, one cell is left when there were several,
    none when there was one. *)
Theorem trim_nones_from_right_unassigned {A} (n : nat) :
  trim_nones_from_right (@nil (option A)) = Raise UnboundLocalError /\
  trim_nones_from_right [@None A] = Ok [] /\
  trim_nones_from_right (replicate (S (S n)) (@None A)) = Ok [None].
Proof.
  split; [done|]. split; [done|].
  unfold trim_nones_from_right. rewrite reverse_replicate, trim_scan_all_none.
  f_equal. unfold slice_to. rewrite decide_True by lia. rewrite length_replicate.
  match goal with |- take ?k _ = _ => replace k with 1%nat by lia end.
  done.
Qed.

(** ** The table parameter *)

(** X13.  For items whose maximum is at most [2^52], the table parameter
    that [choose_best_t] returns is at least 1 and its square reaches both
    the largest item and the number of items: the assertion of
    [hash_parameters] on [t] does not fail there. *)
Theorem choose_best_t_reaches (items : list Z) (t m : Z) :
  choose_best_t items = Ok t -> max_ items = Ok m -> m <= 2 ^ 52 ->
  1 <= t /\ m <= t * t /\ len items <= t * t /\
  py_assert (bool_decide (t * t >= m) && bool_decide (t * t >= len items)) = Ok tt.
Proof.
  unfold choose_best_t. intros Hrun Hmax Hbound. rewrite Hmax in Hrun.
  cbn [mbind res_bind] in Hrun.
  apply bind_Ok in Hrun as (s & Hsqrt & Hrun).
  apply ceil_sqrt_Ok in Hsqrt as (Hm & Hs & Hreach & _); [|done].
  assert (1 <= len items) as Hlen.
  { destruct items; [discriminate|]. unfold len. simpl. lia. }
  assert (1 <= t /\ m <= t * t /\ len items <= t * t) as (Ht & Hmt & Hlt).
  { rewrite Z.pow_2_r in Hrun. case_decide as Hsmall; injection Hrun as <-.
    - split; [done|]. split; nia.
    - split; [nia|]. split; lia. }
  do 3 (split; [done|]).
  by rewrite !bool_decide_eq_true_2 by lia.
Qed.

(** ** The rows that the Grid Placer queues *)

Lemma norm_index_is_Some (n : nat) (i : Z) :
  is_Some (norm_index n i) <-> - Z.of_nat n <= i < Z.of_nat n.
Proof.
  unfold norm_index. repeat case_decide; split; intros Hi; try lia; eauto.
  by destruct Hi.
Qed.

(** X14.  The queue that [place_items_in_square] returns has only rows that
    are not empty, each keyed by [t] minus its number of cells, with row
    indices that designate distinct rows; its cells are exactly the items,
    each with [x = item % t]. *)
Theorem place_items_in_square_rows (items : list Z) (t : Z) (row_queue : list row_entry) :
  place_items_in_square items t = Ok row_queue ->
  (forall row, row ∈ row_queue -> row.2 ≠ [] /\ row.1.1 = t - len row.2) /\
  NoDup (row_index t <$> row_queue) /\
  (forall x item,
     (exists row, row ∈ row_queue /\ (x, item) ∈ row.2) <->
     item ∈ items /\ x = item mod t).
Proof.
  intros Hrun. pose proof (place_items_in_square_sound _ _ _ Hrun) as Hsound.
  apply place_items_in_square_Ok in Hrun as (Hitems & Hnd & _).
  split; [|split; [done|]].
  - intros row Hrow. destruct (Hsound _ Hrow) as (Hne & Hkey & _). done.
  - intros x item. split.
    + intros (row & Hrow & Hcell). destruct (Hsound _ Hrow) as (_ & _ & Hcells).
      destruct (Hcells _ _ Hcell) as (Hin & Hx & _). done.
    + intros [Hin ->]. destruct (Hitems _ Hin) as (_ & j & row & _ & _ & Hrow & Hcell).
      eauto.
Qed.

Section place_total.
Variable t : Z.

Lemma rows_keyed_init : rows_keyed t ((fun y => (t, y, [])) <$> seqZ 0 t).
Proof.
  split; [by rewrite length_fmap, length_seqZ|].
  apply Forall_forall. intros row (y & -> & _)%list_elem_of_fmap. simpl. unfold len. simpl. lia.
Qed.

Lemma place_item_in_square_total (rows : list row_entry) (item : Z) :
  rows_keyed t rows ->
  if decide (0 < t /\ - t <= item / t < t) then
    exists rows', place_item_in_square t rows item = Ok rows' /\ rows_keyed t rows'
  else
    place_item_in_square t rows item
    = Raise (if decide (t = 0) then ZeroDivisionError else IndexError).
Proof.
  intros [Hlen Hkeyed]. unfold place_item_in_square, mod_, floordiv.
  case_decide as Hitem.
  - rewrite !decide_False by lia. simpl.
    destruct (norm_index (length rows) (item / t)) as [k|] eqn:Hk.
    2:{ assert (is_Some (norm_index (length rows) (item / t))) as [? Hsome];
          [apply norm_index_is_Some; lia|congruence]. }
    pose proof (norm_index_lt _ _ _ Hk) as Hlt.
    destruct (lookup_lt_is_Some_2 rows k Hlt) as [[[inv y] rc] Hrow].
    assert (getitem rows (item / t) = Ok (inv, y, rc)) as ->
      by (apply getitem_Ok; eauto).
    simpl. eexists. split; [apply setitem_Ok; eauto|].
    split; [by rewrite length_insert|].
    apply Forall_insert; [done|]. simpl.
    eapply Forall_lookup_1 in Hkeyed; [|exact Hrow]. simpl in Hkeyed.
    unfold len in *. rewrite heappush_perm. simpl. lia.
  - case_decide as Ht; [done|]. simpl.
    unfold getitem. destruct (norm_index (length rows) (item / t)) as [k|] eqn:Hk; [|done].
    exfalso. apply Hitem. assert (is_Some (norm_index (length rows) (item / t))) as Hsome by eauto.
    apply norm_index_is_Some in Hsome. lia.
Qed.

Lemma place_items_fold_total (items : list Z) :
  forall rows, rows_keyed t rows ->
  if decide (Forall (fun item => 0 < t /\ - t <= item / t < t) items) then
    exists rows', foldM (place_item_in_square t) rows items = Ok rows' /\ rows_keyed t rows'
  else
    foldM (place_item_in_square t) rows items
    = Raise (if decide (t = 0) then ZeroDivisionError else IndexError).
Proof.
  induction items as [|item items IH]; intros rows Hrows.
  - rewrite decide_True by constructor. simpl. eauto.
  - pose proof (place_item_in_square_total rows item Hrows) as Hstep. simpl.
    destruct (decide (0 < t /\ - t <= item / t < t)) as [Hitem|Hitem].
    + destruct Hstep as (rows1 & -> & Hrows1). simpl.
      specialize (IH rows1 Hrows1).
      destruct (decide (Forall _ items)) as [Hitems|Hitems].
      * rewrite decide_True by (by constructor). done.
      * rewrite decide_False; [done|]. by intros [_ ?]%Forall_cons.
    + rewrite Hstep. simpl. rewrite decide_False; [done|]. by intros [? _]%Forall_cons.
Qed.

(** X15.  [place_items_in_square] succeeds exactly when [t] is positive and
    the row index [item // t] of every item designates one of the [t] rows,
    from the left or, negative, from the right; otherwise it raises
    [ZeroDivisionError] when [t] is zero and [IndexError] when it is not. *)
Theorem place_items_in_square_total (items : list Z) :
  match place_items_in_square items t with
  | Ok row_queue => forall item, item ∈ items -> 0 < t /\ - t <= item / t < t
  | Raise e =>
      (exists item, item ∈ items /\ ~ (0 < t /\ - t <= item / t < t)) /\
      e = if decide (t = 0) then ZeroDivisionError else IndexError
  end.
Proof.
  unfold place_items_in_square.
  pose proof (place_items_fold_total items _ rows_keyed_init) as Hfold.
  destruct (decide (Forall _ items)) as [Hitems|Hitems].
  - destruct Hfold as (rows & -> & [_ Hkeyed]). simpl.
    assert (forallb (fun '(inv_len, _, row) => bool_decide (inv_len = t - len row)) rows
            = true) as ->.
    { apply Is_true_true_1, forallb_True. eapply Forall_impl; [exact Hkeyed|].
      intros [[inv_len y] row] Hkey. by apply bool_decide_pack. }
    simpl. intros item Hitem. by eapply Forall_forall in Hitems.
  - rewrite Hfold. simpl. split; [|done].
    apply not_Forall_Exists in Hitems; [|solve_decision].
    apply Exists_exists in Hitems as (item & Hitem & Hbad). eauto.
Qed.

End place_total.

(** ** The further properties at concrete keys *)

Lemma dict_setitem_getitem_witness :
  dict_getitem id example_info [None; Some (5, 10); None] 5 = Ok 10.
Proof.
  apply (dict_setitem_getitem id example_info [None; None; None] 5 10).
  vm_compute; reflexivity.
Defined.

Lemma dict_setitem_getitem_other_witness :
  dict_getitem id example_info [None; Some (5, 10); None] 7
  = dict_getitem id example_info [None; None; None] 7.
Proof.
  apply (dict_setitem_getitem_other id example_info [None; None; None] 5 10).
  - reflexivity.
  - vm_compute; reflexivity.
  - lia.
Defined.

Lemma dict_delitem_getitem_other_witness :
  dict_getitem id example_info [None; None; Some (7, 20)] 7
  = dict_getitem id example_info [None; Some (5, 10); Some (7, 20)] 7.
Proof.
  apply (dict_delitem_getitem_other id example_info [None; Some (5, 10); Some (7, 20)] 5).
  - reflexivity.
  - vm_compute; reflexivity.
  - lia.
Defined.

Lemma dict_iter_getitem_witness :
  5 ∈ dict_iter [None; Some (5, 10); None]
  <-> is_Ok (dict_getitem id example_info [None; Some (5, 10); None] 5).
Proof.
  apply (dict_iter_getitem id example_info [None; Some (5, 10); None] 5).
  apply (dict_wf_init id example_info [(5, 10)]). vm_compute; reflexivity.
Defined.

Lemma perfect_hash_bounds_witness :
  exists i, perfect_hash id example_info 7 = Ok i /\ 0 <= i < len (info_slots example_info).
Proof.
  apply (perfect_hash_bounds id ascending ascending_perm [1; 5; 7] true None).
  - vm_compute; reflexivity.
  - discriminate.
  - apply (bool_decide_unpack _). vm_compute. exact I.
Defined.

Lemma slots_hold_keys_witness :
  5 ∈ [1; 5; 7] /\ perfect_hash id example_info 5 = Ok (Z.of_nat 1).
Proof.
  apply (slots_hold_keys id ascending [1; 5; 7] true None example_info 1 5).
  - vm_compute; reflexivity.
  - reflexivity.
Defined.


Lemma check_columns_fit_spec_witness :
  exists fits : bool,
    check_columns_fit [0; 2; 3] [(2, 1); (3, 1)] 0 4 = Ok fits /\
    (fits = true <->
     forall x item, (x, item) ∈ [(2, 1); (3, 1)] -> (x + 0) mod 4 ∈ [0; 2; 3]).
Proof. apply (check_columns_fit_spec [0; 2; 3] [(2, 1); (3, 1)] 0 4). lia. Defined.

Lemma find_first_fit_spec_witness :
  match find_first_fit [0; 2; 3] [(2, 1); (3, 1)] 4 with
  | Ok offset =>
      exists before free_col after,
        [0; 2; 3] = before ++ free_col :: after /\
        offset = free_col - 2 /\
        (forall x item, (x, item) ∈ [(2, 1); (3, 1)] ->
           (x + (free_col - 2)) mod 4 ∈ [0; 2; 3]) /\
        forall c, c ∈ before ->
          ~ (forall x item, (x, item) ∈ [(2, 1); (3, 1)] ->
               (x + (c - 2)) mod 4 ∈ [0; 2; 3])
  | Raise e =>
      e = ValueError /\
      forall c, c ∈ [0; 2; 3] ->
        ~ (forall x item, (x, item) ∈ [(2, 1); (3, 1)] ->
             (x + (c - 2)) mod 4 ∈ [0; 2; 3])
  end.
Proof. apply (find_first_fit_spec [0; 2; 3] 2 1 [(3, 1)] 4). lia. Defined.

Lemma choose_best_t_reaches_witness :
  1 <= 3 /\ 7 <= 3 * 3 /\ len [1; 5; 7] <= 3 * 3 /\
  py_assert (bool_decide (3 * 3 >= 7) && bool_decide (3 * 3 >= len [1; 5; 7])) = Ok tt.
Proof. apply (choose_best_t_reaches [1; 5; 7] 3 7); [vm_compute; reflexivity..|lia]. Defined.

Lemma place_items_in_square_rows_witness :
  (forall row, row ∈ [(2, 1, [(1, 5); (3, 7)]); (3, 0, [(1, 1)])] ->
     row.2 ≠ [] /\ row.1.1 = 4 - len row.2) /\
  NoDup (row_index 4 <$> [(2, 1, [(1, 5); (3, 7)]); (3, 0, [(1, 1)])]) /\
  (forall x item,
     (exists row, row ∈ [(2, 1, [(1, 5); (3, 7)]); (3, 0, [(1, 1)])] /\ (x, item) ∈ row.2) <->
     item ∈ [1; 5; 7] /\ x = item mod 4).
Proof. apply (place_items_in_square_rows [1; 5; 7] 4). vm_compute; reflexivity. Defined.

(** ** [heapq]: pushing keeps the heap invariant *)

Section heap_order.
Context {A : Type} `{PyLt A}.

(** What the proofs use of the comparison: it is a strict order whose
    negation is transitive, as [<] on integers and on tuples of integers. *)
Hypothesis lt_irrefl : forall a : A, py_lt a a = false.
Hypothesis lt_asym : forall a b : A, py_lt a b = true -> py_lt b a = false.
Hypothesis le_trans : forall a b c : A, py_le a b -> py_le b c -> py_le a c.

Implicit Types heap : list A.

Abbreviation parent i := ((i - 1) / 2)%nat.

Lemma parent_lt (i : nat) : (0 < i)%nat -> (parent i < i)%nat.
Proof. intros Hi. apply Nat.Div0.div_lt_upper_bound. lia. Qed.

(** Leaving the loop: [newitem] goes to [pos], under a parent that is not
    above it. *)
Lemma sifting_exit heap (pos : nat) (newitem : A) :
  (pos < length heap)%nat ->
  sifting heap pos newitem ->
  (forall p, (0 < pos)%nat -> heap !! parent pos = Some p -> py_lt newitem p = false) ->
  is_heap (<[pos := newitem]> heap).
Proof.
  intros Hpos (Hedges & Hnew & _) Hparent i p c Hi Hp Hc.
  destruct (decide (i = pos)) as [->|Hne].
  - rewrite list_lookup_insert_eq in Hc by done. injection Hc as <-.
    rewrite list_lookup_insert_ne in Hp by (pose proof (parent_lt pos Hi); lia).
    by apply Hparent.
  - rewrite list_lookup_insert_ne in Hc by done.
    destruct (decide (parent i = pos)) as [Hpi|Hpi].
    + rewrite Hpi, list_lookup_insert_eq in Hp by done. injection Hp as <-.
      destruct (lookup_lt_is_Some_2 heap pos Hpos) as [v Hv].
      eapply le_trans; [by apply Hnew|]. eapply Hedges; [exact Hi|exact Hne| |exact Hc].
      by rewrite Hpi.
    + rewrite list_lookup_insert_ne in Hp by done. by eapply Hedges.
Qed.

Lemma siftdown_loop_is_heap (fuel : nat) :
  forall heap (pos : nat) (newitem : A),
  (pos <= fuel)%nat -> (pos < length heap)%nat ->
  sifting heap pos newitem ->
  is_heap (heapq.siftdown_loop fuel heap 0 pos newitem).
Proof.
  induction fuel as [|fuel IH]; intros heap pos newitem Hfuel Hpos Hsift;
    cbn [heapq.siftdown_loop].
  { apply sifting_exit; [done..|]. intros p Hp. lia. }
  case_decide as Hlt.
  2:{ apply sifting_exit; [done..|]. intros p Hp. lia. }
  pose proof (parent_lt pos Hlt) as Hpp.
  destruct (heap !! parent pos) as [p|] eqn:Hp.
  2:{ apply lookup_ge_None in Hp. lia. }
  destruct (py_lt newitem p) eqn:Hcmp.
  2:{ apply sifting_exit; [done..|]. intros p' _ Hp'. congruence. }
  destruct Hsift as (Hedges & Hnew & Hgrand).
  apply IH; [lia|rewrite length_insert; lia|]. split; [|split].
  - intros i q c Hi Hne Hq Hc. destruct (decide (i = pos)) as [->|Hne'].
    + rewrite list_lookup_insert_eq in Hc by done. injection Hc as <-.
      rewrite list_lookup_insert_ne in Hq by lia.
      rewrite Hp in Hq. injection Hq as <-. apply lt_irrefl.
    + rewrite list_lookup_insert_ne in Hc by done.
      destruct (decide (parent i = pos)) as [Hpi|Hpi].
      * rewrite Hpi, list_lookup_insert_eq in Hq by done. injection Hq as <-.
        by eapply Hgrand.
      * rewrite list_lookup_insert_ne in Hq by done. by eapply Hedges.
  - intros v Hv. rewrite list_lookup_insert_ne in Hv by lia.
    rewrite Hp in Hv. injection Hv as <-. by apply lt_asym.
  - intros i g c Hpos' Hi Hpi Hg Hc.
    pose proof (parent_lt _ Hpos') as Hgp.
    rewrite list_lookup_insert_ne in Hg by lia.
    assert (py_le g p) as Hgp_le.
    { eapply Hedges; [exact Hpos'|lia|exact Hg|exact Hp]. }
    destruct (decide (i = pos)) as [->|Hne].
    + rewrite list_lookup_insert_eq in Hc by done. by injection Hc as <-.
    + rewrite list_lookup_insert_ne in Hc by done.
      eapply le_trans; [exact Hgp_le|]. eapply Hedges; [exact Hi|exact Hne| |exact Hc].
      by rewrite Hpi.
Qed.

Lemma heappush_is_heap heap (item : A) :
  is_heap heap -> is_heap (heapq.heappush heap item).
Proof.
  intros Hheap. unfold heapq.heappush, heapq.siftdown.
  rewrite lookup_app_r, Nat.sub_diag by done. simpl.
  apply siftdown_loop_is_heap; [done|rewrite length_app; simpl; lia|].
  split; [|split].
  - intros i p c Hi Hne Hp Hc.
    assert (i < length heap)%nat as Hlt.
    { apply lookup_lt_Some in Hc. rewrite length_app in Hc. simpl in Hc. lia. }
    rewrite lookup_app_l in Hc by done.
    rewrite lookup_app_l in Hp by (pose proof (parent_lt i Hi); lia).
    by eapply Hheap.
  - intros v Hv. rewrite lookup_app_r, Nat.sub_diag in Hv by done.
    injection Hv as <-. apply lt_irrefl.
  - intros i g c Hpos Hi Hpi Hg Hc. apply lookup_lt_Some in Hc.
    rewrite length_app in Hc. simpl in Hc. pose proof (parent_lt i Hi). lia.
Qed.

(** The root of a heap is not above any of its elements. *)
Lemma is_heap_root heap (root : A) :
  is_heap heap -> heap !! 0%nat = Some root ->
  forall a, a ∈ heap -> py_le root a.
Proof.
  intros Hheap Hroot a [i Hi]%list_elem_of_lookup. revert a Hi.
  induction (lt_wf i) as [i _ IH]. intros a Hi.
  destruct (decide (i = 0%nat)) as [->|Hne].
  - rewrite Hroot in Hi. injection Hi as <-. apply lt_irrefl.
  - pose proof (parent_lt i ltac:(lia)) as Hpi.
    destruct (lookup_lt_is_Some_2 heap (parent i)) as [p Hp].
    { apply lookup_lt_Some in Hi. lia. }
    eapply le_trans; [by apply (IH (parent i))|].
    eapply Hheap; [|exact Hp|exact Hi]. lia.
Qed.

End heap_order.

(** ** The first cell of a row *)

(** The comparison of the cells [(x, item)]. *)
Lemma cell_lt_irrefl (a : Z * Z) : py_lt a a = false.
Proof.
  unfold py_lt, pair_lt. rewrite decide_True by done. apply Z.ltb_irrefl.
Qed.

Lemma cell_le_spec (a b : Z * Z) :
  py_le a b <-> a.1 < b.1 \/ (a.1 = b.1 /\ a.2 <= b.2).
Proof.
  unfold py_le, py_lt, pair_lt, py_lt, Z_lt.
  case_decide as Heq; rewrite Z.ltb_ge; lia.
Qed.

Lemma cell_lt_asym (a b : Z * Z) : py_lt a b = true -> py_lt b a = false.
Proof.
  intros Hlt. apply cell_le_spec. revert Hlt. unfold py_lt, pair_lt, py_lt, Z_lt.
  case_decide as Heq; rewrite Z.ltb_lt; lia.
Qed.

Lemma cell_le_trans (a b c : Z * Z) : py_le a b -> py_le b c -> py_le a c.
Proof. rewrite !cell_le_spec. lia. Qed.

Lemma place_item_in_square_heaps (t : Z) rows item rows' :
  Forall (fun row : row_entry => is_heap row.2) rows ->
  place_item_in_square t rows item = Ok rows' ->
  Forall (fun row : row_entry => is_heap row.2) rows'.
Proof.
  intros Hheaps (Ht & k & inv & y & rc & Hk & Hrow & ->)%place_item_in_square_Ok.
  apply Forall_insert; [done|]. simpl.
  apply heappush_is_heap;
    [apply cell_lt_irrefl|apply cell_lt_asym|apply cell_le_trans|].
  by eapply Forall_lookup_1 in Hheaps; [|exact Hrow].
Qed.

Lemma place_items_in_square_heaps (items : list Z) (t : Z) row_queue :
  place_items_in_square items t = Ok row_queue ->
  Forall (fun row : row_entry => is_heap row.2) row_queue.
Proof.
  unfold place_items_in_square. intros Hrun.
  apply bind_Ok in Hrun as (rows & Hloop & Hrun).
  apply bind_Ok in Hrun as (_ & _ & Hrun). injection Hrun as <-.
  eapply (foldM_invariant (Forall (fun row : row_entry => is_heap row.2))) in Hloop.
  - apply Forall_forall. intros row [_ Hrow]%list_elem_of_filter.
    rewrite heapify_perm in Hrow. by eapply Forall_forall in Hloop.
  - intros s a s' _. apply place_item_in_square_heaps.
  - apply Forall_forall. intros row (y & -> & _)%list_elem_of_fmap. simpl.
    intros i p c _ Hp. by rewrite lookup_nil in Hp.
Qed.

(** X16.  In every row that [place_items_in_square] queues, the first cell
    [row[0]], from which [find_first_fit] takes [first_item_x], has the
    smallest [x] of the row. *)
Theorem place_items_in_square_first (items : list Z) (t : Z) row_queue row :
  place_items_in_square items t = Ok row_queue -> row ∈ row_queue ->
  exists first_item_x first_item rest,
    row.2 = (first_item_x, first_item) :: rest /\
    forall x item, (x, item) ∈ row.2 -> first_item_x <= x.
Proof.
  intros Hrun Hrow.
  pose proof (place_items_in_square_heaps _ _ _ Hrun) as Hheaps.
  eapply Forall_forall in Hheaps; [|exact Hrow].
  apply place_items_in_square_sound with (row := row) in Hrun as (Hne & _); [|done].
  destruct (row.2) as [|[first_item_x first_item] rest] eqn:Hcells; [done|].
  exists first_item_x, first_item, rest. split; [done|].
  intros x item Hcell.
  eapply (is_heap_root (A := Z * Z)) in Hheaps;
    [|apply cell_lt_irrefl|apply cell_le_trans|reflexivity|exact Hcell].
  apply cell_le_spec in Hheaps. simpl in Hheaps. lia.
Qed.

(** ** The Row Packer always finds room *)

Lemma StronglySorted_seqZ (m n : Z) : StronglySorted Z.lt (seqZ m n).
Proof.
  destruct (decide (0 <= n)) as [Hn|Hn].
  2:{ unfold seqZ. replace (Z.to_nat n) with 0%nat by lia. constructor. }
  rewrite <- (Z2Nat.id n Hn). generalize (Z.to_nat n). clear n Hn. intros k.
  revert m; induction k as [|k IH]; intros m.
  - constructor.
  - rewrite seqZ_cons by lia.
    replace (Z.pred (Z.of_nat (S k))) with (Z.of_nat k) by lia.
    constructor; [apply IH|]. apply Forall_forall. intros c Hc%elem_of_seqZ. lia.
Qed.

Lemma StronglySorted_filter {A} (R : relation A) (P : A -> Prop)
    `{forall x, Decision (P x)} (l : list A) :
  StronglySorted R l -> StronglySorted R (filter P l).
Proof.
  induction 1 as [|x l Hl IH Hx]; [constructor|].
  rewrite filter_cons. case_decide; [|done].
  constructor; [done|]. apply Forall_forall. intros y [_ Hy]%list_elem_of_filter.
  by eapply Forall_forall in Hx.
Qed.

(** The [for x, item in row] loop goes through when the cells have distinct
    [x] and all land on free columns. *)
Lemma place_item_fold_total (offset : Z) (row : list (Z * Z)) (N : nat) :
  forall res un,
  NoDup row.*1 ->
  (forall x, x ∈ row.*1 -> x + offset ∈ un) ->
  length res = N -> (forall c, c ∈ un -> 0 <= c < Z.of_nat N) ->
  StronglySorted Z.lt un ->
  exists res' un',
    foldM (place_item offset) (res, un) row = Ok (res', un') /\
    StronglySorted Z.lt un'.
Proof.
  induction row as [|[x item] row IH]; intros res un Hnd Hfree Hlen Hun Hsorted; simpl.
  - eauto.
  - apply NoDup_cons in Hnd as [Hx Hnd].
    assert (x + offset ∈ un) as Hin by (apply Hfree; by left).
    pose proof (Hun _ Hin) as Hrange.
    unfold setitem. rewrite Hlen, norm_index_nonneg by done. simpl.
    unfold OrderedDict.delitem. rewrite decide_True by done. simpl.
    apply IH.
    + done.
    + intros x' Hx'. apply list_elem_of_filter. split.
      * intros Heq. apply Hx. by replace x with x' by lia.
      * apply Hfree. by right.
    + by rewrite length_insert.
    + intros c [_ Hc]%list_elem_of_filter. by apply Hun.
    + by apply StronglySorted_filter.
Qed.

Lemma pack_row_total (t : Z) (j : nat) (st : packer) (row : row_entry) :
  Z.of_nat j < t -> packing t j st -> row_ok t row ->
  exists st', pack_row (t ^ 2) st row = Ok st' /\ packing t (S j) st'.
Proof.
  intros Hj (Hok & Hsorted & Hbeyond) (Hindex & Hnd & x0 & item0 & rest & Hcells & Hx0 & Hxs).
  destruct row as [[inverse_length y] cells]. simpl in *.
  pose proof Hok as (Hres & Hdisp & Hun).
  assert (0 < t) as Ht by lia.
  assert ((Z.of_nat j + 1) * t <= t ^ 2) as Hroom by (rewrite Z.pow_2_r; nia).
  assert (t ^ 2 ≠ 0) as Hsq by (rewrite Z.pow_2_r; nia).
  (* the column [j * t] fits *)
  assert (Forall (fun cell : Z * Z =>
                    (cell.1 + (Z.of_nat j * t - x0)) mod t ^ 2 ∈ unoccupied_columns st)
                 cells) as Hfits0.
  { apply Forall_forall. intros [x item] Hcell. simpl.
    assert (x0 <= x < t) as Hx by (apply Hxs, list_elem_of_fmap; by exists (x, item)).
    rewrite Z.mod_small by lia. apply Hbeyond. lia. }
  (* so a first fit is found, not after it *)
  pose proof (find_first_fit_loop_spec (unoccupied_columns st) (unoccupied_columns st)
                x0 item0 rest (t ^ 2) Hsq) as Hspec. cbv zeta in Hspec.
  rewrite <- Hcells in Hspec.
  destruct (find_first_fit_loop _ _ _ _) as [d|e] eqn:Hfit.
  2:{ destruct Hspec as [_ Hnone]. exfalso.
      eapply Forall_forall in Hnone; [by apply Hnone|]. apply Hbeyond. lia. }
  destruct Hspec as (before & c & after & Hsplit & -> & Hfits & Hbefore).
  assert (0 <= c <= Z.of_nat j * t) as Hc.
  { split; [apply Hun; rewrite Hsplit; apply elem_of_app; right; by left|].
    assert (Z.of_nat j * t ∈ unoccupied_columns st) as Hin by (apply Hbeyond; lia).
    rewrite Hsplit in Hin, Hsorted.
    apply elem_of_app in Hin as [Hin|Hin].
    - eapply Forall_forall in Hbefore; [|exact Hin]. done.
    - apply StronglySorted_app_1_r, StronglySorted_cons in Hsorted as [Hafter _].
      apply elem_of_cons in Hin as [->|Hin]; [lia|].
      eapply Forall_forall in Hafter; [|exact Hin]. lia. }
  assert (forall x, x ∈ cells.*1 -> x + (c - x0) ∈ unoccupied_columns st /\
                     x + (c - x0) < (Z.of_nat j + 1) * t) as Hcols.
  { intros x Hx. pose proof (Hxs _ Hx) as Hrange.
    apply list_elem_of_fmap in Hx as ([x' item] & -> & Hcell). simpl in *.
    eapply Forall_forall in Hfits; [|exact Hcell]. simpl in Hfits.
    rewrite Z.mod_small in Hfits by lia. split; [done|lia]. }
  destruct (place_item_fold_total (c - x0) cells (Z.to_nat (t ^ 2))
              (result st) (unoccupied_columns st))
    as (res' & un' & Hfold & Hsorted'); [done|by intros x [? _]%Hcols|done| |done|].
  { intros c' Hc'. rewrite Z2Nat.id by lia. by apply Hun. }
  destruct Hindex as [k Hk]. unfold row_index in Hk. simpl in Hk.
  assert (pack_row (t ^ 2) st (inverse_length, y, cells)
          = Ok (Packer un' res' (<[k := Some (c - x0)]> (displacements st)))) as Hrun.
  { unfold pack_row, find_first_fit. rewrite Hfit. cbn [mbind res_bind].
    assert (getitem cells 0 = Ok (x0, item0)) as -> by (by rewrite Hcells).
    cbn [mbind res_bind].
    assert (setitem (displacements st) y (Some (c - x0))
            = Ok (<[k := Some (c - x0)]> (displacements st))) as ->
      by (apply setitem_Ok; exists k; by rewrite Hdisp).
    cbn [mbind res_bind]. by rewrite Hfold. }
  eexists. split; [exact Hrun|].
  split; [by eapply pack_row_each|]. split; [done|]. simpl.
  intros c' Hc'.
  eapply place_item_fold in Hfold as (_ & Hun' & _);
    [|done|intros c'' Hc''; rewrite Z2Nat.id by lia; by apply Hun].
  apply Hun'. split; [apply Hbeyond; lia|].
  intros x item Hcell.
  assert (x ∈ cells.*1) as Hx by (apply list_elem_of_fmap; by exists (x, item)).
  apply Hcols in Hx. lia.
Qed.

Lemma pack_rows_total (t : Z) (rows : list row_entry) :
  forall (j : nat) (st : packer),
  packing t j st -> Forall (row_ok t) rows -> Z.of_nat (j + length rows) <= t ->
  exists st', foldM (pack_row (t ^ 2)) st rows = Ok st' /\ packing t (j + length rows) st'.
Proof.
  induction rows as [|row rows IH]; intros j st Hst Hrows Hroom; simpl.
  - exists st. by rewrite Nat.add_0_r.
  - apply Forall_cons in Hrows as [Hrow Hrows]. simpl in Hroom.
    destruct (pack_row_total t j st row) as (st1 & -> & Hst1); [lia|done..|]. simpl.
    replace (j + S (length rows))%nat with (S j + length rows)%nat by lia.
    apply IH; [done..|lia].
Qed.

(** There are at most [t] rows with distinct row indices. *)
Lemma queue_length (t : Z) (row_queue : list row_entry) :
  queue_ok t row_queue -> (length row_queue <= Z.to_nat t)%nat.
Proof.
  intros [Hnd Hrows].
  assert (length (row_index t <$> row_queue)
          <= length (Some <$> seq 0 (Z.to_nat t)))%nat as Hle;
    [|by rewrite !length_fmap, length_seq in Hle].
  apply submseteq_length, NoDup_submseteq; [done|].
  intros o (row & -> & Hrow)%list_elem_of_fmap.
  eapply Forall_forall in Hrows as ([k Hk] & _); [|exact Hrow].
  rewrite Hk. apply list_elem_of_fmap_2, elem_of_seq.
  apply norm_index_lt in Hk. lia.
Qed.

Lemma trim_scan_is_Some {A} (rev_xs : list (option A)) (i : nat) (bound : option nat) :
  rev_xs ≠ [] \/ is_Some bound -> is_Some (trim_scan rev_xs i bound).
Proof.
  revert i bound; induction rev_xs as [|item rest IH]; intros i bound Hsome; simpl.
  - by destruct Hsome.
  - case_bool_decide; [eauto|]. apply IH. right. eauto.
Qed.

Lemma trim_nones_from_right_is_Ok {A} (xs : list (option A)) :
  xs ≠ [] -> is_Ok (trim_nones_from_right xs).
Proof.
  intros Hne. unfold trim_nones_from_right.
  destruct (trim_scan_is_Some (reverse xs) 0 None) as [i ->]; [|by eexists].
  left. intros Hrev. apply (f_equal length) in Hrev.
  rewrite length_reverse in Hrev. by destruct xs.
Qed.

(** On a queue that can be packed, the loop of [arrange_rows] goes through
    and there is something to trim. *)
Lemma arrange_rows_runs (t : Z) (row_queue : list row_entry) :
  0 < t -> queue_ok t row_queue ->
  exists final_row displacement_vector,
    arrange_rows row_queue t = Ok (final_row, displacement_vector).
Proof.
  intros Ht Hqueue. pose proof (queue_length _ _ Hqueue) as Hlen.
  destruct Hqueue as [Hnd Hrows]. unfold arrange_rows.
  rewrite arrange_loop_drain by done.
  destruct (pack_rows_total t (drain (length row_queue) row_queue) 0
              {| unoccupied_columns := OrderedDict.from_xrange (t ^ 2);
                 result := replicate (Z.to_nat (t ^ 2)) None;
                 displacements := replicate (Z.to_nat t) None |})
    as (st & -> & ((Hres & _) & _)).
  - split; [apply packer_ok_init|]. split; [apply StronglySorted_seqZ|].
    intros c Hc. apply elem_of_seqZ. lia.
  - by rewrite drain_perm.
  - rewrite drain_perm by done. lia.
  - simpl. destruct (trim_nones_from_right_is_Ok (result st)) as [trimmed ->].
    + intros Hnil. rewrite Hnil in Hres. simpl in Hres.
      pose proof (square_nonneg t). rewrite Z.pow_2_r in *. nia.
    + simpl. eauto.
Qed.

(** X17.  [arrange_rows] does not raise on a queue of rows with distinct row
    indices among the [t] rows, whose cells have distinct [x] in the square,
    the first cell having the smallest: [find_first_fit] always finds a
    column, and no item is written outside of the [t*t] columns. *)
Theorem arrange_rows_total (t : Z) (row_queue : list row_entry) :
  0 < t -> queue_ok t row_queue -> is_Ok (arrange_rows row_queue t).
Proof.
  intros Ht Hqueue.
  destruct (arrange_rows_runs t row_queue Ht Hqueue) as (final_row & displacement_vector & ->).
  by eexists.
Qed.

(** ** Constructions that succeed *)

Section place_distinct.
Variable t : Z.
Hypothesis t_pos : 0 < t.

Lemma row_sound_mono (items items' : list Z) (row : row_entry) :
  (forall item, item ∈ items -> item ∈ items') ->
  row_sound t items row -> row_sound t items' row.
Proof.
  intros Hsub Hsound x item Hcell.
  destruct (Hsound _ _ Hcell) as (Hin & Hx & Hy). auto.
Qed.

(** While the items are distinct and in the square, the cells of a row keep
    distinct [x]. *)
Lemma place_items_fold_distinct (rest : list Z) :
  forall (done : list Z) rows rows',
  NoDup (done ++ rest) ->
  (forall item, item ∈ done ++ rest -> 0 <= item < t * t) ->
  rows_wf t rows -> Forall (row_sound t done) rows ->
  Forall (fun row : row_entry => NoDup (row.2).*1) rows ->
  foldM (place_item_in_square t) rows rest = Ok rows' ->
  Forall (fun row : row_entry => NoDup (row.2).*1) rows'.
Proof.
  induction rest as [|item rest IH];
    intros done rows rows' Hnd Hrange Hwf Hsound Hdistinct Hrun; simpl in Hrun.
  - by inv_res.
  - apply bind_Ok in Hrun as (rows1 & Hstep & Hrun).
    assert (done ++ item :: rest = (done ++ [item]) ++ rest) as Hassoc
      by (by rewrite <- app_assoc).
    rewrite Hassoc in Hnd, Hrange.
    assert (Forall (row_sound t (done ++ [item])) rows) as Hsound'.
    { eapply Forall_impl; [exact Hsound|]. intros row. apply row_sound_mono.
      intros item' Hin. apply elem_of_app. by left. }
    destruct (place_item_in_square_sound t (done ++ [item]) rows item rows1)
      as [Hwf1 Hsound1]; [apply elem_of_app; right; by left|done..|].
    eapply (IH (done ++ [item])); [done..| |exact Hrun].
    pose proof Hstep as (_ & k & inv & y & rc & Hk & Hrow & ->)%place_item_in_square_Ok.
    apply Forall_insert; [done|]. simpl. rewrite heappush_perm. simpl.
    apply NoDup_cons. split; [|by eapply Forall_lookup_1 in Hdistinct; [|exact Hrow]].
    intros ([x item'] & Hx & Hcell)%list_elem_of_fmap. simpl in Hx.
    eapply Forall_lookup_1 in Hsound; [|exact Hrow].
    destruct (Hsound _ _ Hcell) as (Hin & -> & Hy).
    destruct Hwf as [Hlen Hwf]. rewrite (Hwf _ _ Hrow) in Hy.
    rewrite Hlen in Hk. rewrite <- Hk in Hy.
    assert (0 <= item < t * t) as Hitem.
    { apply Hrange, elem_of_app. left. apply elem_of_app. right. by left. }
    assert (0 <= item' < t * t) as Hitem'.
    { apply Hrange, elem_of_app. left. apply elem_of_app. by left. }
    assert (0 <= item / t < t /\ 0 <= item' / t < t) as [Hq Hq'].
    { split; (split; [apply Z.div_pos; lia|apply Z.div_lt_upper_bound; lia]). }
    rewrite !norm_index_nonneg in Hy by lia.
    assert (item' = item) as ->.
    { rewrite (Z.div_mod item t), (Z.div_mod item' t) by lia.
      injection Hy as Hy. apply Z2Nat.inj in Hy; [|lia..]. by rewrite Hy, Hx. }
    apply NoDup_app in Hnd as [Hnd _]. apply NoDup_app in Hnd as (_ & Hnd & _).
    eapply Hnd; [exact Hin|by left].
Qed.

(** The Grid Placer on distinct items of the square: it succeeds, and the
    queue is one that the Row Packer can pack. *)
Lemma place_items_in_square_queue_ok (items : list Z) :
  NoDup items -> (forall item, item ∈ items -> 0 <= item < t * t) ->
  exists row_queue, place_items_in_square items t = Ok row_queue /\ queue_ok t row_queue.
Proof.
  intros Hnd Hrange.
  assert (Forall (fun item => 0 < t /\ - t <= item / t < t) items) as Hrows.
  { apply Forall_forall. intros item Hitem%Hrange. split; [done|]. split.
    - pose proof (Z.div_pos item t). lia.
    - apply Z.div_lt_upper_bound; lia. }
  pose proof (place_items_fold_total t items _ (rows_keyed_init t)) as Hfold.
  rewrite decide_True in Hfold by done. destruct Hfold as (rows & Hfold & [_ Hkeyed]).
  assert (exists row_queue, place_items_in_square items t = Ok row_queue) as [row_queue Hrun].
  { unfold place_items_in_square. rewrite Hfold. simpl.
    assert (forallb (fun '(inv_len, _, row) => bool_decide (inv_len = t - len row)) rows
            = true) as ->; [|simpl; eauto].
    apply Is_true_true_1, forallb_True. eapply Forall_impl; [exact Hkeyed|].
    intros [[inv_len y] row] Hkey. by apply bool_decide_pack. }
  exists row_queue. split; [done|].
  pose proof (place_items_in_square_sound _ _ _ Hrun) as Hsound.
  pose proof (place_items_in_square_heaps _ _ _ Hrun) as Hheaps.
  pose proof (place_items_in_square_Ok _ _ _ Hrun) as (_ & Hindices & Hsome).
  split; [done|]. apply Forall_forall. intros row Hrow.
  split; [by apply Hsome|]. split.
  - pose proof Hfold as Hdistinct.
    eapply (place_items_fold_distinct items []) in Hdistinct;
      [|done|done|apply rows_wf_init| |].
    + unfold place_items_in_square in Hrun. rewrite Hfold in Hrun. simpl in Hrun.
      apply bind_Ok in Hrun as (_ & _ & Hrun). injection Hrun as <-.
      apply list_elem_of_filter in Hrow as [_ Hrow]. rewrite heapify_perm in Hrow.
      by eapply Forall_forall in Hdistinct.
    + apply Forall_forall. intros row' (y & -> & _)%list_elem_of_fmap x item Hcell.
      by apply elem_of_nil in Hcell.
    + apply Forall_forall. intros row' (y & -> & _)%list_elem_of_fmap. constructor.
  - destruct (Hsound _ Hrow) as (Hne & _ & Hcells). unfold row_sound in Hcells.
    eapply Forall_forall in Hheaps; [|exact Hrow].
    destruct (row.2) as [|[first_item_x first_item] rest] eqn:Hrow2; [done|].
    exists first_item_x, first_item, rest. split; [done|].
    assert (forall x item, (x, item) ∈ (first_item_x, first_item) :: rest -> 0 <= x < t)
      as Hx.
    { intros x item Hcell. destruct (Hcells _ _ Hcell) as (_ & -> & _).
      apply Z.mod_pos_bound. lia. }
    split; [eapply Hx; by left|].
    intros x ([x' item] & -> & Hcell)%list_elem_of_fmap. simpl.
    split; [|by eapply Hx].
    eapply (is_heap_root (A := Z * Z)) in Hheaps;
      [|apply cell_lt_irrefl|apply cell_le_trans|reflexivity|exact Hcell].
    apply cell_le_spec in Hheaps. simpl in Hheaps. lia.
Qed.

End place_distinct.

Lemma max__intro (l : list Z) (m : Z) :
  m ∈ l -> (forall x, x ∈ l -> x <= m) -> max_ l = Ok m.
Proof.
  intros Hin Hmax. destruct (max_ l) as [m'|e] eqn:Hl.
  - apply max__Ok in Hl as [Hin' Hmax']. f_equal.
    apply Z.le_antisymm; [by apply Hmax|by apply Hmax'].
  - destruct l; [by apply elem_of_nil in Hin|discriminate].
Qed.

Lemma min__intro (l : list Z) (m : Z) :
  m ∈ l -> (forall x, x ∈ l -> m <= x) -> min_ l = Ok m.
Proof.
  intros Hin Hmin. destruct (min_ l) as [m'|e] eqn:Hl.
  - apply min__Ok in Hl as [Hin' Hmin']. f_equal.
    apply Z.le_antisymm; [by apply Hmin'|by apply Hmin].
  - destruct l; [by apply elem_of_nil in Hin|discriminate].
Qed.

Lemma mapM_is_Ok {A B} (f : A -> res B) (l : list A) :
  (forall a, a ∈ l -> is_Ok (f a)) -> is_Ok (mapM f l).
Proof.
  induction l as [|a l IH]; intros Hf; simpl; [by eexists|].
  destruct (Hf a) as [b ->]; [by left|]. simpl.
  destruct IH as [bs ->]; [intros a' Ha'; apply Hf; by right|]. simpl. by eexists.
Qed.

(** The table parameter, from the largest item [m] and the number of
    items. *)
Lemma choose_best_t_Ok (items : list Z) (m : Z) :
  max_ items = Ok m -> 0 <= m <= 2 ^ 52 ->
  exists s t,
    ceil_sqrt m = Ok s /\ choose_best_t items = Ok t /\
    t = (if decide (s * s < len items) then len items else s) /\
    1 <= t /\ m <= t * t /\ len items <= t * t.
Proof.
  intros Hmax Hm. unfold choose_best_t. rewrite Hmax. cbn [mbind res_bind].
  pose proof (ceil_sqrt_exact m Hm) as Hs.
  pose proof Hs as (_ & Hs0 & Hreach & _)%ceil_sqrt_Ok; [|lia].
  rewrite Hs. set (s := exact_ceil_sqrt m) in *.
  assert (1 <= len items) as Hlen.
  { destruct items; [discriminate|]. unfold len. simpl. lia. }
  exists s. cbn [mbind res_bind]. rewrite Z.pow_2_r. case_decide as Hsmall.
  - exists (len items). do 3 (split; [done|]). split; [done|]. split; nia.
  - exists s. do 3 (split; [done|]). split; [nia|]. split; lia.
Qed.

(** Distinct items that are not negative, through the Grid Placer and the
    Row Packer with a positive [t]: both succeed when the largest item is
    below [t*t], and the Grid Placer raises [IndexError] when it is not. *)
Lemma build_items (items : list Z) (t m : Z) :
  NoDup items -> (forall item, item ∈ items -> 0 <= item) ->
  max_ items = Ok m -> 0 < t ->
  if decide (m < t * t) then
    exists row_queue final_row displacement_vector,
      place_items_in_square items t = Ok row_queue /\
      arrange_rows row_queue t = Ok (final_row, displacement_vector) /\
      forall (n : nat) item, final_row !! n = Some (Some item) -> item ∈ items
  else place_items_in_square items t = Raise IndexError.
Proof.
  intros Hnd Hpos [Hin Hmax]%max__Ok Ht. case_decide as Hm.
  - destruct (place_items_in_square_queue_ok t Ht items Hnd) as (row_queue & Hplace & Hqueue).
    { intros item Hitem. pose proof (Hpos _ Hitem). pose proof (Hmax _ Hitem). lia. }
    destruct (arrange_rows_runs t row_queue Ht Hqueue)
      as (final_row & displacement_vector & Harrange).
    exists row_queue, final_row, displacement_vector. do 2 (split; [done|]).
    intros n item Hn.
    destruct (arrange_rows_sound _ _ _ _ Harrange) as (st & _ & _ & Htrim & Hresult);
      [by destruct Hqueue|].
    eapply trim_nones_from_right_prefix in Hn; [|exact Htrim].
    destruct (Hresult _ _ Hn) as (row & j & d & x & Hrow & _ & _ & Hcell & _).
    destruct (place_items_in_square_sound _ _ _ Hplace _ Hrow) as (_ & _ & Hcells).
    by destruct (Hcells _ _ Hcell) as (? & _).
  - pose proof (place_items_fold_total t items _ (rows_keyed_init t)) as Hfold.
    rewrite decide_False in Hfold.
    + unfold place_items_in_square. rewrite Hfold. simpl. by rewrite decide_False by lia.
    + intros Hrows. eapply Forall_forall in Hrows as [_ [_ Hlt]]; [|exact Hin].
      assert (t <= m / t) by (apply Z.div_le_lower_bound; lia). lia.
Qed.

Section hash_total.
Context {K : Type} (identity : K -> Z) (set_iter : list Z -> list Z).
Hypothesis set_iter_perm : forall l, set_iter l ≡ₚ l.
Implicit Types (keys : list K) (to_int : K -> Z).

(** The keys of [key_to_original], in the order of the iteration: the
    integers of the keys, once each. *)
Lemma int_keys_perm to_int keys :
  set_iter (insertion_order (to_int <$> keys)) ≡ₚ remove_dups (to_int <$> keys).
Proof. by rewrite set_iter_perm, insertion_order_perm. Qed.

Lemma min__perm (l l' : list Z) : l ≡ₚ l' -> min_ l = min_ l'.
Proof.
  intros Hperm. destruct (min_ l) as [m|e] eqn:Hl.
  - apply min__Ok in Hl as [Hin Hmin]. symmetry. apply min__intro.
    + by rewrite <- Hperm.
    + intros x Hx. apply Hmin. by rewrite Hperm.
  - destruct l; [|discriminate]. destruct l' as [|x l']; [done|].
    by apply Permutation_nil_cons in Hperm.
Qed.

Lemma max__perm (l l' : list Z) : l ≡ₚ l' -> max_ l = max_ l'.
Proof.
  intros Hperm. destruct (max_ l) as [m|e] eqn:Hl.
  - apply max__Ok in Hl as [Hin Hmax]. symmetry. apply max__intro.
    + by rewrite <- Hperm.
    + intros x Hx. apply Hmax. by rewrite Hperm.
  - destruct l; [|discriminate]. destruct l' as [|x l']; [done|].
    by apply Permutation_nil_cons in Hperm.
Qed.

Lemma min__remove_dups (l : list Z) : min_ (remove_dups l) = min_ l.
Proof.
  destruct (min_ l) as [m|e] eqn:Hl.
  - apply min__Ok in Hl as [Hin Hmin]. apply min__intro.
    + by apply elem_of_remove_dups.
    + intros x Hx. rewrite elem_of_remove_dups in Hx. by apply Hmin.
  - destruct l; [exact Hl|discriminate].
Qed.

Lemma max__remove_dups (l : list Z) : max_ (remove_dups l) = max_ l.
Proof.
  destruct (max_ l) as [m|e] eqn:Hl.
  - apply max__Ok in Hl as [Hin Hmax]. apply max__intro.
    + by apply elem_of_remove_dups.
    + intros x Hx. rewrite elem_of_remove_dups in Hx. by apply Hmax.
  - destruct l; [exact Hl|discriminate].
Qed.

(** X18.  With [minimize=True] and integer keys that span at most [2^52],
    [hash_parameters] raises in two cases only: [ValueError] on an empty key
    sequence, and [IndexError] when the difference between the largest and
    the smallest integer key is a positive square [s*s] and there are at
    most [s*s] distinct integer keys (the largest shifted key then falls in
    row [t]).  On every other such key sequence it returns:
    [find_first_fit] never fails to place a row. *)
Theorem hash_parameters_total keys (to_int_opt : option (K -> Z)) :
  let ints := default identity to_int_opt <$> keys in
  (forall x y, x ∈ ints -> y ∈ ints -> y - x <= 2 ^ 52) ->
  match hash_parameters identity set_iter keys true to_int_opt with
  | Ok info =>
      keys ≠ [] /\
      forall lo hi s, min_ ints = Ok lo -> max_ ints = Ok hi -> 1 <= s ->
        hi - lo = s * s -> s * s < len (remove_dups ints)
  | Raise e =>
      (keys = [] /\ e = ValueError) \/
      (e = IndexError /\
       exists lo hi s, min_ ints = Ok lo /\ max_ ints = Ok hi /\ 1 <= s /\
         hi - lo = s * s /\ len (remove_dups ints) <= s * s)
  end.
Proof.
  intros ints Hspan. destruct (decide (keys = [])) as [->|Hkeys].
  { unfold hash_parameters, insertion_order. simpl.
    pose proof (set_iter_perm []) as ->%Permutation_nil_r. simpl. by left. }
  assert (exists lo hi, min_ ints = Ok lo /\ max_ ints = Ok hi) as (lo & hi & Hlo & Hhi).
  { subst ints. destruct keys; [done|]. simpl. eauto. }
  pose proof Hlo as [Hlo_in Hlo_min]%min__Ok.
  pose proof Hhi as [Hhi_in Hhi_max]%max__Ok.
  pose proof (int_keys_perm (default identity to_int_opt) keys) as Hperm0.
  fold ints in Hperm0.
  unfold hash_parameters. cbv zeta.
  set (items0 := set_iter (insertion_order _)) in *.
  assert (min_ items0 = Ok lo) as ->
    by (by rewrite (min__perm _ _ Hperm0), min__remove_dups).
  cbn [mbind res_bind].
  set (items := set_iter (_ <$> items0)).
  assert (items ≡ₚ (fun x => x + (0 - lo)) <$> remove_dups ints) as Hperm
    by (unfold items; by rewrite set_iter_perm, Hperm0).
  assert (forall item, item ∈ items <-> exists z, z ∈ ints /\ item = z + (0 - lo)) as Hitems.
  { intros item. rewrite Hperm, list_elem_of_fmap. split.
    - intros (z & -> & Hz). rewrite elem_of_remove_dups in Hz. eauto.
    - intros (z & Hz & ->). exists z. by rewrite elem_of_remove_dups. }
  assert (NoDup items) as Hnd.
  { rewrite Hperm. apply NoDup_fmap_2_strong; [|apply NoDup_remove_dups].
    intros x y _ _ Heq. lia. }
  assert (forall item, item ∈ items -> 0 <= item) as Hpos.
  { intros item (z & Hz%Hlo_min & ->)%Hitems. lia. }
  assert (max_ items = Ok (hi - lo)) as Hmax.
  { apply max__intro.
    - apply Hitems. exists hi. split; [done|lia].
    - intros item (z & Hz%Hhi_max & ->)%Hitems. lia. }
  assert (len items = len (remove_dups ints)) as Hlen.
  { unfold len. by rewrite Hperm, length_fmap. }
  destruct (choose_best_t_Ok items (hi - lo) Hmax)
    as (s & t & Hs & Ht & Hteq & Ht1 & Hmt & Hlt).
  { pose proof (Hlo_min _ Hhi_in). pose proof (Hspan lo hi Hlo_in Hhi_in). lia. }
  rewrite Ht. cbn [mbind res_bind]. rewrite Hmax. cbn [mbind res_bind].
  rewrite !bool_decide_eq_true_2 by lia. cbn [py_assert andb mbind res_bind].
  pose proof (build_items items t (hi - lo) Hnd Hpos Hmax ltac:(lia)) as Hbuild.
  apply ceil_sqrt_Ok in Hs as (Hm0 & Hs0 & Hreach & Hleast); [|by apply Hspan].
  destruct (decide (hi - lo < t * t)) as [Hroom|Hfull].
  - destruct Hbuild
      as (row_queue & final_row & displacement_vector & Hplace & Harrange & Hfinal).
    rewrite Hplace. cbn [mbind res_bind]. rewrite Harrange. cbn [mbind res_bind].
    destruct (mapM_is_Ok
                (slot_of (key_to_original_of (default identity to_int_opt) keys) (0 - lo))
                final_row) as [slots ->].
    { intros [item|] Hin; [|by eexists]. apply list_elem_of_lookup in Hin as [n Hn].
      apply Hfinal, Hitems in Hn as (z & Hz & ->). simpl.
      replace (z + (0 - lo) - (0 - lo)) with z by lia.
      apply list_elem_of_fmap in Hz as (k & -> & Hk).
      destruct (key_to_original_has (default identity to_int_opt) ∅ keys k)
        as [original Horiginal]; [by left|].
      unfold key_to_original_of. rewrite Horiginal. by eexists. }
    cbn [mbind res_bind]. split; [done|].
    intros lo' hi' s' Hlo' Hhi' Hs' Hsq.
    rewrite Hlo in Hlo'. rewrite Hhi in Hhi'. injection Hlo' as <-. injection Hhi' as <-.
    assert (s = s') as <-.
    { pose proof (Hleast s' ltac:(lia) ltac:(lia)). nia. }
    rewrite <- Hlen. case_decide; [done|]. subst t. lia.
  - rewrite Hbuild. cbn [mbind res_bind]. right. split; [done|].
    exists lo, hi, t. do 3 (split; [done|]). split; [lia|]. by rewrite <- Hlen.
Qed.

End hash_total.

Section hash_total_plain.
Context {K : Type} (identity : K -> Z) (set_iter : list Z -> list Z).
Hypothesis set_iter_perm : forall l, set_iter l ≡ₚ l.

(** X19.  With [minimize=False] and integer keys between [0] and [2^52],
    [hash_parameters] raises in two cases only: [ValueError] on an empty key
    sequence, and [IndexError] when the largest integer key is a positive
    square [s*s] and there are at most [s*s] distinct integer keys.  On
    every other such key sequence it returns. *)
Theorem hash_parameters_total_plain (keys : list K) (to_int_opt : option (K -> Z)) :
  let ints := default identity to_int_opt <$> keys in
  (forall z, z ∈ ints -> 0 <= z <= 2 ^ 52) ->
  match hash_parameters identity set_iter keys false to_int_opt with
  | Ok info =>
      keys ≠ [] /\
      forall hi s, max_ ints = Ok hi -> 1 <= s -> hi = s * s ->
        s * s < len (remove_dups ints)
  | Raise e =>
      (keys = [] /\ e = ValueError) \/
      (e = IndexError /\
       exists hi s, max_ ints = Ok hi /\ 1 <= s /\ hi = s * s /\
         len (remove_dups ints) <= s * s)
  end.
Proof.
  intros ints Hnonneg. destruct (decide (keys = [])) as [->|Hkeys].
  { unfold hash_parameters, insertion_order. simpl.
    pose proof (set_iter_perm []) as ->%Permutation_nil_r. simpl. by left. }
  assert (exists hi, max_ ints = Ok hi) as (hi & Hhi).
  { subst ints. destruct keys; [done|]. simpl. eauto. }
  pose proof Hhi as [Hhi_in Hhi_max]%max__Ok.
  pose proof (int_keys_perm set_iter set_iter_perm (default identity to_int_opt) keys)
    as Hperm. fold ints in Hperm.
  unfold hash_parameters. cbv zeta.
  set (items := set_iter (insertion_order _)) in *.
  cbn [mbind res_bind].
  assert (forall item, item ∈ items <-> item ∈ ints) as Hitems.
  { intros item. by rewrite Hperm, elem_of_remove_dups. }
  assert (NoDup items) as Hnd by (rewrite Hperm; apply NoDup_remove_dups).
  assert (forall item, item ∈ items -> 0 <= item) as Hpos.
  { intros item Hitem%Hitems. apply (Hnonneg _ Hitem). }
  assert (max_ items = Ok hi) as Hmax
    by (by rewrite (max__perm _ _ Hperm), max__remove_dups).
  assert (len items = len (remove_dups ints)) as Hlen.
  { unfold len. by rewrite Hperm. }
  destruct (choose_best_t_Ok items hi Hmax)
    as (s & t & Hs & Ht & Hteq & Ht1 & Hmt & Hlt); [by apply Hnonneg|].
  rewrite Ht. cbn [mbind res_bind]. rewrite Hmax. cbn [mbind res_bind].
  rewrite !bool_decide_eq_true_2 by lia. cbn [py_assert andb mbind res_bind].
  pose proof (build_items items t hi Hnd Hpos Hmax ltac:(lia)) as Hbuild.
  apply ceil_sqrt_Ok in Hs as (Hm0 & Hs0 & Hreach & Hleast); [|by apply Hnonneg].
  destruct (decide (hi < t * t)) as [Hroom|Hfull].
  - destruct Hbuild
      as (row_queue & final_row & displacement_vector & Hplace & Harrange & Hfinal).
    rewrite Hplace. cbn [mbind res_bind]. rewrite Harrange. cbn [mbind res_bind].
    destruct (mapM_is_Ok
                (slot_of (key_to_original_of (default identity to_int_opt) keys) 0)
                final_row) as [slots ->].
    { intros [item|] Hin; [|by eexists]. apply list_elem_of_lookup in Hin as [n Hn].
      apply Hfinal, Hitems in Hn. simpl. rewrite Z.sub_0_r.
      apply list_elem_of_fmap in Hn as (k & -> & Hk).
      destruct (key_to_original_has (default identity to_int_opt) ∅ keys k)
        as [original Horiginal]; [by left|].
      unfold key_to_original_of. rewrite Horiginal. by eexists. }
    cbn [mbind res_bind]. split; [done|].
    intros hi' s' Hhi' Hs' Hsq.
    rewrite Hhi in Hhi'. injection Hhi' as <-.
    assert (s = s') as <-.
    { pose proof (Hleast s' ltac:(lia) ltac:(lia)). nia. }
    rewrite <- Hlen. case_decide; [done|]. subst t. lia.
  - rewrite Hbuild. cbn [mbind res_bind]. right. split; [done|].
    exists hi, t. do 2 (split; [done|]). split; [lia|]. by rewrite <- Hlen.
Qed.

End hash_total_plain.

(** ** The size and the construction of a dictionary *)

Section dict_more.
Context {K V : Type} `{EqDecision K} (identity : K -> Z) (params : HashInfo K).
Implicit Types (_arr : list (option (K * V))) (key : K) (value : V).

Lemma dict_iter_insert _arr (n : nat) (old new : option (K * V)) :
  _arr !! n = Some old ->
  (length (dict_iter (<[n := new]> _arr)) + (if old is Some _ then 1 else 0)
   = length (dict_iter _arr) + (if new is Some _ then 1 else 0))%nat.
Proof.
  revert n; induction _arr as [|entry _arr IH]; intros [|n] Hn; simplify_eq/=.
  - unfold dict_iter. simpl. destruct old as [[]|], new as [[]|]; simpl; lia.
  - specialize (IH _ Hn). unfold dict_iter in *. simpl.
    destruct entry as [[]|]; simpl; lia.
Qed.

(** X20.  [d[key] = value] adds one to [len(d)] when [key] was not stored,
    and leaves [len(d)] as it is when it was. *)
Theorem dict_setitem_len _arr key value _arr' :
  dict_setitem identity params _arr key value = Ok _arr' ->
  dict_len _arr' = match dict_getitem identity params _arr key with
                   | Ok _ => dict_len _arr
                   | Raise _ => dict_len _arr + 1
                   end.
Proof.
  intros (index & n & Hindex & Hn & ->)%dict_setitem_Ok.
  destruct (lookup_lt_is_Some_2 _arr n) as [old Hold]; [by eapply norm_index_lt|].
  pose proof (dict_iter_insert _ _ _ (Some (key, value)) Hold) as Hlen.
  unfold dict_getitem, getitem. rewrite Hindex. simpl. rewrite Hn, Hold. simpl.
  unfold dict_len, len. destruct old as [[key' value']|]; simpl; lia.
Qed.

(** X21.  [del d[key]] takes one off [len(d)]. *)
Theorem dict_delitem_len _arr key _arr' :
  dict_delitem identity params _arr key = Ok _arr' ->
  dict_len _arr' = dict_len _arr - 1.
Proof.
  intros (index & n & entry & Hindex & Hn & Hentry & ->)%dict_delitem_Ok.
  pose proof (dict_iter_insert _ _ _ None Hentry) as Hlen. simpl in Hlen.
  unfold dict_len, len. lia.
Qed.

(** The later assignments of a construction do not touch the entry of a key
    that they do not assign. *)
Lemma dict_fold_keeps (pairs : list (K * V)) key index (n : nat) (entry : option (K * V)) :
  forall _arr _arr',
  length _arr = length (info_slots params) ->
  foldM (fun _arr '(key, value) => dict_setitem identity params _arr key value) _arr pairs
  = Ok _arr' ->
  key ∉ pairs.*1 ->
  index_or_key_error identity params key = Ok index ->
  norm_index (length _arr) index = Some n ->
  _arr !! n = Some entry ->
  _arr' !! n = Some entry /\ length _arr' = length _arr.
Proof.
  induction pairs as [|[key1 value1] pairs IH];
    intros _arr _arr' Hlen Hrun Hkey Hindex Hn Hentry; simpl in Hrun.
  - by inv_res.
  - apply bind_Ok in Hrun as (_arr1 & Hset & Hrun).
    apply dict_setitem_Ok in Hset as (index1 & n1 & Hindex1 & Hn1 & ->).
    apply not_elem_of_cons in Hkey as [Hne Hkey]. simpl in Hne.
    destruct (index_or_key_error_slot identity params _arr _ _ Hlen Hindex)
      as (n' & Hn' & Hslot).
    destruct (index_or_key_error_slot identity params _arr _ _ Hlen Hindex1)
      as (n1' & Hn1' & Hslot1).
    rewrite Hn in Hn'. injection Hn' as <-. rewrite Hn1 in Hn1'. injection Hn1' as <-.
    destruct (IH (<[n1 := Some (key1, value1)]> _arr) _arr') as [Hkept Hlen'];
      [by rewrite length_insert|done|done|done|by rewrite length_insert| |].
    + rewrite list_lookup_insert_ne; [done|]. intros <-. congruence.
    + split; [done|]. by rewrite Hlen', length_insert.
Qed.

Lemma dict_init_length (pairs : list (K * V)) :
  forall _arr _arr',
  foldM (fun _arr '(key, value) => dict_setitem identity params _arr key value) _arr pairs
  = Ok _arr' ->
  length _arr' = length _arr.
Proof.
  induction pairs as [|[key1 value1] pairs IH]; intros _arr _arr' Hrun; simpl in Hrun.
  - by inv_res.
  - apply bind_Ok in Hrun as (_arr1 & Hset & Hrun).
    apply dict_setitem_Ok in Hset as (index1 & n1 & Hindex1 & Hn1 & ->).
    rewrite (IH _ _ Hrun). apply length_insert.
Qed.

(** X22.  In the dictionary built from a sequence of pairs, [d[key]] is the
    value of the last pair with that key. *)
Theorem dict_init_getitem (before after : list (K * V)) key value _arr :
  dict_init identity params (before ++ (key, value) :: after) = Ok _arr ->
  key ∉ after.*1 ->
  dict_getitem identity params _arr key = Ok value.
Proof.
  unfold dict_init. rewrite foldM_app. intros Hrun Hlast.
  apply bind_Ok in Hrun as (_arr0 & Hbefore & Hrun). simpl in Hrun.
  apply bind_Ok in Hrun as (_arr1 & Hset & Hafter).
  apply dict_init_length in Hbefore. unfold dict_empty in Hbefore.
  rewrite length_replicate in Hbefore.
  apply dict_setitem_Ok in Hset as (index & n & Hindex & Hn & ->).
  destruct (dict_fold_keeps after key index n (Some (key, value))
                (<[n := Some (key, value)]> _arr0) _arr) as [Hkept Hlen];
    [by rewrite length_insert|done|done|done|by rewrite length_insert| |].
  - apply list_lookup_insert_eq. by eapply norm_index_lt.
  - apply dict_getitem_Ok. exists index, n, key. split; [done|]. split; [|done].
    by rewrite Hlen, length_insert.
Qed.

(** X23.  The dictionary built from a sequence of pairs has the keys of the
    pairs and no other: [d[key]] raises for every other key. *)
Theorem dict_init_keys (pairs : list (K * V)) key _arr :
  dict_init identity params pairs = Ok _arr ->
  is_Ok (dict_getitem identity params _arr key) <-> key ∈ pairs.*1.
Proof.
  intros Hinit. split.
  - intros (value & (index & n & key' & Hindex & Hn & Hentry)%dict_getitem_Ok).
    pose proof (dict_wf_init _ _ _ _ Hinit) as [Hlen Hwf].
    assert (forall n key value, _arr !! n = Some (Some (key, value)) -> key ∈ pairs.*1)
      as Hstored.
    { unfold dict_init in Hinit. revert Hinit.
      apply (foldM_invariant
               (fun _arr => forall n key value,
                  _arr !! n = Some (Some (key, value)) -> key ∈ pairs.*1)).
      - intros s [key1 value1] s' Hpair Hs (index1 & n1 & _ & Hn1 & ->)%dict_setitem_Ok
          n2 key2 value2 Hn2.
        destruct (decide (n1 = n2)) as [<-|Hne].
        + rewrite list_lookup_insert_eq in Hn2 by (by eapply norm_index_lt).
          injection Hn2 as <- <-. apply list_elem_of_fmap. by exists (key1, value1).
        + rewrite list_lookup_insert_ne in Hn2 by done. by eapply Hs.
      - intros n1 key1 value1 [Hnone _]%lookup_replicate. discriminate. }
    destruct (Hwf _ _ _ Hentry) as (index' & Hindex' & Hn').
    destruct (index_or_key_error_slot identity params _arr _ _ Hlen Hindex)
      as (n1 & Hn1 & Hslot).
    destruct (index_or_key_error_slot identity params _arr _ _ Hlen Hindex')
      as (n2 & Hn2 & Hslot').
    assert (key' = key) as <- by congruence. by eapply Hstored.
  - intros Hkey.
    assert (exists before value after,
              pairs = before ++ (key, value) :: after /\ key ∉ after.*1)
      as (before & value & after & -> & Hlast).
    { clear Hinit. induction pairs as [|[key1 value1] pairs IH].
      - by apply elem_of_nil in Hkey.
      - destruct (decide (key ∈ pairs.*1)) as [Hin|Hnotin].
        + destruct (IH Hin) as (before & value & after & -> & Hlast).
          exists ((key1, value1) :: before), value, after. done.
        + apply elem_of_cons in Hkey as [->|Hkey]; [|done].
          exists [], value1, pairs. done. }
    exists value.
    unfold dict_init in Hinit. rewrite foldM_app in Hinit.
    apply bind_Ok in Hinit as (_arr0 & Hbefore & Hrun). simpl in Hrun.
    apply bind_Ok in Hrun as (_arr1 & Hset & Hafter).
    apply dict_init_length in Hbefore. unfold dict_empty in Hbefore.
    rewrite length_replicate in Hbefore.
    apply dict_setitem_Ok in Hset as (index & n & Hindex & Hn & ->).
    destruct (dict_fold_keeps after key index n (Some (key, value))
                (<[n := Some (key, value)]> _arr0) _arr) as [Hkept Hlen];
      [by rewrite length_insert|done|done|done|by rewrite length_insert| |].
    + apply list_lookup_insert_eq. by eapply norm_index_lt.
    + apply dict_getitem_Ok. exists index, n, key. split; [done|]. split; [|done].
      by rewrite Hlen, length_insert.
Qed.

End dict_more.

(** ** The last properties at concrete keys *)

Lemma place_items_in_square_first_witness :
  exists first_item_x first_item rest,
    (2, 1, [(1, 5); (3, 7)]).2 = (first_item_x, first_item) :: rest /\
    forall x item, (x, item) ∈ (2, 1, [(1, 5); (3, 7)]).2 -> first_item_x <= x.
Proof.
  apply (place_items_in_square_first [1; 5; 7] 4
           [(2, 1, [(1, 5); (3, 7)]); (3, 0, [(1, 1)])]).
  - vm_compute; reflexivity.
  - by left.
Defined.

Lemma arrange_rows_total_witness :
  is_Ok (arrange_rows [(2, 1, [(0, 1); (1, 5)]); (3, 3, [(1, 7)])] 4).
Proof.
  apply arrange_rows_total; [lia|]. split.
  - apply (bool_decide_unpack _). vm_compute. exact I.
  - apply Forall_cons. split; [|apply Forall_cons; split; [|by apply Forall_nil]].
    + split; [by eexists|]. split; [apply (bool_decide_unpack _); vm_compute; exact I|].
      exists 0, 1, [(1, 5)]. split; [reflexivity|]. split; [lia|].
      intros x Hx. simpl in Hx.
      repeat (apply elem_of_cons in Hx as [->|Hx]; [lia|]). by apply elem_of_nil in Hx.
    + split; [by eexists|]. split; [apply (bool_decide_unpack _); vm_compute; exact I|].
      exists 1, 7, []. split; [reflexivity|]. split; [lia|].
      intros x Hx. simpl in Hx.
      repeat (apply elem_of_cons in Hx as [->|Hx]; [lia|]). by apply elem_of_nil in Hx.
Defined.

Lemma hash_parameters_total_witness :
  let ints := default id None <$> [0; 4] in
  match hash_parameters id ascending [0; 4] true None with
  | Ok info =>
      [0; 4] ≠ [] /\
      forall lo hi s, min_ ints = Ok lo -> max_ ints = Ok hi -> 1 <= s ->
        hi - lo = s * s -> s * s < len (remove_dups ints)
  | Raise e =>
      ([0; 4] = [] /\ e = ValueError) \/
      (e = IndexError /\
       exists lo hi s, min_ ints = Ok lo /\ max_ ints = Ok hi /\ 1 <= s /\
         hi - lo = s * s /\ len (remove_dups ints) <= s * s)
  end.
Proof.
  apply (hash_parameters_total id ascending ascending_perm [0; 4] None).
  intros x y Hx Hy. simpl in Hx, Hy.
  repeat (apply elem_of_cons in Hx as [->|Hx]; [|]);
    repeat (apply elem_of_cons in Hy as [->|Hy]; [|]);
    try (by apply elem_of_nil in Hx); try (by apply elem_of_nil in Hy); lia.
Defined.

Lemma hash_parameters_total_plain_witness :
  match hash_parameters id ascending [1; 5; 7] false None with
  | Ok info =>
      [1; 5; 7] ≠ [] /\
      forall hi s, max_ (default id None <$> [1; 5; 7]) = Ok hi -> 1 <= s -> hi = s * s ->
        s * s < len (remove_dups (default id None <$> [1; 5; 7]))
  | Raise e =>
      ([1; 5; 7] = [] /\ e = ValueError) \/
      (e = IndexError /\
       exists hi s, max_ (default id None <$> [1; 5; 7]) = Ok hi /\ 1 <= s /\ hi = s * s /\
         len (remove_dups (default id None <$> [1; 5; 7])) <= s * s)
  end.
Proof.
  apply (hash_parameters_total_plain id ascending ascending_perm [1; 5; 7] None).
  intros z Hz. simpl in Hz.
  repeat (apply elem_of_cons in Hz as [->|Hz]; [lia|]). by apply elem_of_nil in Hz.
Defined.

Lemma dict_setitem_len_witness :
  dict_len [None; Some (5, 10); None]
  = match dict_getitem id example_info ([None; None; None] : list (option (Z * Z))) 5 with
    | Ok _ => dict_len ([None; None; None] : list (option (Z * Z)))
    | Raise _ => dict_len ([None; None; None] : list (option (Z * Z))) + 1
    end.
Proof.
  apply (dict_setitem_len id example_info [None; None; None] 5 10).
  vm_compute; reflexivity.
Defined.

Lemma dict_delitem_len_witness :
  dict_len ([None; None; Some (7, 20)] : list (option (Z * Z)))
  = dict_len [None; Some (5, 10); Some (7, 20)] - 1.
Proof.
  apply (dict_delitem_len id example_info [None; Some (5, 10); Some (7, 20)] 5).
  vm_compute; reflexivity.
Defined.

Lemma dict_init_getitem_witness :
  dict_getitem id example_info [None; Some (5, 11); Some (7, 20)] 5 = Ok 11.
Proof.
  apply (dict_init_getitem id example_info [(5, 10); (7, 20)] []).
  - vm_compute; reflexivity.
  - apply not_elem_of_nil.
Defined.

Lemma dict_init_keys_witness :
  is_Ok (dict_getitem id example_info [None; Some (5, 11); Some (7, 20)] 1)
  <-> 1 ∈ [(5, 10); (7, 20); (5, 11)].*1.
Proof.
  apply (dict_init_keys id example_info [(5, 10); (7, 20); (5, 11)]).
  vm_compute; reflexivity.
Defined.
